(** * Bounded priority buffer: queue.c, sync.c, buffer.c

    A shallow embedding of the queue / synchronisation / buffer triad of the
    producer-consumer coursework, and the properties its design document
    states about it.

    - [Queue]   : queue.c, the array-backed priority container.
    - [Machine] : the POSIX objects sync.c and buffer.c are written against
                  (semaphores, mutex, clock, stop flag), as counters and an
                  oracle.
    - [Sync]    : sync.c, the mutex and the two counting semaphores.
    - [Buffer]  : buffer.c, the put/get operations built from both.
    - [Threads] : the same operations one primitive at a time, for calls
                  that overlap.
    - [Util]    : util.c, the random numbers, the millisecond clock and the
                  interruptible sleep.
    - [Cli]     : cli.c, the reading of the command line, over the returns
                  of [getopt] and an abstract [strtol].
    - [Workers], [Main] : the message a producer builds, the wait between
                  two operations, and the seeds and priorities [main] hands
                  out.

    C integers are integers of [Z].  [unsigned long] arithmetic wraps modulo
    2^64 and is written with [ulong].  Signed overflow is undefined in C and
    is not given a meaning here: the [int] fields (count, capacity, indices)
    stay inside the range of [int] on every well-formed queue
    ([int_results_fit]), and so do the [long] nanoseconds of a deadline
    ([add_ms_fits]). *)

From stdpp Require Import base option list sorting.
From Stdlib Require Import ZArith Lia Sorting.Sorted.
From Stdlib Require Ascii String.

Local Open Scope Z_scope.

(** ** Machine integers *)

Definition INT_MAX : Z := 2147483647.
Definition ULONG_MAX : Z := 18446744073709551615.

(** Conversion of a mathematical result to [unsigned long] (64 bits). *)
Definition ulong (z : Z) : Z := z mod (ULONG_MAX + 1).

(** ** queue.c *)

Module Queue.

(** [msg_t] of queue.h. *)
Record msg_t : Type := Msg {
  value : Z;
  priority : Z;
  producer_id : Z;
  seq : Z
}.

(** Zero-filled message: what [calloc] leaves in every slot. *)
Definition msg_zero : msg_t := Msg 0 0 0 0.

#[export] Instance msg_inhabited : Inhabited msg_t := populate msg_zero.

#[export] Instance msg_eq_dec : EqDecision msg_t.
Proof. solve_decision. Defined.

(** [tmp.seq = s] on a copy of a message. *)
Definition with_seq (m : msg_t) (s : Z) : msg_t :=
  Msg (value m) (priority m) (producer_id m) s.

(** [queue_t] of queue.h.  [buf] is the pointer to the backing array:
    [None] is NULL, [Some l] an array of [length l] messages. *)
Record queue_t : Type := Q {
  buf : option (list msg_t);
  capacity : Z;
  count : Z;
  next_seq : Z
}.

(** [calloc((size_t)n, sizeof(msg_t))]: zero-filled storage, or NULL when
    the allocator has none to give ([ok = false]). *)
Definition calloc (ok : bool) (n : Z) : option (list msg_t) :=
  if ok then Some (replicate (Z.to_nat n) msg_zero) else None.

(** A pointer argument [queue_t *q] is [option queue_t]: [None] is NULL,
    [Some q] points to a queue whose fields are [q].  Each function returns
    its [int] result together with the pointee after the call.  [alloc_ok]
    says whether the allocator can serve the request. *)
Definition queue_init (q : option queue_t) (cap : Z) (alloc_ok : bool)
  : Z * option queue_t :=
  match q with
  | None => (-1, None)
  | Some q0 =>
      if cap <=? 0 then (-1, q)
      else
        match calloc alloc_ok cap with
        | None => (-2, Some (Q None (capacity q0) (count q0) (next_seq q0)))
        | Some b => (0, Some (Q (Some b) cap 0 1))
        end
  end.

Definition queue_destroy (q : option queue_t) : option queue_t :=
  match q with
  | None => None
  | Some _ => Some (Q None 0 0 0)
  end.

Definition queue_is_full (q : option queue_t) : bool :=
  match q with
  | None => false
  | Some q0 => count q0 >=? capacity q0
  end.

Definition queue_is_empty (q : option queue_t) : bool :=
  match q with
  | None => true
  | Some q0 => count q0 =? 0
  end.

(** [q->buf[i]] for an [int] index. *)
Definition at_index (b : list msg_t) (i : Z) : msg_t := b !!! Z.to_nat i.

Definition queue_push (q : option queue_t) (m : option msg_t)
  : Z * option queue_t :=
  match q, m with
  | Some q0, Some m0 =>
      match buf q0 with
      | None => (-1, q)
      | Some b =>
          if queue_is_full q then (-2, q)
          else
            let tmp := with_seq m0 (next_seq q0) in
            (0, Some (Q (Some (<[Z.to_nat (count q0) := tmp]> b))
                        (capacity q0)
                        (count q0 + 1)
                        (ulong (next_seq q0 + 1))))
      end
  | _, _ => (-1, q)
  end.

(** The comparison in the body of the scan: does [q->buf[i]] replace
    [q->buf[best]]? *)
Definition replaces (bi bb : msg_t) : bool :=
  if priority bi >? priority bb then true
  else if (priority bi =? priority bb) && (seq bi <? seq bb) then true
  else false.

(** The [for (int i = 1; i < q->count; i++)] loop, entered at index [i] with
    the current [best]; [fuel] bounds the number of iterations. *)
Fixpoint best_scan (b : list msg_t) (cnt : Z) (fuel : nat) (i best : Z) : Z :=
  match fuel with
  | O => best
  | S fuel' =>
      if i <? cnt then
        best_scan b cnt fuel' (i + 1)
          (if replaces (at_index b i) (at_index b best) then i else best)
      else best
  end.

(** [best_index_to_pop]; its caller has checked that [q->buf] is not NULL. *)
Definition best_index_to_pop (q : queue_t) : Z :=
  if count q =? 1 then 0
  else best_scan (default [] (buf q)) (count q) (Z.to_nat (count q)) 1 0.

(** [memmove(&b[dst], &b[src], n * sizeof(msg_t))] on whole elements:
    the [n] elements from [src] are read, then written from [dst] on. *)
Definition memmove (b : list msg_t) (dst src n : nat) : list msg_t :=
  take dst b ++ take n (drop src b) ++ drop (dst + n) b.

(** [out] is the caller's [msg_t *out]: [None] is NULL, [Some o] a cell that
    holds [o]; the third component is the cell after the call. *)
Definition queue_pop (q : option queue_t) (out : option msg_t)
  : Z * option queue_t * option msg_t :=
  match q, out with
  | Some q0, Some _ =>
      match buf q0 with
      | None => (-1, q, out)
      | Some b =>
          if queue_is_empty q then (-2, q, out)
          else
            let idx := best_index_to_pop q0 in
            let o := at_index b idx in
            let b' :=
              if idx <? count q0 - 1 then
                memmove b (Z.to_nat idx) (Z.to_nat (idx + 1))
                        (Z.to_nat (count q0 - idx - 1))
              else b in
            (0, Some (Q (Some b') (capacity q0) (count q0 - 1) (next_seq q0)),
             Some o)
      end
  | _, _ => (-1, q, out)
  end.

(** *** Derived notions used by the statements *)

(** The messages the queue holds: the first [count] slots of the array. *)
Definition held (q : queue_t) : list msg_t :=
  take (Z.to_nat (count q)) (default [] (buf q)).

(** A queue as [queue_init] builds it and push/pop keep it: storage of
    [capacity] slots and a count within it. *)
Definition wf_queue (q : queue_t) : Prop :=
  (exists b, buf q = Some b /\ Z.of_nat (length b) = capacity q) /\
  0 <= count q <= capacity q /\
  capacity q <= INT_MAX /\
  0 <= next_seq q <= ULONG_MAX.

(** Sequence numbers from [s0] on, given in insertion order. *)
Fixpoint stamp (s0 : Z) (ms : list msg_t) : list msg_t :=
  match ms with
  | [] => []
  | m :: ms' => with_seq m s0 :: stamp (s0 + 1) ms'
  end.

(** Insert every message of [ms], in order: the results and the queue. *)
Fixpoint push_all (ms : list msg_t) (q : queue_t) : list Z * queue_t :=
  match ms with
  | [] => ([], q)
  | m :: ms' =>
      let '(rc, q') := queue_push (Some q) (Some m) in
      let '(rcs, q'') := push_all ms' (default q q') in
      (rc :: rcs, q'')
  end.

(** Call [queue_pop] until it fails, at most [fuel] times: the messages it
    handed out, in order, and the queue left. *)
Fixpoint drain (fuel : nat) (q : queue_t) : list msg_t * queue_t :=
  match fuel with
  | O => ([], q)
  | S fuel' =>
      match queue_pop (Some q) (Some msg_zero) with
      | (0, Some q', Some m) =>
          let '(ms, q'') := drain fuel' q' in (m :: ms, q'')
      | _ => ([], q)
      end
  end.

(** One call of the container interface. *)
Inductive op : Type := OpPush (m : msg_t) | OpPop.

(** A run of calls: the queue, and how many pushes and pops succeeded. *)
Record tally : Type := Tally { tq : queue_t; pushes : Z; pops : Z }.

Definition step (t : tally) (o : op) : tally :=
  match o with
  | OpPush m =>
      let '(rc, q') := queue_push (Some (tq t)) (Some m) in
      if rc =? 0 then Tally (default (tq t) q') (pushes t + 1) (pops t)
      else Tally (default (tq t) q') (pushes t) (pops t)
  | OpPop =>
      let '(rc, q', _) := queue_pop (Some (tq t)) (Some msg_zero) in
      if rc =? 0 then Tally (default (tq t) q') (pushes t) (pops t + 1)
      else Tally (default (tq t) q') (pushes t) (pops t)
  end.

Definition run (ops : list op) (q : queue_t) : tally :=
  fold_left step ops (Tally q 0 0).

(** One insertion followed by one removal, and a run of [k] such rounds
    followed by one more insertion. *)
Definition push_pop : list op := [OpPush msg_zero; OpPop].

Definition rounds_then_push (k : nat) : list op :=
  concat (replicate k push_pop) ++ [OpPush msg_zero].

(** [a] is taken before [b]: greater priority, or the same priority and a
    smaller sequence number. *)
Definition before (a b : msg_t) : Prop :=
  priority b < priority a \/ (priority a = priority b /\ seq a < seq b).

(** [a] is at least as good a choice as [b]. *)
Definition no_worse (a b : msg_t) : Prop :=
  priority b <= priority a /\ (priority b = priority a -> seq a <= seq b).

(** What every run of calls keeps true of a queue that started fresh. *)
Definition run_inv (C : Z) (t : tally) : Prop :=
  wf_queue (tq t) /\ capacity (tq t) = C /\
  count (tq t) = pushes t - pops t /\
  0 <= pushes t /\
  next_seq (tq t) = ulong (1 + pushes t) /\
  (pushes t < ULONG_MAX ->
   Forall (fun m => 1 <= seq m < next_seq (tq t)) (held (tq t)) /\
   NoDup (seq <$> held (tq t))).

(** *** Queues used as examples *)

Definition q_one_of_two : queue_t :=
  Q (Some [Msg 7 3 1 1; msg_zero]) 2 1 2.

Definition q_three : queue_t :=
  Q (Some [Msg 10 3 0 1; Msg 11 7 1 2; Msg 12 3 2 3; msg_zero]) 4 3 4.

Definition three_msgs : list msg_t :=
  [Msg 0 3 0 0; Msg 1 3 1 0; Msg 2 7 2 0].

Definition fresh_one : queue_t := Q (Some [msg_zero]) 1 0 1.

End Queue.

(** ** The machine the synchronisation code runs on

    sync.c and buffer.c are written against POSIX: a mutex, two counting
    semaphores, the realtime clock and an atomic flag.  Calls are run one at
    a time, so the states between two complete calls are the boundaries the
    design document speaks of; what the rest of the system does to a call
    (signals that interrupt a wait, primitives that fail, the coordinator
    raising the stop flag, the clock) is an oracle [env] indexed by the
    moment of the call. *)

Module Machine.
Import Queue.

Definition SEM_VALUE_MAX : Z := 2147483647.

Definition EPERM : Z := 1.
Definition EINTR : Z := 4.
Definition EINVAL : Z := 22.
Definition EOVERFLOW : Z := 75.
Definition ETIMEDOUT : Z := 110.

(** [struct timespec]. *)
Record timespec : Type := Timespec { tv_sec : Z; tv_nsec : Z }.

(** [sync_t] of sync.h: [mtx] is [true] while the mutex is held, [items] and
    [slots] are the values of the two semaphores. *)
Record sync_t : Type := Sync { mtx : bool; items : Z; slots : Z }.

(** [buffer_t] of buffer.h. *)
Record buffer_t : Type := Buffer { q : queue_t; s : sync_t }.

(** The address of a semaphore inside the buffer: [&s->items], [&s->slots]. *)
Inductive sem_id : Type := ITEMS | SLOTS.

(** A pointer to the one shared object of its type: NULL or its address. *)
Inductive ptr : Type := NULL | ADDR.

(** Changes to the shared state, recorded in the order they happen. *)
Inductive effect : Type :=
| Acquire (sem : sem_id)
| Release (sem : sem_id)
| Lock
| Unlock
| Push
| Pop.

(** What can cut a blocking primitive short. *)
Inductive fault : Type := Interrupted | Broken.

Record env : Type := Env {
  flag_at : nat -> Z;                  (* the stop flag, as a load sees it *)
  clock_at : nat -> option timespec;   (* CLOCK_REALTIME; None: the call fails *)
  fault_at : nat -> option fault;      (* a wait, lock or init is cut short *)
  alloc_at : nat -> bool;              (* the allocator has storage *)
  strict_at : nat -> bool              (* a timed wait looks at its deadline
                                          before it looks at the semaphore *)
}.

(** The state of a run.  [trace] and [deadlines] are ghost: the effects on
    the shared state so far, and every absolute timeout handed to
    [sem_timedwait]. *)
Record world : Type := World {
  buffer : buffer_t;
  now : nat;
  errno : Z;
  trace : list effect;
  deadlines : list timespec
}.

(** A C function: from a state to its result and the state after, or [None]
    when it does not return (blocked for good, or out of fuel). *)
Definition M (A : Type) : Type := world -> option (A * world).

Definition ret {A} (a : A) : M A := fun w => Some (a, w).

Definition bind {A B} (c : M A) (k : A -> M B) : M B :=
  fun w => match c w with
           | Some (a, w') => k a w'
           | None => None
           end.

Definition blocked {A} : M A := fun _ => None.

Definition nonzero (z : Z) : bool := negb (z =? 0).

Definition sem_value (i : sem_id) (y : sync_t) : Z :=
  match i with ITEMS => items y | SLOTS => slots y end.

Definition set_sem (i : sem_id) (v : Z) (y : sync_t) : sync_t :=
  match i with
  | ITEMS => Sync (mtx y) v (slots y)
  | SLOTS => Sync (mtx y) (items y) v
  end.

Definition set_mtx (b : bool) (y : sync_t) : sync_t :=
  Sync b (items y) (slots y).

Definition with_sync (f : sync_t -> sync_t) (w : world) : world :=
  World (Buffer (q (buffer w)) (f (s (buffer w))))
        (now w) (errno w) (trace w) (deadlines w).

Definition with_queue (q' : queue_t) (w : world) : world :=
  World (Buffer q' (s (buffer w))) (now w) (errno w) (trace w) (deadlines w).

Definition with_errno (e : Z) (w : world) : world :=
  World (buffer w) (now w) e (trace w) (deadlines w).

Definition tick (w : world) : world :=
  World (buffer w) (S (now w)) (errno w) (trace w) (deadlines w).

Definition record (e : effect) (w : world) : world :=
  World (buffer w) (now w) (errno w) (trace w ++ [e]) (deadlines w).

Definition record_deadline (t : timespec) (w : world) : world :=
  World (buffer w) (now w) (errno w) (trace w) (deadlines w ++ [t]).

Definition fault_errno (f : fault) : Z :=
  match f with Interrupted => EINTR | Broken => EINVAL end.

(** [0 <= tv_nsec < 1000000000], what POSIX asks of an absolute timeout. *)
Definition normalized (t : timespec) : Prop :=
  0 <= tv_nsec t < 1000000000.

Definition normalizedb (t : timespec) : bool :=
  (0 <=? tv_nsec t) && (tv_nsec t <? 1000000000).

(** The instant a timespec denotes, in nanoseconds. *)
Definition to_ns (t : timespec) : Z := tv_sec t * 1000000000 + tv_nsec t.

Section Posix.
Variable E : env.

(** [atomic_load(stop_flag)]. *)
Definition atomic_load : M Z :=
  fun w => Some (flag_at E (now w), tick w).

(** [errno], read after a failed call. *)
Definition get_errno : M Z := fun w => Some (errno w, w).

(** [clock_gettime(CLOCK_REALTIME, &ts)]: the result and [ts]. *)
Definition clock_gettime (ts : timespec) : M (Z * timespec) :=
  fun w => match clock_at E (now w) with
           | Some t => Some ((0, t), tick w)
           | None => Some ((-1, ts), with_errno EINVAL (tick w))
           end.

(** [sem_wait]: takes a token when there is one; with none it sleeps, and
    in a run where nothing else posts only a signal ends the sleep. *)
Definition sem_wait (i : sem_id) : M Z :=
  fun w =>
    match fault_at E (now w) with
    | Some f => Some (-1, with_errno (fault_errno f) (tick w))
    | None =>
        let v := sem_value i (s (buffer w)) in
        if 0 <? v then
          Some (0, record (Acquire i) (with_sync (set_sem i (v - 1)) (tick w)))
        else None
    end.

(** [sem_timedwait]: as [sem_wait], but with no token the sleep ends at the
    absolute time [abs] with ETIMEDOUT, or at once with EINVAL when [abs] is
    not a valid time.  POSIX leaves open whether an invalid [abs] is also
    refused when a token is there: glibc refuses it before it looks at the
    semaphore, other systems take the token.  [strict_at] says which. *)
Definition sem_timedwait (i : sem_id) (abs : timespec) : M Z :=
  fun w =>
    let w := record_deadline abs w in
    match fault_at E (now w) with
    | Some f => Some (-1, with_errno (fault_errno f) (tick w))
    | None =>
        if strict_at E (now w) && negb (normalizedb abs) then
          Some (-1, with_errno EINVAL (tick w))
        else
          let v := sem_value i (s (buffer w)) in
          if 0 <? v then
            Some (0, record (Acquire i)
                       (with_sync (set_sem i (v - 1)) (tick w)))
          else if normalizedb abs then
            Some (-1, with_errno ETIMEDOUT (tick w))
          else Some (-1, with_errno EINVAL (tick w))
    end.

(** [sem_post]: fails only when the value cannot grow. *)
Definition sem_post (i : sem_id) : M Z :=
  fun w =>
    let v := sem_value i (s (buffer w)) in
    if v <? SEM_VALUE_MAX then
      Some (0, record (Release i) (with_sync (set_sem i (v + 1)) w))
    else Some (-1, with_errno EOVERFLOW w).

(** [sem_init(sem, 0, value)]. *)
Definition sem_init (i : sem_id) (v : Z) : M Z :=
  fun w =>
    match fault_at E (now w) with
    | Some f => Some (-1, with_errno (fault_errno f) (tick w))
    | None =>
        if SEM_VALUE_MAX <? v then Some (-1, with_errno EINVAL (tick w))
        else Some (0, with_sync (set_sem i v) (tick w))
    end.

Definition sem_destroy (i : sem_id) : M Z := ret 0.

(** [pthread_mutex_init(&mtx, NULL)]; the pthread calls return the error
    number instead of setting [errno]. *)
Definition pthread_mutex_init : M Z :=
  fun w =>
    match fault_at E (now w) with
    | Some _ => Some (EINVAL, tick w)
    | None => Some (0, with_sync (set_mtx false) (tick w))
    end.

Definition pthread_mutex_destroy : M Z := ret 0.

(** [pthread_mutex_lock]: a held mutex is never released in a run where
    nothing else runs, so the call does not return then. *)
Definition pthread_mutex_lock : M Z :=
  fun w =>
    match fault_at E (now w) with
    | Some _ => Some (EINVAL, tick w)
    | None =>
        if mtx (s (buffer w)) then None
        else Some (0, record Lock (with_sync (set_mtx true) (tick w)))
    end.

Definition pthread_mutex_unlock : M Z :=
  fun w =>
    if mtx (s (buffer w)) then
      Some (0, record Unlock (with_sync (set_mtx false) w))
    else Some (EPERM, w).

End Posix.

End Machine.

(** ** sync.c *)

Module Sync.
Import Queue Machine.

Notation "x <- c ;; k" := (bind c (fun x => k))
  (at level 100, c at next level, right associativity).
Notation "c ;;; k" := (bind c (fun _ => k))
  (at level 100, right associativity).

(** [add_ms_to_timespec]: [/] and [%] of C truncate towards zero. *)
Definition add_ms_to_timespec (ts : timespec) (ms : Z) : timespec :=
  let sec := tv_sec ts + Z.quot ms 1000 in
  let nsec := tv_nsec ts + Z.rem ms 1000 * 1000000 in
  if nsec >=? 1000000000 then Timespec (sec + 1) (nsec - 1000000000)
  else Timespec sec nsec.

Section WithEnv.
Variable E : env.

(** [retry] bounds how often one wait is restarted after a signal. *)
Variable retry : nat.

Definition sync_init (y : ptr) (cap : Z) : M Z :=
  match y with
  | NULL => ret (-1)
  | ADDR =>
      if cap <=? 0 then ret (-1)
      else
        r <- pthread_mutex_init E ;;
        if nonzero r then ret (-2)
        else
          r <- sem_init E ITEMS 0 ;;
          if nonzero r then pthread_mutex_destroy ;;; ret (-3)
          else
            r <- sem_init E SLOTS cap ;;
            if nonzero r then
              sem_destroy ITEMS ;;; pthread_mutex_destroy ;;; ret (-4)
            else ret 0
  end.

Definition sync_destroy (y : ptr) : M unit :=
  match y with
  | NULL => ret tt
  | ADDR =>
      sem_destroy ITEMS ;;; sem_destroy SLOTS ;;; pthread_mutex_destroy ;;;
      ret tt
  end.

Definition sync_lock (y : ptr) : M Z :=
  match y with NULL => ret (-1) | ADDR => pthread_mutex_lock E end.

Definition sync_unlock (y : ptr) : M Z :=
  match y with NULL => ret (-1) | ADDR => pthread_mutex_unlock end.

(** [do { rc = sem_wait(sem); } while (rc == -1 && errno == EINTR);] *)
Fixpoint sem_wait_loop (fuel : nat) (i : sem_id) : M Z :=
  match fuel with
  | O => blocked
  | S fuel' =>
      rc <- sem_wait E i ;;
      e <- get_errno ;;
      if (rc =? -1) && (e =? EINTR) then sem_wait_loop fuel' i else ret rc
  end.

Definition sem_wait_retry (i : sem_id) : M Z := sem_wait_loop (S retry) i.

Definition sync_wait_items (y : ptr) : M Z :=
  match y with NULL => ret (-1) | ADDR => sem_wait_retry ITEMS end.

Definition sync_post_items (y : ptr) : M Z :=
  match y with NULL => ret (-1) | ADDR => sem_post ITEMS end.

Definition sync_wait_slots (y : ptr) : M Z :=
  match y with NULL => ret (-1) | ADDR => sem_wait_retry SLOTS end.

Definition sync_post_slots (y : ptr) : M Z :=
  match y with NULL => ret (-1) | ADDR => sem_post SLOTS end.

(** [do { rc = sem_timedwait(sem, &ts); } while (rc == -1 && errno == EINTR);] *)
Fixpoint sem_timedwait_loop (fuel : nat) (i : sem_id) (ts : timespec) : M Z :=
  match fuel with
  | O => blocked
  | S fuel' =>
      rc <- sem_timedwait E i ts ;;
      e <- get_errno ;;
      if (rc =? -1) && (e =? EINTR) then sem_timedwait_loop fuel' i ts
      else ret rc
  end.

(** [ts0] is what the uninitialised local [ts] holds. *)
Definition sem_timedwait_retry (ts0 : timespec) (i : sem_id) (timeout_ms : Z)
  : M Z :=
  c <- clock_gettime E ts0 ;;
  if nonzero (fst c) then ret (-2)
  else
    let ts := add_ms_to_timespec (snd c) timeout_ms in
    rc <- sem_timedwait_loop (S retry) i ts ;;
    if rc =? 0 then ret 0
    else
      e <- get_errno ;;
      if e =? ETIMEDOUT then ret 1 else ret (-1).

Definition ts_junk : timespec := Timespec 0 0.

Definition sync_timedwait_items (y : ptr) (timeout_ms : Z) : M Z :=
  match y with
  | NULL => ret (-1)
  | ADDR => sem_timedwait_retry ts_junk ITEMS timeout_ms
  end.

Definition sync_timedwait_slots (y : ptr) (timeout_ms : Z) : M Z :=
  match y with
  | NULL => ret (-1)
  | ADDR => sem_timedwait_retry ts_junk SLOTS timeout_ms
  end.

End WithEnv.

End Sync.

(** ** buffer.c *)

Module Buffer.
Import Queue Machine Sync.

(** [&b->q] and [&b->s] of a buffer pointer. *)
Definition field_of (b : ptr) : ptr := b.

(** A call of a queue.c function on [&b->q], under the lock. *)
Definition on_queue_push (m : option msg_t) : M Z :=
  fun w =>
    match queue_push (Some (q (buffer w))) m with
    | (rc, Some q') =>
        Some (rc, if rc =? 0 then record Push (with_queue q' w)
                  else with_queue q' w)
    | (rc, None) => Some (rc, w)
    end.

Definition on_queue_pop (out : option msg_t) : M (Z * option msg_t) :=
  fun w =>
    match queue_pop (Some (q (buffer w))) out with
    | (rc, Some q', out') =>
        Some ((rc, out'),
              if rc =? 0 then record Pop (with_queue q' w)
              else with_queue q' w)
    | (rc, None, out') => Some ((rc, out'), w)
    end.

Section WithEnv.
Variable E : env.
Variable retry : nat.

(** [queue_init(&b->q, capacity)] and [queue_destroy(&b->q)]. *)
Definition on_queue_init (cap : Z) : M Z :=
  fun w =>
    match queue_init (Some (q (buffer w))) cap (alloc_at E (now w)) with
    | (rc, Some q') => Some (rc, with_queue q' (tick w))
    | (rc, None) => Some (rc, tick w)
    end.

Definition on_queue_destroy : M unit :=
  fun w =>
    match queue_destroy (Some (q (buffer w))) with
    | Some q' => Some (tt, with_queue q' w)
    | None => Some (tt, w)
    end.

Definition buffer_init (b : ptr) (cap : Z) : M Z :=
  match b with
  | NULL => ret (-1)
  | ADDR =>
      r <- on_queue_init cap ;;
      if nonzero r then ret (-2)
      else
        r <- sync_init E (field_of b) cap ;;
        if nonzero r then on_queue_destroy ;;; ret (-3)
        else ret 0
  end.

Definition buffer_destroy (b : ptr) : M unit :=
  match b with
  | NULL => ret tt
  | ADDR => sync_destroy (field_of b) ;;; on_queue_destroy
  end.

Definition buffer_put (b : ptr) (m : option msg_t) : M Z :=
  match b, m with
  | ADDR, Some _ =>
      r <- sync_wait_slots E retry (field_of b) ;;
      if nonzero r then ret (-2)
      else
        r <- sync_lock E (field_of b) ;;
        if nonzero r then sync_post_slots (field_of b) ;;; ret (-3)
        else
          rc <- on_queue_push m ;;
          sync_unlock (field_of b) ;;;
          if nonzero rc then sync_post_slots (field_of b) ;;; ret (-4)
          else sync_post_items (field_of b) ;;; ret 0
  | _, _ => ret (-1)
  end.

(** The second component is the caller's [*out] after the call. *)
Definition buffer_get (b : ptr) (out : option msg_t) : M (Z * option msg_t) :=
  match b, out with
  | ADDR, Some _ =>
      r <- sync_wait_items E retry (field_of b) ;;
      if nonzero r then ret (-2, out)
      else
        r <- sync_lock E (field_of b) ;;
        if nonzero r then sync_post_items (field_of b) ;;; ret (-3, out)
        else
          p <- on_queue_pop out ;;
          sync_unlock (field_of b) ;;;
          if nonzero (fst p) then
            sync_post_items (field_of b) ;;; ret (-4, snd p)
          else sync_post_slots (field_of b) ;;; ret (0, snd p)
  | _, _ => ret (-1, out)
  end.

Definition buffer_count (b : ptr) : M Z :=
  match b with
  | NULL => ret (-1)
  | ADDR =>
      r <- sync_lock E (field_of b) ;;
      if nonzero r then ret (-2)
      else
        fun w =>
          let c := count (q (buffer w)) in
          (r <- sync_unlock (field_of b) ;;
           if nonzero r then ret (-3) else ret c) w
  end.

(** The [while (atomic_load(stop_flag) == 0)] loop of
    [buffer_put_interruptible]; [fuel] bounds the number of polls. *)
Fixpoint put_loop (fuel : nat) (b : ptr) (m : option msg_t) (poll_ms : Z)
  : M Z :=
  match fuel with
  | O => blocked
  | S fuel' =>
      f <- atomic_load E ;;
      if f =? 0 then
        w <- sync_timedwait_slots E retry (field_of b) poll_ms ;;
        if w =? 1 then put_loop fuel' b m poll_ms
        else if nonzero w then ret (-2)
        else
          f <- atomic_load E ;;
          if nonzero f then sync_post_slots (field_of b) ;;; ret 1
          else
            r <- sync_lock E (field_of b) ;;
            if nonzero r then sync_post_slots (field_of b) ;;; ret (-3)
            else
              f <- atomic_load E ;;
              if nonzero f then
                sync_unlock (field_of b) ;;;
                sync_post_slots (field_of b) ;;; ret 1
              else
                rc <- on_queue_push m ;;
                sync_unlock (field_of b) ;;;
                if nonzero rc then sync_post_slots (field_of b) ;;; ret (-4)
                else sync_post_items (field_of b) ;;; ret 0
      else ret 1
  end.

Definition buffer_put_interruptible (fuel : nat) (b : ptr) (m : option msg_t)
    (stop_flag : ptr) (poll_ms : Z) : M Z :=
  match b, m, stop_flag with
  | ADDR, Some _, ADDR => put_loop fuel b m poll_ms
  | _, _, _ => ret (-1)
  end.

(** The loop of [buffer_get_interruptible]. *)
Fixpoint get_loop (fuel : nat) (b : ptr) (out : option msg_t) (poll_ms : Z)
  : M (Z * option msg_t) :=
  match fuel with
  | O => blocked
  | S fuel' =>
      f <- atomic_load E ;;
      if f =? 0 then
        w <- sync_timedwait_items E retry (field_of b) poll_ms ;;
        if w =? 1 then get_loop fuel' b out poll_ms
        else if nonzero w then ret (-2, out)
        else
          f <- atomic_load E ;;
          if nonzero f then sync_post_items (field_of b) ;;; ret (1, out)
          else
            r <- sync_lock E (field_of b) ;;
            if nonzero r then sync_post_items (field_of b) ;;; ret (-3, out)
            else
              f <- atomic_load E ;;
              if nonzero f then
                sync_unlock (field_of b) ;;;
                sync_post_items (field_of b) ;;; ret (1, out)
              else
                p <- on_queue_pop out ;;
                sync_unlock (field_of b) ;;;
                if nonzero (fst p) then
                  sync_post_items (field_of b) ;;; ret (-4, snd p)
                else sync_post_slots (field_of b) ;;; ret (0, snd p)
      else ret (1, out)
  end.

Definition buffer_get_interruptible (fuel : nat) (b : ptr)
    (out : option msg_t) (stop_flag : ptr) (poll_ms : Z)
  : M (Z * option msg_t) :=
  match b, out, stop_flag with
  | ADDR, Some _, ADDR => get_loop fuel b out poll_ms
  | _, _, _ => ret (-1, out)
  end.

End WithEnv.

(** *** What a call can have done when it returns *)

(** A call that left the shared state alone. *)
Definition untouched (w w' : world) : Prop :=
  buffer w' = buffer w /\ trace w' = trace w.

(** A call that took one token of semaphore [i] and did nothing else. *)
Definition took (i : sem_id) (w w' : world) : Prop :=
  0 < sem_value i (s (buffer w)) /\
  buffer w' =
    Buffer (q (buffer w))
           (set_sem i (sem_value i (s (buffer w)) - 1) (s (buffer w))) /\
  trace w' = trace w ++ [Acquire i].

(** The effects of an interruptible call that ends "stopped": none, a token
    taken and given back, or the same around taking and releasing the lock. *)
Inductive stop_trace (i : sem_id) : list effect -> Prop :=
| stop_at_entry : stop_trace i []
| stop_after_token : stop_trace i [Acquire i; Release i]
| stop_after_lock : stop_trace i [Acquire i; Lock; Unlock; Release i].

(** The ways a put can return: stopped, wait failed, lock failed, insert
    failed, done. *)
Definition put_outcome (m : option msg_t) (w : world) (rc : Z) (w' : world)
  : Prop :=
  (rc = 1 /\ buffer w' = buffer w /\
   exists t, stop_trace SLOTS t /\ trace w' = trace w ++ t) \/
  (rc = -2 /\ untouched w w') \/
  (rc = -3 /\ buffer w' = buffer w /\
   trace w' = trace w ++ [Acquire SLOTS; Release SLOTS]) \/
  (rc = -4 /\ buffer w' = buffer w /\
   0 < slots (s (buffer w)) /\
   fst (queue_push (Some (q (buffer w))) m) <> 0 /\
   trace w' = trace w ++ [Acquire SLOTS; Lock; Unlock; Release SLOTS]) \/
  (rc = 0 /\ 0 < slots (s (buffer w)) /\
   exists q',
     queue_push (Some (q (buffer w))) m = (0, Some q') /\
     buffer w' = Buffer q' (Sync false (items (s (buffer w)) + 1)
                                 (slots (s (buffer w)) - 1)) /\
     trace w' =
       trace w ++ [Acquire SLOTS; Lock; Push; Unlock; Release ITEMS]).

(** The ways a get can return; [out'] is the caller's cell afterwards. *)
Definition get_outcome (out : option msg_t) (w : world)
    (r : Z * option msg_t) (w' : world) : Prop :=
  (fst r = 1 /\ snd r = out /\ buffer w' = buffer w /\
   exists t, stop_trace ITEMS t /\ trace w' = trace w ++ t) \/
  (fst r = -2 /\ snd r = out /\ untouched w w') \/
  (fst r = -3 /\ snd r = out /\ buffer w' = buffer w /\
   trace w' = trace w ++ [Acquire ITEMS; Release ITEMS]) \/
  (fst r = -4 /\ snd r = out /\ buffer w' = buffer w /\
   0 < items (s (buffer w)) /\
   fst (fst (queue_pop (Some (q (buffer w))) out)) <> 0 /\
   trace w' = trace w ++ [Acquire ITEMS; Lock; Unlock; Release ITEMS]) \/
  (fst r = 0 /\ 0 < items (s (buffer w)) /\
   exists q',
     queue_pop (Some (q (buffer w))) out = (0, Some q', snd r) /\
     buffer w' = Buffer q' (Sync false (items (s (buffer w)) - 1)
                                 (slots (s (buffer w)) + 1)) /\
     trace w' =
       trace w ++ [Acquire ITEMS; Lock; Pop; Unlock; Release SLOTS]).

(** *** The invariants of the design document *)

(** The two semaphores hold values a semaphore can hold, with room for the
    tokens that move between them. *)
Definition sems_valid (w : world) : Prop :=
  0 <= items (s (buffer w)) /\ 0 <= slots (s (buffer w)) /\
  items (s (buffer w)) + slots (s (buffer w)) <= SEM_VALUE_MAX.

(** The coupling of counters and container at rest. *)
Definition coupled (w : world) : Prop :=
  slots (s (buffer w)) + items (s (buffer w)) = capacity (q (buffer w)) /\
  items (s (buffer w)) = Z.of_nat (length (held (q (buffer w)))).

(** The state of an initialised buffer between two calls. *)
Definition buffer_inv (w : world) : Prop :=
  wf_queue (q (buffer w)) /\ coupled w /\ mtx (s (buffer w)) = false.

(** What the theorems show of every return of a put and of a get: the
    buffer is at rest, the result is not -4, and success has the effects of
    the discipline in its order. *)
Definition put_keeps (w : world) (rc : Z) (w' : world) : Prop :=
  buffer_inv w' /\ rc <> -4 /\
  (rc = 0 ->
   trace w' = trace w ++ [Acquire SLOTS; Lock; Push; Unlock; Release ITEMS]).

Definition get_keeps (w : world) (r : Z * option msg_t) (w' : world) : Prop :=
  buffer_inv w' /\ fst r <> -4 /\
  (fst r = 0 ->
   trace w' = trace w ++ [Acquire ITEMS; Lock; Pop; Unlock; Release SLOTS]).



(** *** Runs used as examples *)

Definition clock_reading : timespec := Timespec 1700000000 950000000.

(** Nothing fails, nobody asks to stop. *)
Definition E_quiet : env :=
  Env (fun _ => 0) (fun _ => Some clock_reading) (fun _ => None)
      (fun _ => true) (fun _ => true).

(** The coordinator raises the stop flag at moment [k]. *)
Definition E_stop_from (k : nat) : env :=
  Env (fun t => if (t <? k)%nat then 0 else 1) (fun _ => Some clock_reading)
      (fun _ => None) (fun _ => true) (fun _ => true).

(** The allocator has nothing to give. *)
Definition E_no_memory : env :=
  Env (fun _ => 0) (fun _ => Some clock_reading) (fun _ => None)
      (fun _ => false) (fun _ => true).

(** Memory before [buffer_init], and a buffer of capacity 2 at rest. *)
Definition w_blank : world :=
  World (Buffer (Q None 0 0 0) (Sync false 0 0)) 0 0 [] [].

Definition w_ready : world :=
  World (Buffer (Q (Some [msg_zero; msg_zero]) 2 0 1) (Sync false 0 2))
        0 0 [] [].

(** A buffer whose counters have come apart from its queue: the queue is
    full and a slot token is still on offer. *)
Definition w_diverged : world :=
  World (Buffer (Q (Some [Msg 1 1 1 1]) 1 1 2) (Sync false 1 1)) 0 0 [] [].

End Buffer.

(** ** Calls in progress

    The program runs [buffer_put] and [buffer_get] from several threads at
    once.  A call in progress is a place in the text of buffer.c; a step of
    a thread is one call of a primitive of sync.h or queue.h, run on the
    shared state; between two steps of one thread any other thread may take
    steps.  [errno] is read in the step that set it, so that one [errno]
    for all threads does no harm. *)

Module Threads.
Import Queue Machine Sync Buffer.

(** A thread calls put or get. *)
Inductive role : Type := Producer | Consumer.

(** The way out of a call that holds a token: give the token back and
    return [rc], or hand a token to the other side and return 0. *)
Inductive exit : Type := GiveBack (rc : Z) | HandOver.

(** Where a call stands; the next primitive it calls.
    - [AtWait]: [sync_wait_slots] / [sync_wait_items] of [buffer_put] /
      [buffer_get];
    - [AtPoll]: the test [atomic_load(stop_flag) == 0] of the loop of the
      interruptible forms;
    - [AtTimedWait]: [sync_timedwait_slots] / [sync_timedwait_items];
    - [AtCheck]: [atomic_load] once the token is taken;
    - [AtLock]: [sync_lock], of an interruptible form when [polling];
    - [AtCheckLocked]: [atomic_load] once the lock is taken;
    - [AtWork]: [queue_push] / [queue_pop];
    - [AtUnlock]: [sync_unlock], with the way out that follows it;
    - [AtLeave]: the [sync_post_...] of the way out;
    - [AtDone]: [return rc]. *)
Inductive pc : Type :=
| AtWait
| AtPoll
| AtTimedWait
| AtCheck
| AtLock (polling : bool)
| AtCheckLocked
| AtWork
| AtUnlock (e : exit)
| AtLeave (e : exit)
| AtDone (rc : Z).

(** A thread: what it calls, the message it puts or the cell it gets into,
    its [poll_ms], and where it stands. *)
Record thread : Type := Thread {
  role_of : role;
  cell : msg_t;
  poll_of : Z;
  pc_of : pc
}.

Definition goto (t : thread) (p : pc) : thread :=
  Thread (role_of t) (cell t) (poll_of t) p.


Section WithEnv.
Variable E : env.
Variable retry : nat.

(** The primitives of a call, by role: a producer waits for a slot and
    hands over an item, a consumer the other way round. *)
Definition wait_own (r : role) : M Z :=
  match r with
  | Producer => sync_wait_slots E retry ADDR
  | Consumer => sync_wait_items E retry ADDR
  end.

Definition timedwait_own (r : role) (timeout_ms : Z) : M Z :=
  match r with
  | Producer => sync_timedwait_slots E retry ADDR timeout_ms
  | Consumer => sync_timedwait_items E retry ADDR timeout_ms
  end.

Definition post_own (r : role) : M Z :=
  match r with
  | Producer => sync_post_slots ADDR
  | Consumer => sync_post_items ADDR
  end.

Definition post_other (r : role) : M Z :=
  match r with
  | Producer => sync_post_items ADDR
  | Consumer => sync_post_slots ADDR
  end.

(** [queue_push(&b->q, m)] or [queue_pop(&b->q, out)]: the result and the
    thread's cell afterwards. *)
Definition work (r : role) (c : msg_t) : M (Z * msg_t) :=
  match r with
  | Producer => rc <- on_queue_push (Some c) ;; ret (rc, c)
  | Consumer =>
      p <- on_queue_pop (Some c) ;;
      ret (fst p, match snd p with Some o => o | None => c end)
  end.

(** One step of a thread.  It is [None] when the primitive does not return
    on this state (no token, mutex held) and for a call that has
    returned. *)
Definition thread_step (t : thread) : M thread :=
  match pc_of t with
  | AtWait =>
      r <- wait_own (role_of t) ;;
      ret (goto t (if nonzero r then AtDone (-2) else AtLock false))
  | AtPoll =>
      f <- atomic_load E ;;
      ret (goto t (if f =? 0 then AtTimedWait else AtDone 1))
  | AtTimedWait =>
      r <- timedwait_own (role_of t) (poll_of t) ;;
      ret (goto t (if r =? 1 then AtPoll
                   else if nonzero r then AtDone (-2) else AtCheck))
  | AtCheck =>
      f <- atomic_load E ;;
      ret (goto t (if nonzero f then AtLeave (GiveBack 1) else AtLock true))
  | AtLock polling =>
      r <- sync_lock E ADDR ;;
      ret (goto t (if nonzero r then AtLeave (GiveBack (-3))
                   else if polling then AtCheckLocked else AtWork))
  | AtCheckLocked =>
      f <- atomic_load E ;;
      ret (goto t (if nonzero f then AtUnlock (GiveBack 1) else AtWork))
  | AtWork =>
      p <- work (role_of t) (cell t) ;;
      ret (Thread (role_of t) (snd p) (poll_of t)
             (AtUnlock (if nonzero (fst p) then GiveBack (-4) else HandOver)))
  | AtUnlock e =>
      sync_unlock ADDR ;;; ret (goto t (AtLeave e))
  | AtLeave (GiveBack rc) =>
      post_own (role_of t) ;;; ret (goto t (AtDone rc))
  | AtLeave HandOver =>
      post_other (role_of t) ;;; ret (goto t (AtDone 0))
  | AtDone _ => blocked
  end.

(** A call begins at [AtWait] (blocking) or at [AtPoll] (interruptible). *)
Definition begins (t : thread) : Prop :=
  pc_of t = AtWait \/ pc_of t = AtPoll.

Definition returned (t : thread) : Prop :=
  exists rc, pc_of t = AtDone rc.

(** The shared state and the threads.  A step of the program is a step of
    one thread, or a thread whose call has returned beginning its next
    call. *)
Definition config : Type := world * list thread.

Inductive step : config -> config -> Prop :=
| step_thread (w w' : world) (ts : list thread) (n : nat) (t t' : thread) :
    ts !! n = Some t ->
    thread_step t w = Some (t', w') ->
    step (w, ts) (w', <[n := t']> ts)
| step_call (w : world) (ts : list thread) (n : nat) (t t' : thread) :
    ts !! n = Some t ->
    returned t -> begins t' ->
    step (w, ts) (w, <[n := t']> ts).



End WithEnv.

(** *** Accounting for the tokens in flight *)








(** *** Runs used as examples *)





End Threads.

(** ** util.c *)

Module Util.
Import Machine.

Definition UINT_MAX : Z := 4294967295.
Definition UINT64_MAX : Z := 18446744073709551615.

(** Arithmetic on [unsigned int] (32 bits) and on [uint64_t] wraps. *)
Definition uint (z : Z) : Z := z mod (UINT_MAX + 1).
Definition uint64 (z : Z) : Z := z mod (UINT64_MAX + 1).

(** [now_ms_monotonic], as a function of what
    [clock_gettime(CLOCK_MONOTONIC, &ts)] stores in [ts]; the result of that
    call is not looked at. *)
Definition now_ms_monotonic (ts : timespec) : Z :=
  uint64 (uint64 (uint64 (tv_sec ts) * 1000)
          + uint64 (tv_nsec ts) / 1000000).

(** [xrng]: the result and the new [*seed]. *)
Definition xrng (seed : Z) : Z * Z :=
  let x := seed in
  let x := if x =? 0 then 2463534242 else x in
  let x := Z.lxor x (uint (Z.shiftl x 13)) in
  let x := Z.lxor x (Z.shiftr x 17) in
  let x := Z.lxor x (uint (Z.shiftl x 5)) in
  (x, x).

(** [rand_in_range]: the result and the new [*seed].  [hi - lo + 1] is
    computed in [int]; where it does not fit the behaviour is undefined and
    the model gives no result. *)
Definition rand_in_range (seed : Z) (lo hi : Z) : option (Z * Z) :=
  let '(lo, hi) := if hi <? lo then (hi, lo) else (lo, hi) in
  let span := hi - lo + 1 in
  if INT_MAX <? span then None
  else
    let '(r, seed') := xrng seed in
    Some (lo + r mod uint span, seed').

(** *** Sleeping *)

(** What a sleeping thread meets: the stop flag as a load sees it, and
    whether a [nanosleep] is cut short, with the [errno] it sets and the
    time it reports as remaining. *)
Record sleep_env : Type := SleepEnv {
  stop_at : nat -> Z;
  cut_at : nat -> option (Z * timespec)
}.

(** The thread's own state: the moment, [errno], and the record of the
    lengths it asked [sleep_ms] for. *)
Record sleeper : Type := Sleeper {
  clk : nat;
  err : Z;
  slept : list Z
}.

Definition pass (c : sleeper) : sleeper :=
  Sleeper (S (clk c)) (err c) (slept c).

Section Sleeping.
Variable E : sleep_env.

(** [retry] bounds how often one sleep is restarted after a signal. *)
Variable retry : nat.

(** [nanosleep(&ts, &ts)]: the result and [ts] afterwards. *)
Definition nanosleep (ts : timespec) (c : sleeper)
  : (Z * timespec) * sleeper :=
  match cut_at E (clk c) with
  | None => ((0, ts), pass c)
  | Some (e, rem) => ((-1, rem), Sleeper (S (clk c)) e (slept c))
  end.

(** [while (nanosleep(&ts, &ts) == -1 && errno == EINTR) {}] *)
Fixpoint nanosleep_loop (fuel : nat) (ts : timespec) (c : sleeper)
  : option sleeper :=
  match fuel with
  | O => None
  | S fuel' =>
      let '((rc, ts'), c') := nanosleep ts c in
      if (rc =? -1) && (err c' =? EINTR) then nanosleep_loop fuel' ts' c'
      else Some c'
  end.

Definition sleep_ms (ms : Z) (c : sleeper) : option sleeper :=
  if ms <=? 0 then Some c
  else
    let ts := Timespec (Z.quot ms 1000) (Z.rem ms 1000 * 1000000) in
    nanosleep_loop (S retry) ts (Sleeper (clk c) (err c) (slept c ++ [ms])).

(** [while (remaining > 0 && atomic_load(stop_flag) == 0)]: every round
    takes at least one millisecond off [remaining], so [remaining] rounds
    are enough. *)
Fixpoint sleep_loop (fuel : nat) (remaining poll_ms : Z) (c : sleeper)
  : option sleeper :=
  if 0 <? remaining then
    match fuel with
    | O => None
    | S fuel' =>
        if stop_at E (clk c) =? 0 then
          let chunk := if remaining <? poll_ms then remaining else poll_ms in
          match sleep_ms chunk (pass c) with
          | Some c' => sleep_loop fuel' (remaining - chunk) poll_ms c'
          | None => None
          end
        else Some (pass c)
    end
  else Some c.

Definition sleep_interruptible_ms (stop_flag : ptr) (total_ms poll_ms : Z)
    (c : sleeper) : option sleeper :=
  if total_ms <=? 0 then Some c
  else
    match stop_flag with
    | NULL => sleep_ms total_ms c
    | ADDR =>
        if poll_ms <=? 0 then sleep_ms total_ms c
        else sleep_loop (Z.to_nat total_ms) total_ms poll_ms c
    end.

End Sleeping.

(** Sum of the lengths slept. *)
Definition total (l : list Z) : Z := foldr Z.add 0 l.

(** A thread that is never disturbed and never told to stop, and one that
    is told to stop from moment [k] on. *)
Definition S_quiet : sleep_env := SleepEnv (fun _ => 0) (fun _ => None).

Definition S_stop_from (k : nat) : sleep_env :=
  SleepEnv (fun t => if (t <? k)%nat then 0 else 1) (fun _ => None).

Definition c_start : sleeper := Sleeper 0 0 [].

End Util.

(** ** cli.c *)

Module Cli.
Import Ascii.

Definition INT_MIN : Z := -2147483648.

(** config.h *)
Definition MAX_PRODUCERS : Z := 10.
Definition MAX_CONSUMERS : Z := 3.
Definition MAX_QUEUE_CAPACITY : Z := 20.
Definition DEFAULT_VERBOSE : Z := 0.

(** [run_params_t] of cli.h. *)
Record run_params_t : Type := Params {
  producers : Z;
  consumers : Z;
  q_capacity : Z;
  timeout_sec : Z;
  verbose : bool
}.

(** One return of [getopt(argc, argv, "p:c:q:t:v")] other than -1: the
    option character and [optarg].  An unknown option and a missing
    argument come back as '?'. *)
Record getopt_t : Type := Getopt {
  opt : ascii;
  optarg : option String.string
}.

Definition set_producers (v : Z) (p : run_params_t) : run_params_t :=
  Params v (consumers p) (q_capacity p) (timeout_sec p) (verbose p).
Definition set_consumers (v : Z) (p : run_params_t) : run_params_t :=
  Params (producers p) v (q_capacity p) (timeout_sec p) (verbose p).
Definition set_q_capacity (v : Z) (p : run_params_t) : run_params_t :=
  Params (producers p) (consumers p) v (timeout_sec p) (verbose p).
Definition set_timeout_sec (v : Z) (p : run_params_t) : run_params_t :=
  Params (producers p) (consumers p) (q_capacity p) v (verbose p).
Definition set_verbose (v : bool) (p : run_params_t) : run_params_t :=
  Params (producers p) (consumers p) (q_capacity p) (timeout_sec p) v.

Section WithLibc.

(** [strtol(s, &end, 10)]: the value and what [end] points at. *)
Variable strtol : String.string -> Z * String.string.

(** [parse_int]: the result and [*out] afterwards. *)
Definition parse_int (s : option String.string) (out : Z) : Z * Z :=
  match s with
  | None => (-1, out)
  | Some String.EmptyString => (-1, out)
  | Some str =>
      let '(v, rest) := strtol str in
      match rest with
      | String.String _ _ => (-1, out)
      | String.EmptyString =>
          if (v <? INT_MIN) || (INT_MAX <? v) then (-1, out) else (0, v)
      end
  end.

(** The [while ((opt = getopt(...)) != -1)] loop over the returns of
    [getopt]; the result is 0 when the loop runs to its end. *)
Fixpoint getopt_loop (gs : list getopt_t) (out : run_params_t)
  : Z * run_params_t :=
  match gs with
  | [] => (0, out)
  | g :: gs' =>
      if Ascii.eqb (opt g) "p" then
        let '(rc, v) := parse_int (optarg g) (producers out) in
        if negb (rc =? 0) then (-2, out)
        else getopt_loop gs' (set_producers v out)
      else if Ascii.eqb (opt g) "c" then
        let '(rc, v) := parse_int (optarg g) (consumers out) in
        if negb (rc =? 0) then (-2, out)
        else getopt_loop gs' (set_consumers v out)
      else if Ascii.eqb (opt g) "q" then
        let '(rc, v) := parse_int (optarg g) (q_capacity out) in
        if negb (rc =? 0) then (-2, out)
        else getopt_loop gs' (set_q_capacity v out)
      else if Ascii.eqb (opt g) "t" then
        let '(rc, v) := parse_int (optarg g) (timeout_sec out) in
        if negb (rc =? 0) then (-2, out)
        else getopt_loop gs' (set_timeout_sec v out)
      else if Ascii.eqb (opt g) "v" then
        getopt_loop gs' (set_verbose true out)
      else (-3, out)
  end.

(** [parse_args]: the result and [*out] afterwards; [gs] is what [getopt]
    makes of [argc] and [argv]. *)
Definition parse_args (gs : list getopt_t) (out : option run_params_t)
  : Z * option run_params_t :=
  match out with
  | None => (-1, None)
  | Some _ =>
      let out := Params 0 0 0 0 (negb (DEFAULT_VERBOSE =? 0)) in
      let '(rc, out) := getopt_loop gs out in
      if negb (rc =? 0) then (rc, Some out)
      else if (producers out =? 0) || (consumers out =? 0)
              || (q_capacity out =? 0) || (timeout_sec out =? 0)
      then (-4, Some out)
      else if (producers out <? 1) || (MAX_PRODUCERS <? producers out)
      then (-5, Some out)
      else if (consumers out <? 1) || (MAX_CONSUMERS <? consumers out)
      then (-6, Some out)
      else if (q_capacity out <? 1) || (MAX_QUEUE_CAPACITY <? q_capacity out)
      then (-7, Some out)
      else if timeout_sec out <? 1 then (-8, Some out)
      else (0, Some out)
  end.

End WithLibc.

(** The field of option [c] after the loop has gone over [gs], starting
    from [acc]: every occurrence of the option writes what [parse_int]
    reads, so the last one stays.  [last_value] starts from the 0 that
    [memset] leaves. *)
Definition value_after (strtol : String.string -> Z * String.string)
    (c : ascii) (acc : Z) (gs : list getopt_t) : Z :=
  foldl (fun acc g =>
           if Ascii.eqb (opt g) c then snd (parse_int strtol (optarg g) acc)
           else acc) acc gs.

Definition last_value (strtol : String.string -> Z * String.string)
    (c : ascii) (gs : list getopt_t) : Z :=
  value_after strtol c 0 gs.

(** [-v] occurs. *)
Definition asks_verbose (gs : list getopt_t) : bool :=
  existsb (fun g => Ascii.eqb (opt g) "v") gs.

(** The options that take an argument. *)
Definition takes_argument (g : getopt_t) : bool :=
  Ascii.eqb (opt g) "p" || Ascii.eqb (opt g) "c"
  || Ascii.eqb (opt g) "q" || Ascii.eqb (opt g) "t".

(** An option the loop accepts. *)
Definition accepted (strtol : String.string -> Z * String.string)
    (g : getopt_t) : bool :=
  if Ascii.eqb (opt g) "v" then true
  else if takes_argument g
  then fst (parse_int strtol (optarg g) 0) =? 0
  else false.

(** A [strtol] for the examples: it reads decimal digits and stops at the
    first other character. *)
Definition digit_of (a : ascii) : option Z :=
  let n := Z.of_nat (nat_of_ascii a) in
  if (48 <=? n) && (n <=? 57) then Some (n - 48) else None.

Fixpoint digits (acc : Z) (s : String.string) : Z * String.string :=
  match s with
  | String.EmptyString => (acc, s)
  | String.String a s' =>
      match digit_of a with
      | Some d => digits (10 * acc + d) s'
      | None => (acc, s)
      end
  end.

Definition strtol_digits (s : String.string) : Z * String.string :=
  digits 0 s.

Definition str (l : list ascii) : String.string :=
  foldr String.String String.EmptyString l.

(** [-p 5 -c 3 -q 10 -t 20 -v], the example of the usage message. *)
Definition usage_example : list getopt_t :=
  [Getopt "p" (Some (str ["5"%char]));
   Getopt "c" (Some (str ["3"%char]));
   Getopt "q" (Some (str ["1"%char; "0"%char]));
   Getopt "t" (Some (str ["2"%char; "0"%char]));
   Getopt "v" None].

End Cli.

(** ** workers.c and main.c: what a worker is given and what it does with it *)

Module Workers.
Import Queue Machine Util.

(** config.h *)
Definition RAND_VALUE_MIN : Z := 0.
Definition RAND_VALUE_MAX : Z := 9.
Definition PRODUCER_WAIT_MIN_SEC : Z := 0.
Definition PRODUCER_WAIT_MAX_SEC : Z := 2.
Definition CONSUMER_WAIT_MIN_SEC : Z := 0.
Definition CONSUMER_WAIT_MAX_SEC : Z := 4.

(** The message [producer_thread] builds at the top of its loop, and the
    new [a->seed].  [m.seq] is not assigned: [junk] is what the local
    variable happens to hold. *)
Definition new_message (seed fixed_priority id junk : Z)
  : option (msg_t * Z) :=
  match rand_in_range seed RAND_VALUE_MIN RAND_VALUE_MAX with
  | Some (v, seed') => Some (Msg v fixed_priority id junk, seed')
  | None => None
  end.

Section Waiting.
Variable E : sleep_env.
Variable retry : nat.

(** The wait at the bottom of the loop of both threads:
    [wait_s = rand_in_range(&a->seed, min, max)] and then
    [sleep_interruptible_ms(a->stop_flag, wait_s * 1000, a->poll_ms)].  The
    result is the sleeping thread afterwards and the new [a->seed]. *)
Definition random_wait (seed min_sec max_sec : Z) (stop_flag : ptr)
    (poll_ms : Z) (c : sleeper) : option (sleeper * Z) :=
  match rand_in_range seed min_sec max_sec with
  | Some (wait_s, seed') =>
      match sleep_interruptible_ms E retry stop_flag (wait_s * 1000)
              poll_ms c with
      | Some c' => Some (c', seed')
      | None => None
      end
  | None => None
  end.

End Waiting.

End Workers.

Module Main.
Import Util.

(** What [main] writes into [pargs[i]] and [cargs[i]] before it starts
    thread [i]; [pid] is the result of [getpid]. *)
Definition fixed_priority (i : Z) : Z := Z.rem i 10.



Definition poll_ms : Z := 200.

End Main.

(** * Properties *)

Lemma ulong_small z : 0 <= z <= ULONG_MAX -> ulong z = z.
Proof. intros H. unfold ulong. apply Z.mod_small. lia. Qed.

Lemma ulong_range z : 0 <= ulong z <= ULONG_MAX.
Proof.
  unfold ulong. pose proof (Z.mod_pos_bound z (ULONG_MAX + 1)).
  unfold ULONG_MAX in *. lia.
Qed.

Lemma ulong_wraps : ulong (ULONG_MAX + 1) = 0.
Proof. reflexivity. Qed.

(** ** The container *)

Section QueueFacts.
Import Queue.

Implicit Types (q : queue_t) (m o : msg_t) (b : list msg_t).

Lemma no_worse_refl m : no_worse m m.
Proof. unfold no_worse. lia. Qed.

Lemma no_worse_trans m1 m2 m3 :
  no_worse m1 m2 -> no_worse m2 m3 -> no_worse m1 m3.
Proof. unfold no_worse. lia. Qed.

Lemma replaces_true bi bb : replaces bi bb = true -> no_worse bi bb.
Proof.
  unfold replaces, no_worse. rewrite Z.gtb_ltb.
  destruct (priority bb <? priority bi) eqn:Hp.
  - apply Z.ltb_lt in Hp. lia.
  - destruct (priority bi =? priority bb) eqn:He; simpl; [|discriminate].
    destruct (seq bi <? seq bb) eqn:Hs; [|discriminate].
    apply Z.eqb_eq in He. apply Z.ltb_lt in Hs. lia.
Qed.

Lemma replaces_false bi bb : replaces bi bb = false -> no_worse bb bi.
Proof.
  unfold replaces, no_worse. rewrite Z.gtb_ltb.
  destruct (priority bb <? priority bi) eqn:Hp; [discriminate|].
  apply Z.ltb_ge in Hp.
  destruct (priority bi =? priority bb) eqn:He; simpl.
  - destruct (seq bi <? seq bb) eqn:Hs; [discriminate|].
    apply Z.eqb_eq in He. apply Z.ltb_ge in Hs. lia.
  - apply Z.eqb_neq in He. lia.
Qed.

(** The scan keeps, at every index it has passed, a candidate no other
    passed slot is preferred to; it stops at [cnt]. *)
Lemma best_scan_spec b cnt : forall fuel i best,
  0 <= best < i -> i <= cnt -> cnt - i <= Z.of_nat fuel ->
  (forall j, 0 <= j < i -> no_worse (at_index b best) (at_index b j)) ->
  let r := best_scan b cnt fuel i best in
  0 <= r < cnt /\
  forall j, 0 <= j < cnt -> no_worse (at_index b r) (at_index b j).
Proof.
  induction fuel as [|fuel IH]; intros i best Hb Hi Hf Hinv; simpl.
  - split; [lia|]. intros j Hj. apply Hinv. lia.
  - destruct (i <? cnt) eqn:Hlt.
    + apply Z.ltb_lt in Hlt.
      destruct (replaces (at_index b i) (at_index b best)) eqn:Hr.
      * apply IH; try lia. intros j Hj.
        destruct (Z.eq_dec j i) as [->|Hne]; [apply no_worse_refl|].
        eapply no_worse_trans; [apply replaces_true, Hr|apply Hinv; lia].
      * apply IH; try lia. intros j Hj.
        destruct (Z.eq_dec j i) as [->|Hne];
          [apply replaces_false, Hr|apply Hinv; lia].
    + apply Z.ltb_ge in Hlt. split; [lia|].
      intros j Hj. apply Hinv. lia.
Qed.

Lemma best_index_to_pop_spec q :
  1 <= count q ->
  let r := best_index_to_pop q in
  0 <= r < count q /\
  forall j, 0 <= j < count q ->
    no_worse (at_index (default [] (buf q)) r) (at_index (default [] (buf q)) j).
Proof.
  intros Hc. unfold best_index_to_pop.
  destruct (count q =? 1) eqn:H1.
  - apply Z.eqb_eq in H1. split; [lia|]. intros j Hj.
    replace j with 0 by lia. apply no_worse_refl.
  - apply Z.eqb_neq in H1. apply best_scan_spec; try lia.
    intros j Hj. replace j with 0 by lia. apply no_worse_refl.
Qed.

(** Moving the tail of the held messages one slot down deletes slot [i]. *)
Lemma held_after_memmove b (i c : nat) :
  (i + 1 < c)%nat -> (c <= length b)%nat ->
  take (c - 1) (memmove b i (S i) (c - i - 1)) = delete i (take c b).
Proof.
  intros Hi Hc. rewrite delete_take_drop.
  rewrite take_take, Nat.min_l by lia.
  unfold memmove. rewrite app_assoc.
  rewrite take_app_le.
  2:{ rewrite length_app, !length_take, length_drop. lia. }
  rewrite take_ge.
  2:{ rewrite length_app, !length_take, length_drop. lia. }
  f_equal. rewrite take_drop_commute. f_equal. f_equal. lia.
Qed.

Lemma held_drop_last b (c : nat) :
  (1 <= c)%nat -> (c <= length b)%nat ->
  take (c - 1) b = delete (c - 1)%nat (take c b).
Proof.
  intros H1 Hc. rewrite delete_take_drop.
  rewrite take_take, Nat.min_l by lia.
  replace (S (c - 1)) with c by lia.
  rewrite drop_ge by (rewrite length_take; lia).
  by rewrite app_nil_r.
Qed.

Lemma length_memmove b (dst src n : nat) :
  (dst + n <= length b)%nat -> (src + n <= length b)%nat ->
  length (memmove b dst src n) = length b.
Proof.
  intros Hd Hs. unfold memmove.
  rewrite !length_app, !length_take, !length_drop. lia.
Qed.

Lemma at_index_held q (j : Z) :
  0 <= j < count q ->
  Z.of_nat (length (default [] (buf q))) >= count q ->
  held q !! Z.to_nat j = Some (at_index (default [] (buf q)) j).
Proof.
  intros Hj Hl. unfold held, at_index.
  rewrite lookup_take_lt by lia.
  apply list_lookup_lookup_total_lt. lia.
Qed.

Lemma length_held q :
  wf_queue q -> Z.of_nat (length (held q)) = count q.
Proof.
  intros [(b & Hb & Hl) (Hc & _)]. unfold held. rewrite Hb. simpl.
  rewrite length_take. lia.
Qed.

Lemma wf_queue_buf q :
  wf_queue q -> exists b, buf q = Some b /\ Z.of_nat (length b) = capacity q.
Proof. by intros [H _]. Qed.

(** What a successful [queue_pop] does to a well-formed, non-empty queue. *)
Lemma queue_pop_ok q o :
  wf_queue q -> count q <> 0 ->
  exists q' m,
    queue_pop (Some q) (Some o) = (0, Some q', Some m) /\
    held q !! Z.to_nat (best_index_to_pop q) = Some m /\
    (Z.to_nat (best_index_to_pop q) < length (held q))%nat /\
    held q' = delete (Z.to_nat (best_index_to_pop q)) (held q) /\
    Forall (no_worse m) (held q) /\
    wf_queue q' /\
    count q' = count q - 1 /\ capacity q' = capacity q /\
    next_seq q' = next_seq q.
Proof.
  intros Hwf Hne. pose proof (length_held q Hwf) as Hlen.
  destruct Hwf as ((b & Hb & Hl) & Hc & Hcap & Hseq).
  destruct (best_index_to_pop_spec q ltac:(lia)) as [Hr Hbest].
  set (idx := best_index_to_pop q) in *.
  unfold queue_pop. rewrite Hb. simpl.
  destruct (count q =? 0) eqn:H0; [apply Z.eqb_eq in H0; lia|].
  fold idx. rewrite Hb in Hbest. simpl in Hbest.
  eexists _, _. split; [reflexivity|].
  assert (held q !! Z.to_nat idx = Some (at_index b idx)) as Hm.
  { rewrite (at_index_held q idx Hr); rewrite Hb; simpl; [done|lia]. }
  split; [exact Hm|]. split; [lia|].
  split; [|split; [|split]].
  - unfold held. simpl. rewrite Hb. simpl.
    destruct (idx <? count q - 1) eqn:Hlt.
    + apply Z.ltb_lt in Hlt.
      replace (Z.to_nat (count q - 1)) with (Z.to_nat (count q) - 1)%nat by lia.
      replace (Z.to_nat (idx + 1)) with (S (Z.to_nat idx)) by lia.
      replace (Z.to_nat (count q - idx - 1))
        with (Z.to_nat (count q) - Z.to_nat idx - 1)%nat by lia.
      apply held_after_memmove; lia.
    + apply Z.ltb_ge in Hlt.
      replace (Z.to_nat idx) with (Z.to_nat (count q) - 1)%nat by lia.
      replace (Z.to_nat (count q - 1)) with (Z.to_nat (count q) - 1)%nat by lia.
      apply held_drop_last; lia.
  - apply Forall_lookup. intros j x Hx.
    assert (j < Z.to_nat (count q))%nat as Hj.
    { apply lookup_lt_Some in Hx. lia. }
    rewrite <- (Nat2Z.id j) in Hx.
    rewrite (at_index_held q (Z.of_nat j)) in Hx by (rewrite ?Hb; simpl; lia).
    rewrite Hb in Hx. simpl in Hx. injection Hx as <-.
    apply Hbest. lia.
  - unfold wf_queue. simpl. split; [|lia].
    eexists. split; [reflexivity|].
    destruct (idx <? count q - 1) eqn:Hlt; [|done].
    apply Z.ltb_lt in Hlt. rewrite length_memmove; lia.
  - done.
Qed.

Lemma queue_is_full_iff q : queue_is_full (Some q) = true <-> count q >= capacity q.
Proof. simpl. rewrite Z.geb_leb, Z.leb_le. lia. Qed.

Lemma queue_is_empty_iff q : queue_is_empty (Some q) = true <-> count q = 0.
Proof. simpl. apply Z.eqb_eq. Qed.

(** What a successful [queue_push] does to a well-formed queue with room. *)
Lemma queue_push_ok q m :
  wf_queue q -> count q < capacity q ->
  exists b q',
    buf q = Some b /\
    queue_push (Some q) (Some m) = (0, Some q') /\
    q' = Q (Some (<[Z.to_nat (count q) := with_seq m (next_seq q)]> b))
           (capacity q) (count q + 1) (ulong (next_seq q + 1)) /\
    held q' = held q ++ [with_seq m (next_seq q)] /\
    wf_queue q'.
Proof.
  intros ((b & Hb & Hl) & Hc & Hcap & Hseq) Hroom.
  exists b. eexists. split; [done|].
  unfold queue_push. rewrite Hb. simpl.
  destruct (count q >=? capacity q) eqn:Hf.
  { rewrite Z.geb_leb in Hf. apply Z.leb_le in Hf. lia. }
  split; [reflexivity|]. split; [reflexivity|]. split.
  - unfold held. simpl. rewrite Hb. simpl.
    replace (Z.to_nat (count q + 1)) with (S (Z.to_nat (count q))) by lia.
    erewrite take_S_r.
    2:{ apply list_lookup_insert_eq. lia. }
    by rewrite take_insert_ge.
  - unfold wf_queue. simpl. split; [|pose proof (ulong_range (next_seq q + 1)); lia].
    eexists. split; [reflexivity|]. rewrite length_insert. lia.
Qed.

Lemma seq_stamp s0 (ms : list msg_t) :
  seq <$> stamp s0 ms = seqZ s0 (Z.of_nat (length ms)).
Proof.
  revert s0. induction ms as [|m ms IH]; intros s0; simpl.
  - by rewrite seqZ_nil.
  - rewrite seqZ_cons by lia. rewrite IH. do 2 f_equal; lia.
Qed.

Lemma length_stamp s0 (ms : list msg_t) : length (stamp s0 ms) = length ms.
Proof. revert s0. induction ms; intros; simpl; auto. Qed.

(** Inserting [ms] where there is room for all of them appends them, stamped
    from [next_seq] on, and every insertion returns 0. *)
Lemma push_all_ok (ms : list msg_t) : forall q,
  wf_queue q ->
  count q + Z.of_nat (length ms) <= capacity q ->
  next_seq q + Z.of_nat (length ms) <= ULONG_MAX ->
  exists rcs q',
    push_all ms q = (rcs, q') /\
    Forall (fun rc => rc = 0) rcs /\
    held q' = held q ++ stamp (next_seq q) ms /\
    wf_queue q' /\
    count q' = count q + Z.of_nat (length ms) /\
    capacity q' = capacity q /\
    next_seq q' = next_seq q + Z.of_nat (length ms).
Proof.
  induction ms as [|m ms IH]; intros q Hwf Hroom Hseq.
  - exists [], q. simpl. rewrite app_nil_r. split_and!; auto; lia.
  - simpl length in *.
    destruct (queue_push_ok q m Hwf ltac:(lia))
      as (b & q1 & Hb & Hpush & Hq1 & Hheld & Hwf1).
    assert (count q1 = count q + 1 /\ capacity q1 = capacity q /\
            next_seq q1 = next_seq q + 1) as (Hc1 & Hcap1 & Hn1).
    { subst q1. simpl. split_and!; try done.
      apply ulong_small. destruct Hwf as (_ & _ & _ & ?). lia. }
    destruct (IH q1 Hwf1 ltac:(lia) ltac:(lia))
      as (rcs & q2 & Hall & Hrcs & Hheld2 & Hwf2 & Hc2 & Hcap2 & Hn2).
    exists (0 :: rcs), q2. cbn [push_all]. rewrite Hpush. cbn [default from_option id].
    rewrite Hall.
    split; [done|]. split; [by constructor|].
    split; [|split_and!; auto; lia].
    rewrite Hheld2, Hheld, Hn1, <- app_assoc. done.
Qed.

Lemma no_worse_before m x : no_worse m x -> seq m <> seq x -> before m x.
Proof. unfold no_worse, before. lia. Qed.

(** Popping until the queue is empty hands the held messages out in the
    order [before], provided their sequence numbers are distinct. *)
Lemma drain_ok : forall (fuel : nat) q,
  wf_queue q -> count q = Z.of_nat fuel -> NoDup (seq <$> held q) ->
  exists outs q',
    drain fuel q = (outs, q') /\
    outs ≡ₚ held q /\
    StronglySorted before outs /\
    count q' = 0 /\ wf_queue q'.
Proof.
  induction fuel as [|fuel IH]; intros q Hwf Hc Hnd.
  - exists [], q. simpl. pose proof (length_held q Hwf) as Hl.
    destruct (held q); [|simpl in Hl; lia].
    split_and!; auto. constructor.
  - destruct (queue_pop_ok q msg_zero Hwf ltac:(lia))
      as (q1 & m & Hpop & Hm & Hi & Hheld & Hbest & Hwf1 & Hc1 & _).
    pose proof (delete_Permutation _ _ _ Hm) as Hperm.
    rewrite <- Hheld in Hperm.
    assert (NoDup (seq m :: (seq <$> held q1))) as Hnd1.
    { change (NoDup (seq <$> m :: held q1)). by rewrite <- Hperm. }
    apply NoDup_cons in Hnd1 as [Hfresh Hnd1].
    destruct (IH q1 Hwf1 ltac:(lia) Hnd1)
      as (outs & q2 & Hdrain & Hp & Hs & Hc2 & Hwf2).
    exists (m :: outs), q2. cbn [drain]. rewrite Hpop, Hdrain.
    split; [done|]. split; [by rewrite Hperm, Hp|].
    split; [|done]. constructor; [done|].
    apply Forall_forall. intros x Hx. rewrite Hp in Hx.
    apply no_worse_before.
    + rewrite Forall_forall in Hbest. apply Hbest.
      rewrite Hperm. by right.
    + intros Heq. apply Hfresh. rewrite Heq. by apply list_elem_of_fmap_2.
Qed.

Lemma queue_init_ok q0 (cap : Z) :
  0 < cap <= INT_MAX ->
  exists q1,
    queue_init (Some q0) cap true = (0, Some q1) /\
    q1 = Q (Some (replicate (Z.to_nat cap) msg_zero)) cap 0 1 /\
    held q1 = [] /\ wf_queue q1.
Proof.
  intros Hcap. eexists. unfold queue_init.
  destruct (cap <=? 0) eqn:H0; [apply Z.leb_le in H0; lia|].
  simpl. split; [reflexivity|]. split; [reflexivity|]. split; [done|].
  unfold wf_queue, ULONG_MAX. simpl. split; [|lia].
  eexists. split; [reflexivity|]. rewrite length_replicate. lia.
Qed.

Lemma queue_push_full q m :
  buf q <> None -> count q >= capacity q ->
  queue_push (Some q) (Some m) = (-2, Some q).
Proof.
  intros Hb Hf. unfold queue_push. destruct (buf q); [|done].
  apply queue_is_full_iff in Hf. by rewrite Hf.
Qed.

Lemma queue_pop_empty q o :
  buf q <> None -> count q = 0 ->
  queue_pop (Some q) (Some o) = (-2, Some q, Some o).
Proof.
  intros Hb H0. unfold queue_pop. destruct (buf q); [|done].
  apply queue_is_empty_iff in H0. by rewrite H0.
Qed.

Lemma wf_queue_has_buf q : wf_queue q -> buf q <> None.
Proof. intros ((b & -> & _) & _). done. Qed.

Lemma ulong_succ z : ulong (ulong z + 1) = ulong (z + 1).
Proof. unfold ulong. apply Zplus_mod_idemp_l. Qed.

Lemma step_run_inv C t (o : op) : run_inv C t -> run_inv C (step t o).
Proof.
  intros (Hwf & Hcap & Hcnt & Hp & Hn & Hs).
  pose proof Hwf as (_ & Hc & HC & Hseq).
  destruct o as [m|]; cbn [step].
  - destruct (Z.eq_dec (count (tq t)) (capacity (tq t))) as [Hfull|Hroom].
    + rewrite queue_push_full by (auto using wf_queue_has_buf; lia).
      simpl. done.
    + destruct (queue_push_ok (tq t) m Hwf ltac:(lia))
        as (b & q' & Hb & Hpush & Hq' & Hheld & Hwf').
      rewrite Hpush. unfold run_inv.
      cbn [Z.eqb default from_option id tq pushes pops].
      assert (count q' = count (tq t) + 1 /\ capacity q' = capacity (tq t) /\
              next_seq q' = ulong (next_seq (tq t) + 1)) as (Hc1 & Hcap1 & Hn1)
        by (by subst q').
      split_and!; try done; try lia.
      * rewrite Hn1, Hn, ulong_succ. f_equal. lia.
      * intros Hlt. destruct (Hs ltac:(lia)) as [Hall Hnd].
        rewrite ulong_small in Hn by lia.
        rewrite Hn1, Hn, ulong_small by lia. rewrite Hn in Hall.
        rewrite Hheld. split.
        -- apply Forall_app. split.
           ++ eapply Forall_impl; [exact Hall|]. simpl. intros x. lia.
           ++ constructor; [simpl; lia|constructor].
        -- rewrite fmap_app. apply NoDup_app. split; [done|].
           split; [|apply NoDup_singleton].
           intros x Hx Hin. apply list_elem_of_singleton in Hin. simpl in Hin.
           apply list_elem_of_fmap in Hx as (y & -> & Hy).
           rewrite Forall_forall in Hall. specialize (Hall y Hy). lia.
  - destruct (Z.eq_dec (count (tq t)) 0) as [Hempty|Hsome].
    + rewrite queue_pop_empty by auto using wf_queue_has_buf.
      simpl. done.
    + destruct (queue_pop_ok (tq t) msg_zero Hwf Hsome)
        as (q' & m & Hpop & Hm & _ & Hheld & _ & Hwf' & Hc1 & Hcap1 & Hn1).
      rewrite Hpop. unfold run_inv.
      cbn [Z.eqb default from_option id tq pushes pops].
      split_and!; try done; try lia; try congruence.
      intros Hlt. destruct (Hs Hlt) as [Hall Hnd].
      pose proof (delete_Permutation _ _ _ Hm) as Hperm.
      rewrite <- Hheld in Hperm. rewrite Hn1.
      rewrite Hperm in Hall. rewrite Hperm in Hnd.
      apply Forall_cons in Hall as [_ Hall].
      rewrite fmap_cons in Hnd. apply NoDup_cons in Hnd as [_ Hnd].
      done.
Qed.

Lemma fold_step_run_inv C (ops : list op) : forall t,
  run_inv C t -> run_inv C (fold_left step ops t).
Proof.
  induction ops as [|o ops IH]; intros t Ht; simpl; [done|].
  apply IH. by apply step_run_inv.
Qed.

(** On a queue of capacity 1, [k] rounds of insert-then-remove leave the
    queue empty and move [next_seq] up by [k], as long as it does not pass
    [ULONG_MAX]. *)
Lemma push_pop_rounds : forall (k : nat) x n p c,
  0 <= n -> n + Z.of_nat k <= ULONG_MAX ->
  exists x',
    fold_left step (concat (replicate k push_pop))
              (Tally (Q (Some [x]) 1 0 n) p c)
    = Tally (Q (Some [x']) 1 0 (n + Z.of_nat k))
            (p + Z.of_nat k) (c + Z.of_nat k).
Proof.
  induction k as [|k IH]; intros x n p c Hn Hk.
  - exists x. simpl. by rewrite !Z.add_0_r.
  - cbn [replicate concat]. rewrite fold_left_app.
    assert (fold_left step push_pop (Tally (Q (Some [x]) 1 0 n) p c)
            = Tally (Q (Some [with_seq msg_zero n]) 1 0 (n + 1))
                    (p + 1) (c + 1)) as ->.
    { cbn -[ulong Z.add]. rewrite ulong_small by lia. done. }
    destruct (IH (with_seq msg_zero n) (n + 1) (p + 1) (c + 1)
                ltac:(lia) ltac:(lia)) as (x' & ->).
    exists x'. f_equal; [f_equal|..]; lia.
Qed.

(** The [int] arithmetic of push and pop stays inside [int]: on a
    well-formed queue every value they compute lies in [-1, INT_MAX]. *)
Lemma int_results_fit q :
  wf_queue q ->
  (count q < capacity q -> 0 <= count q + 1 <= INT_MAX) /\
  (count q <> 0 ->
   let idx := best_index_to_pop q in
   0 <= idx + 1 <= INT_MAX /\ 0 <= count q - idx - 1 <= INT_MAX /\
   0 <= count q - 1 <= INT_MAX).
Proof.
  intros (_ & Hc & Hcap & _). split; [lia|]. intros Hne idx.
  destruct (best_index_to_pop_spec q ltac:(lia)) as [Hr _].
  fold idx in Hr. lia.
Qed.

End QueueFacts.

Section QueueClaims.
Import Queue.

Implicit Types (q : queue_t) (m o : msg_t).

(** With storage in place, [queue_push] answers -2 exactly when the count
    has reached the capacity, whatever else the fields hold. *)
Lemma queue_push_full_iff_ge q m :
  buf q <> None ->
  fst (queue_push (Some q) (Some m)) = -2 <-> count q >= capacity q.
Proof.
  intros Hb. unfold queue_push. destruct (buf q) as [b|]; [|done].
  rewrite <- queue_is_full_iff.
  destruct (queue_is_full (Some q)); simpl; split; intros; done.
Qed.

(** C4.  On a queue with storage whose count lies within its capacity,
    [queue_push] of a message fails with -2 exactly when the count equals
    the capacity, and then leaves every field, the next sequence number
    included, as it was; otherwise it returns 0, the held messages are the
    former ones followed by a copy of the message whose [seq] is the former
    [next_seq], and [next_seq] (an [unsigned long]) and [count] have each
    been incremented by one. *)
Theorem queue_push_full_or_append q m :
  wf_queue q ->
  (fst (queue_push (Some q) (Some m)) = -2 <-> count q = capacity q) /\
  (count q = capacity q -> queue_push (Some q) (Some m) = (-2, Some q)) /\
  (count q <> capacity q ->
   exists q',
     queue_push (Some q) (Some m) = (0, Some q') /\
     held q' =
       held q ++ [Msg (value m) (priority m) (producer_id m) (next_seq q)] /\
     next_seq q' = ulong (next_seq q + 1) /\
     (next_seq q < ULONG_MAX -> next_seq q' = next_seq q + 1) /\
     count q' = count q + 1 /\
     capacity q' = capacity q).
Proof.
  intros Hwf. pose proof Hwf as ((b & Hb & Hl) & Hc & Hcap & Hseq).
  split; [|split].
  - rewrite queue_push_full_iff_ge by (rewrite Hb; done). lia.
  - intros Heq. unfold queue_push. rewrite Hb.
    destruct (queue_is_full (Some q)) eqn:Hf; [done|].
    assert (queue_is_full (Some q) = true) as Ht
      by (apply queue_is_full_iff; lia).
    congruence.
  - intros Hne.
    destruct (queue_push_ok q m Hwf ltac:(lia))
      as (b' & q' & _ & Hpush & Hq' & Hheld & _).
    exists q'. split; [done|]. split; [done|]. subst q'. simpl.
    split; [done|]. split; [|done].
    intros Hlt. apply ulong_small. lia.
Qed.

Lemma q_one_of_two_wf : wf_queue q_one_of_two.
Proof.
  unfold wf_queue, q_one_of_two, INT_MAX, ULONG_MAX. simpl.
  split; [|lia]. eexists. split; [reflexivity|]. reflexivity.
Qed.

Lemma queue_push_full_or_append_witness :
  wf_queue q_one_of_two /\
  exists q',
    queue_push (Some q_one_of_two) (Some (Msg 4 9 2 0)) = (0, Some q') /\
    held q' = [Msg 7 3 1 1; Msg 4 9 2 2] /\ next_seq q' = 3 /\ count q' = 2.
Proof.
  split; [exact q_one_of_two_wf|].
  destruct (queue_push_full_or_append q_one_of_two (Msg 4 9 2 0)
              q_one_of_two_wf) as (_ & _ & H).
  destruct (H ltac:(simpl; lia)) as (q' & Hp & Hh & Hn & _ & Hc & _).
  exists q'. repeat split; assumption.
Defined.

(** C5.  On a queue with storage, [queue_pop] into a cell fails with -2
    exactly when the count is 0, and then changes nothing; on a queue whose
    count lies within its capacity and is not 0 it returns 0, hands out one
    held message, and the held messages afterwards are the former ones with
    that one slot deleted: the slots before it stay, every later one has
    moved down by one. *)
Theorem queue_pop_empty_or_remove q o :
  buf q <> None ->
  (fst (fst (queue_pop (Some q) (Some o))) = -2 <-> count q = 0) /\
  (count q = 0 -> queue_pop (Some q) (Some o) = (-2, Some q, Some o)) /\
  (wf_queue q -> count q <> 0 ->
   exists q' m (i : nat),
     queue_pop (Some q) (Some o) = (0, Some q', Some m) /\
     held q !! i = Some m /\
     held q' = delete i (held q) /\
     S (length (held q')) = length (held q) /\
     (forall j : nat, (j < i)%nat -> held q' !! j = held q !! j) /\
     (forall j : nat, (i <= j)%nat -> held q' !! j = held q !! S j)).
Proof.
  intros Hb. destruct (buf q) as [b|] eqn:Eb; [clear Hb|done].
  split; [|split].
  - unfold queue_pop. rewrite Eb. rewrite <- queue_is_empty_iff.
    destruct (queue_is_empty (Some q)); simpl; split; intros; done.
  - intros H0. unfold queue_pop. rewrite Eb.
    apply queue_is_empty_iff in H0. by rewrite H0.
  - intros Hwf Hne.
    destruct (queue_pop_ok q o Hwf Hne)
      as (q' & m & Hpop & Hm & Hi & Hheld & _).
    exists q', m, (Z.to_nat (best_index_to_pop q)).
    split; [done|]. split; [done|]. split; [done|]. rewrite Hheld.
    split; [|split].
    + rewrite length_delete by (rewrite Hm; done). lia.
    + intros j Hj. by apply list_lookup_delete_lt.
    + intros j Hj. by apply list_lookup_delete_ge.
Qed.

Lemma q_three_wf : wf_queue q_three.
Proof.
  unfold wf_queue, q_three, INT_MAX, ULONG_MAX. simpl.
  split; [|lia]. eexists. split; reflexivity.
Qed.

Lemma queue_pop_empty_or_remove_witness :
  buf q_three <> None /\ wf_queue q_three /\ count q_three <> 0 /\
  exists q' m (i : nat),
    queue_pop (Some q_three) (Some msg_zero) = (0, Some q', Some m) /\
    held q_three !! i = Some m /\
    held q' = delete i (held q_three) /\
    S (length (held q')) = length (held q_three).
Proof.
  assert (buf q_three <> None) as H by (simpl; discriminate).
  assert (count q_three <> 0) as H0 by (simpl; lia).
  split; [exact H|]. split; [exact q_three_wf|]. split; [exact H0|].
  destruct (queue_pop_empty_or_remove q_three msg_zero H) as (_ & _ & Hs).
  destruct (Hs q_three_wf H0) as (q' & m & i & Hp & Hm & Hh & Hl & _).
  exists q', m, i. repeat split; assumption.
Defined.

(** C10.  [queue_is_empty] of a NULL pointer is true and [queue_is_full] of
    a NULL pointer is false; both answer on every input; on a queue,
    [queue_is_full] holds exactly when count >= capacity and
    [queue_is_empty] exactly when count = 0. *)
Theorem queue_predicates_total :
  queue_is_empty None = true /\
  queue_is_full None = false /\
  (forall p : option queue_t,
     exists e f : bool, queue_is_empty p = e /\ queue_is_full p = f) /\
  (forall q,
     (queue_is_full (Some q) = true <-> count q >= capacity q) /\
     (queue_is_empty (Some q) = true <-> count q = 0)).
Proof.
  split; [done|]. split; [done|]. split.
  - intros p. by eexists _, _.
  - intros q. split; [apply queue_is_full_iff|apply queue_is_empty_iff].
Qed.

(** C1.  On every queue that holds at least one message, [queue_pop]
    removes and hands out a held message whose priority no held message
    exceeds and whose sequence number is the smallest among the held
    messages of that priority.  Hence, from a fresh queue of capacity [C],
    after inserting any [ms] of at most [C] messages (every insertion
    succeeds and stamps the sequence numbers 1, 2, ... in insertion order),
    popping until the queue is empty hands out exactly those messages, each
    one before every later one in the order "greater priority, or equal
    priority and inserted earlier". *)
Theorem queue_pop_priority_then_fifo :
  (forall q o, wf_queue q -> count q <> 0 ->
     exists q' m (i : nat),
       queue_pop (Some q) (Some o) = (0, Some q', Some m) /\
       held q !! i = Some m /\
       held q' = delete i (held q) /\
       Forall (fun x => priority x <= priority m /\
                        (priority x = priority m -> seq m <= seq x))
              (held q)) /\
  (forall q0 (C : Z) (ms : list msg_t),
     0 < C <= INT_MAX -> Z.of_nat (length ms) <= C ->
     exists q1 rcs q2 outs q3,
       queue_init (Some q0) C true = (0, Some q1) /\
       push_all ms q1 = (rcs, q2) /\
       Forall (fun rc => rc = 0) rcs /\
       drain (length ms) q2 = (outs, q3) /\
       fst (fst (queue_pop (Some q3) (Some msg_zero))) = -2 /\
       outs ≡ₚ stamp 1 ms /\
       StronglySorted
         (fun a b => priority b < priority a \/
                     (priority a = priority b /\ seq a < seq b))
         outs).
Proof.
  split.
  - intros q o Hwf Hne.
    destruct (queue_pop_ok q o Hwf Hne)
      as (q' & m & Hpop & Hm & _ & Hheld & Hbest & _).
    exists q', m, (Z.to_nat (best_index_to_pop q)).
    split_and!; try done.
  - intros q0 C ms HC Hlen.
    destruct (queue_init_ok q0 C HC) as (q1 & Hinit & Hq1 & Hheld1 & Hwf1).
    assert (count q1 = 0 /\ capacity q1 = C /\ next_seq q1 = 1)
      as (Hc1 & Hcap1 & Hn1) by (by subst q1).
    destruct (push_all_ok ms q1 Hwf1) as
      (rcs & q2 & Hall & Hrcs & Hheld2 & Hwf2 & Hc2 & Hcap2 & Hn2).
    { lia. }
    { unfold ULONG_MAX, INT_MAX in *. lia. }
    rewrite Hheld1, Hn1 in Hheld2. simpl in Hheld2.
    destruct (drain_ok (length ms) q2 Hwf2) as
      (outs & q3 & Hdrain & Hperm & Hsorted & Hc3 & Hwf3).
    { lia. }
    { rewrite Hheld2, seq_stamp. apply NoDup_seqZ. }
    exists q1, rcs, q2, outs, q3. split_and!; try done.
    + destruct (wf_queue_buf q3 Hwf3) as (b & Hb & _).
      unfold queue_pop. rewrite Hb. simpl. by rewrite Hc3.
    + by rewrite Hperm, Hheld2.
Qed.

Lemma queue_pop_priority_then_fifo_witness :
  0 < 3 <= INT_MAX /\ Z.of_nat (length three_msgs) <= 3 /\
  exists q1 rcs q2 outs q3,
    queue_init (Some (Q None 0 0 0)) 3 true = (0, Some q1) /\
    push_all three_msgs q1 = (rcs, q2) /\
    Forall (fun rc => rc = 0) rcs /\
    drain (length three_msgs) q2 = (outs, q3) /\
    fst (fst (queue_pop (Some q3) (Some msg_zero))) = -2 /\
    outs ≡ₚ stamp 1 three_msgs /\
    StronglySorted
      (fun a b => priority b < priority a \/
                  (priority a = priority b /\ seq a < seq b))
      outs.
Proof.
  assert (0 < 3 <= INT_MAX) as HC by (unfold INT_MAX; lia).
  assert (Z.of_nat (length three_msgs) <= 3) as Hl by (simpl; lia).
  split; [exact HC|]. split; [exact Hl|].
  exact (proj2 queue_pop_priority_then_fifo (Q None 0 0 0) 3 three_msgs HC Hl).
Defined.

(** The scenario of the design document: priority 3, priority 3, priority 7
    inserted in this order come out as 7, then the first 3, then the other. *)
Example drain_scenario :
  fst (drain 3 (snd (push_all [Msg 0 3 0 0; Msg 1 3 1 0; Msg 2 7 2 0]
                              (Q (Some (replicate 3 msg_zero)) 3 0 1))))
  = [Msg 2 7 2 3; Msg 0 3 0 1; Msg 1 3 1 2].
Proof. vm_compute. reflexivity. Qed.

(** Capacity 1: a second insertion is turned away until a removal. *)
Example capacity_one_scenario :
  let q0 := Q (Some [msg_zero]) 1 0 1 in
  let '(r1, q1) := queue_push (Some q0) (Some (Msg 0 5 0 0)) in
  let '(r2, q2) := queue_push q1 (Some (Msg 0 9 0 0)) in
  let '(r3, q3, _) := queue_pop q2 (Some msg_zero) in
  let '(r4, _) := queue_push q3 (Some (Msg 0 9 0 0)) in
  (r1, r2, r3, r4) = (0, -2, 0, 0).
Proof. vm_compute. reflexivity. Qed.

(** C6, as the code has it.  Take a fresh queue of capacity [C] and run any
    sequence of [queue_push] and [queue_pop] calls on it.  The count is then
    the number of pushes that succeeded minus the number of pops that
    succeeded, and lies in [0, C].  As long as fewer than [ULONG_MAX] pushes
    have succeeded (so that [next_seq], an [unsigned long], has not wrapped),
    every held sequence number is strictly less than [next_seq] and the held
    sequence numbers are pairwise distinct. *)
Theorem run_count_and_seq_invariant q0 (C : Z) (ops : list op) :
  0 < C <= INT_MAX ->
  exists q1,
    queue_init (Some q0) C true = (0, Some q1) /\
    let t := run ops q1 in
    count (tq t) = pushes t - pops t /\
    0 <= count (tq t) <= C /\
    (pushes t < ULONG_MAX ->
     Forall (fun m => seq m < next_seq (tq t)) (held (tq t)) /\
     NoDup (seq <$> held (tq t))).
Proof.
  intros HC.
  destruct (queue_init_ok q0 C HC) as (q1 & Hinit & Hq1 & Hheld1 & Hwf1).
  exists q1. split; [done|].
  assert (run_inv C (Tally q1 0 0)) as Hinv.
  { unfold run_inv. cbn [tq pushes pops]. rewrite Hheld1. subst q1. simpl.
    split_and!; try done. intros _. split; constructor. }
  apply (fold_step_run_inv C ops) in Hinv.
  destruct Hinv as (Hwf & Hcap & Hcnt & _ & _ & Hs).
  fold (run ops q1) in *. cbv zeta.
  destruct Hwf as (_ & Hc & _). split; [done|]. split; [lia|].
  intros Hlt. destruct (Hs Hlt) as [Hall Hnd]. split; [|done].
  eapply Forall_impl; [exact Hall|]. simpl. intros x. lia.
Qed.

Lemma run_count_and_seq_invariant_witness :
  0 < 2 <= INT_MAX /\
  exists q1,
    queue_init (Some (Q None 0 0 0)) 2 true = (0, Some q1) /\
    let t := run [OpPush (Msg 1 5 0 0); OpPush (Msg 2 9 1 0); OpPop;
                  OpPush (Msg 3 5 2 0); OpPush (Msg 4 1 0 0)] q1 in
    count (tq t) = pushes t - pops t /\
    0 <= count (tq t) <= 2 /\
    (pushes t < ULONG_MAX ->
     Forall (fun m => seq m < next_seq (tq t)) (held (tq t)) /\
     NoDup (seq <$> held (tq t))).
Proof.
  assert (0 < 2 <= INT_MAX) as HC by (unfold INT_MAX; lia).
  split; [exact HC|].
  exact (run_count_and_seq_invariant (Q None 0 0 0) 2 _ HC).
Defined.

(** C6 as stated fails once [next_seq] has wrapped.  On a fresh queue of
    capacity 1, after [ULONG_MAX - 1] rounds of insert-then-remove the next
    insertion stamps [ULONG_MAX] and [next_seq] wraps to 0: the one held
    message has a sequence number that is not below [next_seq]. *)
Lemma seq_below_next_seq_fails_after_wrap :
  queue_init (Some (Q None 0 0 0)) 1 true = (0, Some fresh_one) /\
  let t := run (rounds_then_push (Z.to_nat (ULONG_MAX - 1))) fresh_one in
  ~ (count (tq t) = pushes t - pops t /\
     0 <= count (tq t) <= 1 /\
     Forall (fun m => seq m < next_seq (tq t)) (held (tq t)) /\
     NoDup (seq <$> held (tq t))).
Proof.
  split; [reflexivity|].
  assert (exists k : nat, k = Z.to_nat (ULONG_MAX - 1)) as [k Hk] by eauto.
  rewrite <- Hk.
  assert (Z.of_nat k = ULONG_MAX - 1) as HkZ.
  { rewrite Hk. apply Z2Nat.id. unfold ULONG_MAX. lia. }
  clear Hk. unfold run, rounds_then_push, fresh_one.
  rewrite fold_left_app.
  destruct (push_pop_rounds k msg_zero 1 0 0 ltac:(lia) ltac:(lia))
    as (x' & ->).
  rewrite HkZ. replace (1 + (ULONG_MAX - 1)) with ULONG_MAX by lia.
  cbn -[ulong Z.add ULONG_MAX].
  intros (_ & _ & Hall & _).
  apply Forall_cons in Hall as [Hlt _]. simpl in Hlt.
  rewrite ulong_wraps in Hlt. unfold ULONG_MAX in Hlt. lia.
Qed.

End QueueClaims.

(** ** The synchronisation layer *)

Section SyncFacts.
Import Queue Machine Sync Buffer.

Variable E : env.
Variable retry : nat.

Implicit Types (w : world) (i : sem_id) (rc : Z).

Lemma bind_inv {A B} (c : M A) (k : A -> M B) w r :
  bind c k w = Some r -> exists a w1, c w = Some (a, w1) /\ k a w1 = Some r.
Proof.
  unfold bind. destruct (c w) as [[a w1]|]; [|done]. intros H. by exists a, w1.
Qed.

Lemma ret_inv {A} (a b : A) w w' : ret a w = Some (b, w') -> b = a /\ w' = w.
Proof. unfold ret. intros H. by simplify_eq. Qed.

Lemma untouched_refl w : untouched w w.
Proof. by split. Qed.

Lemma untouched_trans w1 w2 w3 :
  untouched w1 w2 -> untouched w2 w3 -> untouched w1 w3.
Proof. intros [? ?] [? ?]. split; congruence. Qed.

Lemma took_after_untouched i w1 w2 w3 :
  untouched w1 w2 -> took i w2 w3 -> took i w1 w3.
Proof.
  intros [Hb Ht] (Hv & Hb' & Ht'). rewrite Hb in *. rewrite Ht in *. done.
Qed.

Lemma atomic_load_inv w v w' :
  atomic_load E w = Some (v, w') -> v = flag_at E (now w) /\ w' = tick w.
Proof. unfold atomic_load. intros H. by simplify_eq. Qed.

Lemma sem_wait_inv i w rc w' :
  sem_wait E i w = Some (rc, w') ->
  (rc = 0 /\ took i w w') \/
  (rc = -1 /\ untouched w w').
Proof.
  unfold sem_wait. destruct (fault_at E (now w)) as [f|].
  - intros H. simplify_eq. right. by split.
  - destruct (0 <? sem_value i (s (buffer w))) eqn:Hv; [|done].
    apply Z.ltb_lt in Hv. intros H. simplify_eq. left. by split.
Qed.

Lemma sem_wait_loop_inv i : forall fuel w rc w',
  sem_wait_loop E fuel i w = Some (rc, w') ->
  (rc = 0 /\ took i w w') \/ (rc = -1 /\ untouched w w').
Proof.
  induction fuel as [|fuel IH]; intros w rc w' H; [done|].
  cbn [sem_wait_loop] in H.
  apply bind_inv in H as (rc1 & w1 & H1 & H).
  apply bind_inv in H as (e & w2 & H2 & H).
  unfold get_errno in H2. simplify_eq.
  apply sem_wait_inv in H1 as [[-> Ht]|[-> Hu]].
  - simpl in H. apply ret_inv in H as [-> ->]. by left.
  - destruct ((-1 =? -1) && (errno w2 =? EINTR)).
    + apply IH in H as [[-> Ht]|[-> Hu']].
      * left. split; [done|]. by eapply took_after_untouched.
      * right. split; [done|]. by eapply untouched_trans.
    + apply ret_inv in H as [-> ->]. by right.
Qed.


Lemma mutex_lock_inv w rc w' :
  pthread_mutex_lock E w = Some (rc, w') ->
  (rc = 0 /\ mtx (s (buffer w)) = false /\
   w' = record Lock (with_sync (set_mtx true) (tick w))) \/
  (rc <> 0 /\ w' = tick w).
Proof.
  unfold pthread_mutex_lock. destruct (fault_at E (now w)).
  - intros H. simplify_eq. by right.
  - destruct (mtx (s (buffer w))) eqn:Hm; [done|].
    intros H. simplify_eq. by left.
Qed.


(** *** The deadline *)

Lemma add_ms_exact (ts : timespec) (ms : Z) :
  to_ns (add_ms_to_timespec ts ms) = to_ns ts + ms * 1000000.
Proof.
  unfold add_ms_to_timespec, to_ns.
  pose proof (Z.quot_rem' ms 1000) as Hqr.
  destruct (_ >=? _); simpl; lia.
Qed.

Lemma add_ms_normalized (ts : timespec) (ms : Z) :
  normalized ts -> 0 <= ms -> normalized (add_ms_to_timespec ts ms).
Proof.
  unfold add_ms_to_timespec, normalized. intros Hn Hms.
  pose proof (Z.rem_bound_pos ms 1000 Hms ltac:(lia)) as Hr.
  destruct (_ >=? _) eqn:Hge; simpl.
  - rewrite Z.geb_leb in Hge. apply Z.leb_le in Hge. lia.
  - rewrite Z.geb_leb in Hge. apply Z.leb_gt in Hge. lia.
Qed.

(** For a normalized reading and a timeout an [int] can hold, the sum of
    nanoseconds stays below 2^31, so it fits a [long] of any width, and the
    seconds grow by at most 2147484. *)
Lemma add_ms_fits (ts : timespec) (ms : Z) :
  normalized ts -> 0 <= ms <= INT_MAX ->
  0 <= tv_nsec ts + Z.rem ms 1000 * 1000000 < 2147483648 /\
  tv_sec ts <= tv_sec (add_ms_to_timespec ts ms) <= tv_sec ts + 2147484.
Proof.
  unfold add_ms_to_timespec, normalized, INT_MAX. intros Hn Hms.
  pose proof (Z.rem_bound_pos ms 1000 ltac:(lia) ltac:(lia)) as Hr.
  pose proof (Z.quot_rem' ms 1000) as Hqr.
  assert (0 <= Z.quot ms 1000) by (apply Z.quot_pos; lia).
  split; [lia|]. destruct (_ >=? _); simpl; lia.
Qed.

(** *** Timed waits *)

Lemma sem_timedwait_inv i (ts : timespec) w rc w' :
  sem_timedwait E i ts w = Some (rc, w') ->
  deadlines w' = deadlines w ++ [ts] /\
  ((rc = 0 /\ took i w w') \/
   (rc = -1 /\ untouched w w' /\
    (errno w' = ETIMEDOUT -> sem_value i (s (buffer w)) <= 0))).
Proof.
  unfold sem_timedwait. cbn [now record_deadline buffer].
  destruct (fault_at E (now w)) as [f|].
  - intros H. simplify_eq. split; [done|]. right. split_and!; try done.
    simpl. by destruct f.
  - destruct (strict_at E (now w) && negb (normalizedb ts)).
    { intros H. simplify_eq. split; [done|]. right. by split_and!. }
    destruct (0 <? sem_value i (s (buffer w))) eqn:Hv.
    + apply Z.ltb_lt in Hv. intros H. simplify_eq. split; [done|].
      left. by split.
    + apply Z.ltb_ge in Hv.
      destruct (normalizedb ts); intros H; simplify_eq;
        (split; [done|]); right; by split_and!.
Qed.

Lemma sem_timedwait_loop_inv i (ts : timespec) : forall fuel w rc w',
  sem_timedwait_loop E fuel i ts w = Some (rc, w') ->
  (exists n : nat, deadlines w' = deadlines w ++ replicate (S n) ts) /\
  ((rc = 0 /\ took i w w') \/
   (rc = -1 /\ untouched w w' /\
    (errno w' = ETIMEDOUT -> sem_value i (s (buffer w)) <= 0))).
Proof.
  induction fuel as [|fuel IH]; intros w rc w' H; [done|].
  cbn [sem_timedwait_loop] in H.
  apply bind_inv in H as (rc1 & w1 & H1 & H).
  apply bind_inv in H as (e & w2 & H2 & H).
  unfold get_errno in H2. simplify_eq.
  apply sem_timedwait_inv in H1 as [Hd [[-> Ht]|(-> & Hu & He)]].
  - simpl in H. apply ret_inv in H as [-> ->].
    split; [by exists 0%nat|]. by left.
  - destruct ((-1 =? -1) && (errno w2 =? EINTR)).
    + apply IH in H as [[n Hd'] Hcases]. split.
      * exists (S n). rewrite Hd', Hd, <- app_assoc. done.
      * destruct Hu as [Hb Ht].
        destruct Hcases as [[-> Ht']|(-> & Hu' & He')].
        -- left. split; [done|]. by eapply took_after_untouched.
        -- right. split_and!; [done|by eapply untouched_trans|].
           by rewrite <- Hb.
    + apply ret_inv in H as [-> ->].
      split; [by exists 0%nat|]. right. by split_and!.
Qed.

(** A timed wait either takes a token (0), finds none until the deadline
    (1), or fails (-1, -2); every deadline it hands to the system is the
    clock reading plus the timeout. *)
Lemma sem_timedwait_retry_inv (ts0 : timespec) i (ms : Z) w rc w' :
  sem_timedwait_retry E retry ts0 i ms w = Some (rc, w') ->
  ((rc = 0 /\ took i w w') \/
   (rc = 1 /\ untouched w w' /\ sem_value i (s (buffer w)) <= 0) \/
   ((rc = -1 \/ rc = -2) /\ untouched w w')) /\
  match clock_at E (now w) with
  | Some t =>
      exists n : nat,
        deadlines w' =
          deadlines w ++ replicate (S n) (add_ms_to_timespec t ms)
  | None => rc = -2 /\ deadlines w' = deadlines w
  end.
Proof.
  unfold sem_timedwait_retry. intros H.
  apply bind_inv in H as ([c t] & w1 & H1 & H).
  unfold clock_gettime in H1.
  destruct (clock_at E (now w)) as [t0|]; simplify_eq; cbn [fst snd] in H.
  - cbn [nonzero Z.eqb negb] in H.
    apply bind_inv in H as (rc1 & w2 & H2 & H).
    apply sem_timedwait_loop_inv in H2 as [Hd [[-> Ht]|(-> & Hu & He)]].
    + simpl in H. apply ret_inv in H as [-> ->]. split; [|done].
      left. split; [done|]. by eapply took_after_untouched; [|exact Ht].
    + simpl in H. apply bind_inv in H as (e & w3 & H3 & H).
      unfold get_errno in H3. simplify_eq.
      destruct (errno w3 =? ETIMEDOUT) eqn:Ee;
        apply ret_inv in H as [-> ->]; (split; [|done]).
      * apply Z.eqb_eq in Ee. right. left.
        split_and!; [done|exact Hu|by apply He].
      * right. right. split; [by left|exact Hu].
  - simpl in H. apply ret_inv in H as [-> ->]. split; [|done].
    right. right. split; [by right|done].
Qed.

(** A timed wait returns as soon as one attempt is not cut short by a
    signal; [retry] such signals in a row are absorbed. *)
Lemma sem_timedwait_loop_returns i (ts : timespec) : forall fuel w,
  (exists k : nat, (k < fuel)%nat /\
                   fault_at E (now w + k) <> Some Interrupted) ->
  exists rc w', sem_timedwait_loop E fuel i ts w = Some (rc, w').
Proof.
  induction fuel as [|fuel IH]; intros w (k & Hk & Hf); [lia|].
  cbn [sem_timedwait_loop]. unfold bind at 1.
  unfold sem_timedwait. cbn [now record_deadline buffer].
  destruct (fault_at E (now w)) as [[|]|] eqn:Hfa.
  - cbn [get_errno bind with_errno tick errno fault_errno Z.eqb andb].
    unfold bind, get_errno. cbn [errno with_errno fault_errno].
    change ((-1 =? -1) && (EINTR =? EINTR)) with true. cbv iota.
    apply IH. destruct k as [|k].
    + rewrite Nat.add_0_r in Hf. congruence.
    + exists k. split; [lia|]. cbn [now tick with_errno record_deadline].
      by replace (S (now w) + k)%nat with (now w + S k)%nat by lia.
  - unfold bind, get_errno. cbn [errno with_errno fault_errno].
    change ((-1 =? -1) && (EINVAL =? EINTR)) with false. cbv iota.
    by eexists _, _.
  - destruct (strict_at E (now w) && negb (normalizedb ts)).
    { unfold bind, get_errno. cbn [errno with_errno].
      change ((-1 =? -1) && (EINVAL =? EINTR)) with false. cbv iota.
      by eexists _, _. }
    destruct (0 <? sem_value i (s (buffer w))).
    + unfold bind, get_errno. change (0 =? -1) with false.
      cbn [andb]. by eexists _, _.
    + destruct (normalizedb ts); unfold bind, get_errno;
        cbn [errno with_errno].
      * change ((-1 =? -1) && (ETIMEDOUT =? EINTR)) with false. cbv iota.
        by eexists _, _.
      * change ((-1 =? -1) && (EINVAL =? EINTR)) with false. cbv iota.
        by eexists _, _.
Qed.

Lemma sem_timedwait_retry_returns (ts0 : timespec) i (ms : Z) w :
  (exists k : nat, (k <= retry)%nat /\
                   fault_at E (S (now w) + k) <> Some Interrupted) ->
  exists rc w', sem_timedwait_retry E retry ts0 i ms w = Some (rc, w').
Proof.
  intros (k & Hk & Hf). unfold sem_timedwait_retry.
  unfold bind at 1. unfold clock_gettime.
  destruct (clock_at E (now w)) as [t|]; cbn [fst snd nonzero Z.eqb negb].
  - unfold bind at 1.
    destruct (sem_timedwait_loop_returns i (add_ms_to_timespec t ms)
                (S retry) (tick w)) as (rc & w' & ->).
    { exists k. split; [lia|done]. }
    destruct (rc =? 0); [by eexists _, _|].
    unfold bind, get_errno.
    destruct (errno w' =? ETIMEDOUT); by eexists _, _.
  - by eexists _, _.
Qed.

Lemma normalizedb_true (t : timespec) : normalizedb t = true <-> normalized t.
Proof.
  unfold normalizedb, normalized.
  rewrite andb_true_iff, Z.leb_le, Z.ltb_lt. done.
Qed.

(** What a timed wait returns is decided at its first attempt that no
    signal interrupts: by the fault it meets there, by the validity of the
    deadline, and by the token. *)
Lemma sem_timedwait_loop_cause i (ts : timespec) : forall (k fuel : nat) w,
  (k < fuel)%nat ->
  (forall j : nat, (j < k)%nat -> fault_at E (now w + j) = Some Interrupted) ->
  fault_at E (now w + k) <> Some Interrupted ->
  exists rc w',
    sem_timedwait_loop E fuel i ts w = Some (rc, w') /\
    match fault_at E (now w + k) with
    | Some _ => rc = -1 /\ errno w' = EINVAL
    | None =>
        if strict_at E (now w + k) && negb (normalizedb ts)
        then rc = -1 /\ errno w' = EINVAL
        else if 0 <? sem_value i (s (buffer w)) then rc = 0
        else if normalizedb ts then rc = -1 /\ errno w' = ETIMEDOUT
        else rc = -1 /\ errno w' = EINVAL
    end.
Proof.
  induction k as [|k IH]; intros fuel [b n e tr dl] Hk Hint Hlast;
    (destruct fuel as [|fuel]; [lia|]); cbn [sem_timedwait_loop];
    unfold bind at 1; unfold sem_timedwait;
    cbn [now buffer record_deadline] in *.
  - rewrite Nat.add_0_r in *.
    destruct (fault_at E n) as [[|]|]; [done|..].
    + unfold bind, get_errno. cbn [errno with_errno fault_errno tick].
      change ((-1 =? -1) && (EINVAL =? EINTR)) with false. cbv iota.
      by eexists _, _.
    + destruct (strict_at E n && negb (normalizedb ts)).
      { unfold bind, get_errno. cbn [errno with_errno tick].
        change ((-1 =? -1) && (EINVAL =? EINTR)) with false. cbv iota.
        by eexists _, _. }
      destruct (0 <? sem_value i (s b)).
      { unfold bind, get_errno. change (0 =? -1) with false. cbn [andb].
        by eexists _, _. }
      destruct (normalizedb ts); unfold bind, get_errno;
        cbn [errno with_errno tick].
      * change ((-1 =? -1) && (ETIMEDOUT =? EINTR)) with false. cbv iota.
        by eexists _, _.
      * change ((-1 =? -1) && (EINVAL =? EINTR)) with false. cbv iota.
        by eexists _, _.
  - pose proof (Hint 0%nat ltac:(lia)) as H0.
    rewrite Nat.add_0_r in H0. rewrite H0.
    unfold bind, get_errno. cbn [errno with_errno fault_errno tick].
    change ((-1 =? -1) && (EINTR =? EINTR)) with true. cbv iota.
    destruct (IH fuel (World b (S n) EINTR tr (dl ++ [ts])))
      as (rc & w' & Hrun & Hcause); cbn [now buffer].
    + lia.
    + intros j Hj.
      replace (S n + j)%nat with (n + S j)%nat by lia. apply Hint. lia.
    + by replace (S n + k)%nat with (n + S k)%nat by lia.
    + exists rc, w'. split; [exact Hrun|].
      by replace (n + S k)%nat with (S n + k)%nat by lia.
Qed.

Lemma sem_timedwait_retry_cause (ts0 t : timespec) i (ms : Z) (k : nat) w :
  clock_at E (now w) = Some t ->
  (k <= retry)%nat ->
  (forall j : nat,
     (j < k)%nat -> fault_at E (S (now w) + j) = Some Interrupted) ->
  fault_at E (S (now w) + k) <> Some Interrupted ->
  exists rc w',
    sem_timedwait_retry E retry ts0 i ms w = Some (rc, w') /\
    match fault_at E (S (now w) + k) with
    | Some _ => rc = -1
    | None =>
        if strict_at E (S (now w) + k)
           && negb (normalizedb (add_ms_to_timespec t ms))
        then rc = -1
        else if 0 <? sem_value i (s (buffer w)) then rc = 0
        else if normalizedb (add_ms_to_timespec t ms) then rc = 1
        else rc = -1
    end.
Proof.
  intros Hclock Hk Hint Hlast. unfold sem_timedwait_retry.
  unfold bind at 1. unfold clock_gettime. rewrite Hclock.
  cbn [fst snd nonzero Z.eqb negb]. unfold bind at 1.
  destruct (sem_timedwait_loop_cause i (add_ms_to_timespec t ms) k (S retry)
              (tick w)) as (rc & w' & -> & Hcause); [lia|done|done|].
  cbn [now tick buffer] in Hcause.
  assert (forall x, x = -1 /\ errno w' = EINVAL ->
            exists rc0 w0,
              (if x =? 0 then ret 0
               else e <- get_errno ;;
                    if e =? ETIMEDOUT then ret 1 else ret (-1)) w'
              = Some (rc0, w0) /\ rc0 = -1) as Hinval.
  { intros x [-> He]. cbn [Z.eqb]. unfold bind, get_errno. rewrite He.
    by eexists _, _. }
  destruct (fault_at E (S (now w) + k)) as [f|].
  { destruct (Hinval rc Hcause) as (rc0 & w0 & -> & ->). by eexists _, _. }
  destruct (strict_at E _ && negb _).
  { destruct (Hinval rc Hcause) as (rc0 & w0 & -> & ->). by eexists _, _. }
  destruct (0 <? sem_value i (s (buffer w))).
  { subst rc. by eexists _, _. }
  destruct (normalizedb (add_ms_to_timespec t ms)).
  - destruct Hcause as [-> He]. cbn [Z.eqb]. unfold bind, get_errno.
    rewrite He. by eexists _, _.
  - destruct (Hinval rc Hcause) as (rc0 & w0 & -> & ->). by eexists _, _.
Qed.

End SyncFacts.

Section SyncClaims.
Import Queue Machine Sync Buffer.

(** C9.  [sync_timedwait_items] and [sync_timedwait_slots] return as soon
    as one attempt is not interrupted by a signal, and what they return is
    decided at that attempt: 0 exactly when it meets no fault and a token is
    there, which is then taken; 1 exactly when it meets no fault, no token
    is there and the deadline is a valid time, so that the wait times out;
    a negative value exactly when the attempt fails or the deadline is not
    a valid time (with a token on offer, only on a system that looks at the
    deadline first).  A failing clock gives -2 and a NULL pointer -1.  In
    every case but 0 nothing is taken.  Every deadline handed to the system
    is the reading of CLOCK_REALTIME advanced by exactly [timeout_ms]
    milliseconds, and it is normalized when the reading is and
    [timeout_ms >= 0]. *)
Theorem sync_timedwait_three_outcomes
    (E : env) (retry : nat) (i : sem_id) (y : ptr) (timeout_ms : Z)
    (w : world) :
  let timedwait :=
    match i with
    | ITEMS => sync_timedwait_items E retry y timeout_ms
    | SLOTS => sync_timedwait_slots E retry y timeout_ms
    end in
  ((exists k : nat, (k <= retry)%nat /\
                    fault_at E (S (now w) + k) <> Some Interrupted) ->
   exists rc w', timedwait w = Some (rc, w')) /\
  (forall rc w', timedwait w = Some (rc, w') ->
     (rc = 0 \/ rc = 1 \/ rc < 0) /\
     (rc = 0 -> took i w w') /\
     (rc = 1 -> untouched w w' /\ sem_value i (s (buffer w)) <= 0) /\
     (rc < 0 -> untouched w w') /\
     (forall t, y = ADDR -> clock_at E (now w) = Some t ->
        let d := add_ms_to_timespec t timeout_ms in
        (exists n : nat, deadlines w' = deadlines w ++ replicate (S n) d) /\
        to_ns d = to_ns t + timeout_ms * 1000000 /\
        (normalized t -> 0 <= timeout_ms -> normalized d))) /\
  (y = NULL -> timedwait w = Some (-1, w)) /\
  (y = ADDR -> clock_at E (now w) = None ->
   exists w', timedwait w = Some (-2, w')) /\
  (forall (t : timespec) (k : nat),
     y = ADDR -> clock_at E (now w) = Some t ->
     (k <= retry)%nat ->
     (forall j : nat,
        (j < k)%nat -> fault_at E (S (now w) + j) = Some Interrupted) ->
     fault_at E (S (now w) + k) <> Some Interrupted ->
     let a := (S (now w) + k)%nat in
     let d := add_ms_to_timespec t timeout_ms in
     let v := sem_value i (s (buffer w)) in
     exists rc w',
       timedwait w = Some (rc, w') /\
       (rc = 0 <->
        fault_at E a = None /\ 0 < v /\
        (normalized d \/ strict_at E a = false)) /\
       (rc = 1 <-> fault_at E a = None /\ v <= 0 /\ normalized d) /\
       (rc < 0 <->
        fault_at E a = Some Broken \/
        (fault_at E a = None /\ ~ normalized d /\
         (v <= 0 \/ strict_at E a = true)))).
Proof.
  intros timedwait. destruct y.
  { assert (timedwait = ret (-1)) as -> by (by destruct i).
    split; [by eexists _, _|]. split.
    - intros rc w' H. apply ret_inv in H as [-> ->].
      split_and!; try done; try lia;
        try (by intros _; apply untouched_refl).
    - by split_and!. }
  assert (timedwait = sem_timedwait_retry E retry ts_junk i timeout_ms) as ->
    by (by destruct i).
  split; [apply sem_timedwait_retry_returns|]. split.
  { intros rc w' H.
    apply sem_timedwait_retry_inv in H as [Hcases Hd].
    split_and!.
    - destruct Hcases as [[-> _]|[[-> _]|[[-> | ->] _]]]; lia.
    - intros ->. destruct Hcases as [[_ H]|[[? _]|[[? | ?] _]]]; [done|lia..].
    - intros ->.
      destruct Hcases as [[? _]|[[_ H]|[[? | ?] _]]]; [lia|done|lia..].
    - intros Hneg.
      destruct Hcases as [[? _]|[[? _]|[_ H]]]; [lia|lia|done].
    - intros t _ Ht d. rewrite Ht in Hd. split; [exact Hd|].
      split; [apply add_ms_exact|apply add_ms_normalized]. }
  split; [done|]. split.
  { intros _ Hclock. unfold sem_timedwait_retry, bind, clock_gettime.
    rewrite Hclock. by eexists. }
  intros t k _ Hclock Hk Hint Hlast a d v.
  destruct (sem_timedwait_retry_cause E retry ts_junk t i timeout_ms k w
              Hclock Hk Hint Hlast) as (rc & w' & Hrun & Hcause).
  exists rc, w'. split; [exact Hrun|].
  fold a d v in Hcause. fold a in Hlast.
  assert (normalizedb d = true /\ normalized d \/
          normalizedb d = false /\ ~ normalized d) as Hn.
  { pose proof (normalizedb_true d) as Hn.
    destruct (normalizedb d); [left|right]; split; try done.
    - by apply Hn.
    - intros Hd. apply Hn in Hd. done. }
  assert ((0 <? v) = true /\ 0 < v \/ (0 <? v) = false /\ v <= 0) as Hv.
  { destruct (Z.ltb_spec 0 v); [left|right]; by split. }
  clearbody a d v. clear Hrun Hint Hk Hclock.
  destruct (fault_at E a) as [[|]|]; [done|..].
  { subst rc. split_and!; (split; [try done|]).
    - by intros [? _].
    - by intros [? _].
    - intros _. by left.
    - lia. }
  destruct (strict_at E a);
    destruct Hn as [[Hb Hn]|[Hb Hn]]; rewrite Hb in Hcause;
    destruct Hv as [[Hvb Hv]|[Hvb Hv]]; rewrite Hvb in Hcause;
    cbn [andb negb] in Hcause; subst rc;
    (split_and!; (split;
       [try done; try lia; intros _
       |try (intros [Hx|(_ & Hx & [Hy|Hy])]); try (intros (_ & Hx & Hy));
        try done; try lia; try tauto]));
    try (exfalso; lia); try (split_and!; (done || lia || tauto));
    try (right; split_and!; (done || lia || tauto));
    try (by destruct Hy).
Qed.

Lemma sync_timedwait_three_outcomes_witness :
  (exists w',
     sync_timedwait_slots E_quiet 0 ADDR 200 w_ready = Some (0, w') /\
     took SLOTS w_ready w') /\
  (exists w',
     sync_timedwait_items E_quiet 0 ADDR 200 w_ready = Some (1, w') /\
     untouched w_ready w' /\
     deadlines w' = [Timespec 1700000001 150000000]) /\
  (exists rc w',
     sync_timedwait_slots E_quiet 0 ADDR (-960) w_ready = Some (rc, w') /\
     rc < 0 /\ untouched w_ready w' /\
     deadlines w' = [Timespec 1700000000 (-10000000)]).
Proof.
  assert (normalized (add_ms_to_timespec clock_reading 200)) as Hn
    by (by apply normalizedb_true).
  assert (~ normalized (add_ms_to_timespec clock_reading (-960))) as Hbad.
  { intros H. by apply normalizedb_true in H. }
  split; [|split].
  - destruct (sync_timedwait_three_outcomes E_quiet 0 SLOTS ADDR 200 w_ready)
      as (_ & Hout & _ & _ & Hcause).
    destruct (Hcause clock_reading 0%nat eq_refl eq_refl (le_n 0)
                ltac:(intros j Hj; lia) ltac:(discriminate))
      as (rc & w' & Hrun & H0 & _).
    assert (rc = 0) as ->.
    { apply H0. split; [done|]. split; [cbn; lia|]. by left. }
    exists w'. split; [exact Hrun|].
    by destruct (Hout 0 w' Hrun) as (_ & Htook & _); apply Htook.
  - destruct (sync_timedwait_three_outcomes E_quiet 0 ITEMS ADDR 200 w_ready)
      as (_ & Hout & _ & _ & Hcause).
    destruct (Hcause clock_reading 0%nat eq_refl eq_refl (le_n 0)
                ltac:(intros j Hj; lia) ltac:(discriminate))
      as (rc & w' & Hrun & _ & H1 & _).
    assert (rc = 1) as ->.
    { apply H1. split; [done|]. split; [cbn; lia|done]. }
    exists w'. split; [exact Hrun|].
    destruct (Hout 1 w' Hrun) as (_ & _ & Hto & _ & Hd).
    split; [exact (proj1 (Hto eq_refl))|].
    cbv zeta in Hrun. vm_compute in Hrun. by simplify_eq.
  - destruct (sync_timedwait_three_outcomes E_quiet 0 SLOTS ADDR (-960)
                w_ready) as (_ & Hout & _ & _ & Hcause).
    destruct (Hcause clock_reading 0%nat eq_refl eq_refl (le_n 0)
                ltac:(intros j Hj; lia) ltac:(discriminate))
      as (rc & w' & Hrun & _ & _ & Hneg).
    assert (rc < 0) as Hrc.
    { apply Hneg. right. split; [done|]. split; [exact Hbad|by right]. }
    exists rc, w'. split; [exact Hrun|]. split; [exact Hrc|].
    destruct (Hout rc w' Hrun) as (_ & _ & _ & Hun & _).
    split; [exact (Hun Hrc)|].
    cbv zeta in Hrun. vm_compute in Hrun. by simplify_eq.
Defined.

(** A timed wait with a negative timeout hands the system a deadline that
    is not normalized; with no token to take the wait fails. *)
Example negative_timeout_fails :
  fst <$> sync_timedwait_slots
            (Env (fun _ => 0) (fun _ => Some (Timespec 5 0)) (fun _ => None)
                 (fun _ => true) (fun _ => false))
            0 ADDR (-1) w_blank
  = Some (-1).
Proof. vm_compute. reflexivity. Qed.

(** With a token on offer the same deadline is refused by a system that
    looks at the deadline first, and the token is taken by one that does
    not. *)
Example negative_timeout_with_token :
  fst <$> sync_timedwait_slots
            (Env (fun _ => 0) (fun _ => Some (Timespec 5 0)) (fun _ => None)
                 (fun _ => true) (fun _ => true))
            0 ADDR (-1) w_ready
  = Some (-1) /\
  fst <$> sync_timedwait_slots
            (Env (fun _ => 0) (fun _ => Some (Timespec 5 0)) (fun _ => None)
                 (fun _ => true) (fun _ => false))
            0 ADDR (-1) w_ready
  = Some 0.
Proof. split; vm_compute; reflexivity. Qed.

End SyncClaims.

(** ** The buffer *)

Section BufferFacts.
Import Queue Machine Sync Buffer.

Variable E : env.
Variable retry : nat.

Implicit Types (w : world) (i : sem_id) (rc : Z) (m : option msg_t).

Ltac wsimpl :=
  cbn -[queue_push queue_pop SEM_VALUE_MAX Z.ltb Z.add Z.sub].

Ltac norm_world :=
  cbv beta iota zeta delta
    [record with_queue with_sync with_errno tick record_deadline set_mtx
     set_sem sem_value buffer q s now errno trace deadlines mtx items slots].

Ltac run_prims :=
  unfold sync_post_slots, sync_post_items, sync_unlock, pthread_mutex_unlock,
    sem_post, nonzero, bind, ret, record, with_sync, with_queue, with_errno,
    tick;
  wsimpl.

Lemma queue_push_fail_unchanged (p : option queue_t) m :
  fst (queue_push p m) <> 0 -> snd (queue_push p m) = p.
Proof.
  unfold queue_push. destruct p as [q0|], m as [m0|]; try done.
  destruct (buf q0); [|done]. by destruct (queue_is_full (Some q0)).
Qed.

Lemma queue_pop_fail_unchanged (p : option queue_t) (out : option msg_t) :
  fst (fst (queue_pop p out)) <> 0 ->
  snd (fst (queue_pop p out)) = p /\ snd (queue_pop p out) = out.
Proof.
  unfold queue_pop. destruct p as [q0|], out as [o|]; try done.
  destruct (buf q0); [|done]. by destruct (queue_is_empty (Some q0)).
Qed.

(** The part of a put that runs under the lock and after it: insert,
    unlock, then hand a token to the consumers, or on failure give the slot
    back. *)
Lemma put_commit_cases m w r w' :
  mtx (s (buffer w)) = true ->
  items (s (buffer w)) < SEM_VALUE_MAX ->
  slots (s (buffer w)) < SEM_VALUE_MAX ->
  (rc <- on_queue_push m ;;
   sync_unlock ADDR ;;;
   if nonzero rc then sync_post_slots ADDR ;;; ret (-4)
   else sync_post_items ADDR ;;; ret 0) w = Some (r, w') ->
  (r = -4 /\ fst (queue_push (Some (q (buffer w))) m) <> 0 /\
   buffer w' = Buffer (q (buffer w))
                 (Sync false (items (s (buffer w)))
                       (slots (s (buffer w)) + 1)) /\
   trace w' = trace w ++ [Unlock; Release SLOTS]) \/
  (r = 0 /\ exists q',
     queue_push (Some (q (buffer w))) m = (0, Some q') /\
     buffer w' = Buffer q'
                   (Sync false (items (s (buffer w)) + 1)
                         (slots (s (buffer w)))) /\
     trace w' = trace w ++ [Push; Unlock; Release ITEMS]).
Proof.
  destruct w as [[q0 [mt it sl]] n e tr dl]. wsimpl. intros -> Hit Hsl.
  unfold bind at 1. unfold on_queue_push. wsimpl.
  pose proof (queue_push_fail_unchanged (Some q0) m) as Hfail.
  destruct (queue_push (Some q0) m) as [rc [q'|]] eqn:Hpush;
    cbn [fst snd] in Hfail.
  - destruct (rc =? 0) eqn:Hrc.
    + apply Z.eqb_eq in Hrc. subst rc. run_prims.
      apply Z.ltb_lt in Hit as ->. wsimpl.
      intros H. simplify_eq. right. split; [done|]. exists q'.
      split; [done|]. split; [done|]. by rewrite <- !app_assoc.
    + pose proof Hrc as Hrc'. apply Z.eqb_neq in Hrc.
      specialize (Hfail Hrc). simplify_eq.
      run_prims. rewrite Hrc'. wsimpl.
      apply Z.ltb_lt in Hsl as ->. wsimpl.
      intros H. simplify_eq. left. split_and!; try done.
      by rewrite <- !app_assoc.
  - destruct (Z.eq_dec rc 0) as [->|Hrc]; [|by specialize (Hfail Hrc)].
    exfalso. clear Hfail. unfold queue_push in Hpush.
    destruct m; [|done]. destruct (buf q0); [|done].
    by destruct (queue_is_full (Some q0)).
Qed.

Lemma get_commit_cases (out : option msg_t) w r w' :
  mtx (s (buffer w)) = true ->
  items (s (buffer w)) < SEM_VALUE_MAX ->
  slots (s (buffer w)) < SEM_VALUE_MAX ->
  (p <- on_queue_pop out ;;
   sync_unlock ADDR ;;;
   if nonzero (fst p) then sync_post_items ADDR ;;; ret (-4, snd p)
   else sync_post_slots ADDR ;;; ret (0, snd p)) w = Some (r, w') ->
  (fst r = -4 /\ snd r = out /\
   fst (fst (queue_pop (Some (q (buffer w))) out)) <> 0 /\
   buffer w' = Buffer (q (buffer w))
                 (Sync false (items (s (buffer w)) + 1)
                       (slots (s (buffer w)))) /\
   trace w' = trace w ++ [Unlock; Release ITEMS]) \/
  (fst r = 0 /\ exists q',
     queue_pop (Some (q (buffer w))) out = (0, Some q', snd r) /\
     buffer w' = Buffer q'
                   (Sync false (items (s (buffer w)))
                         (slots (s (buffer w)) + 1)) /\
     trace w' = trace w ++ [Pop; Unlock; Release SLOTS]).
Proof.
  destruct w as [[q0 [mt it sl]] n e tr dl]. wsimpl. intros -> Hit Hsl.
  unfold bind at 1. unfold on_queue_pop. wsimpl.
  pose proof (queue_pop_fail_unchanged (Some q0) out) as Hfail.
  destruct (queue_pop (Some q0) out) as [[rc [q'|]] o'] eqn:Hpop;
    cbn [fst snd] in Hfail.
  - destruct (rc =? 0) eqn:Hrc.
    + apply Z.eqb_eq in Hrc. subst rc. run_prims.
      apply Z.ltb_lt in Hsl as ->. wsimpl.
      intros H. simplify_eq. right. split; [done|]. exists q'.
      split; [done|]. split; [done|]. by rewrite <- !app_assoc.
    + pose proof Hrc as Hrc'. apply Z.eqb_neq in Hrc.
      destruct (Hfail Hrc) as [Hq Ho]. simplify_eq.
      run_prims. rewrite Hrc'. wsimpl.
      apply Z.ltb_lt in Hit as ->. wsimpl.
      intros H. simplify_eq. left. split_and!; try done.
      by rewrite <- !app_assoc.
  - destruct (Z.eq_dec rc 0) as [->|Hrc]; [|by destruct (Hfail Hrc)].
    exfalso. clear Hfail. unfold queue_pop in Hpop.
    destruct out; [|done]. destruct (buf q0); [|done].
    by destruct (queue_is_empty (Some q0)).
Qed.

Lemma put_outcome_untouched m w0 w rc w' :
  untouched w0 w -> put_outcome m w rc w' -> put_outcome m w0 rc w'.
Proof.
  intros [Hb Ht]. unfold put_outcome, untouched. by rewrite Hb, Ht.
Qed.

Lemma get_outcome_untouched out w0 w r w' :
  untouched w0 w -> get_outcome out w r w' -> get_outcome out w0 r w'.
Proof.
  intros [Hb Ht]. unfold get_outcome, untouched. by rewrite Hb, Ht.
Qed.

(** Every way out of the polling loop of [buffer_put_interruptible]. *)
Lemma put_loop_cases (m : msg_t) (poll_ms : Z) : forall fuel w rc w',
  sems_valid w ->
  put_loop E retry fuel ADDR (Some m) poll_ms w = Some (rc, w') ->
  put_outcome (Some m) w rc w'.
Proof.
  induction fuel as [|fuel IH]; intros w rc w' Hv H; [done|].
  cbn [put_loop] in H.
  apply bind_inv in H as (f & w0 & Hload & H).
  apply atomic_load_inv in Hload as [-> ->].
  destruct (flag_at E (now w) =? 0).
  2:{ apply ret_inv in H as [-> ->]. left.
      split_and!; [done..|]. exists []. split; [constructor|].
      by rewrite app_nil_r. }
  apply bind_inv in H as (r & w1 & Hwait & H).
  unfold sync_timedwait_slots, field_of in Hwait.
  apply sem_timedwait_retry_inv in Hwait
    as [[[-> Ht]|[[-> [Hu _]]|[Hr Hu]]] _].
  - (* a slot token was taken *)
    cbn [Z.eqb nonzero negb] in H.
    destruct Ht as (Hpos & Hb1 & Ht1).
    destruct w as [[q0 [mt it sl]] n e tr dl].
    destruct w1 as [b1 n1 e1 t1 d1].
    unfold sems_valid in Hv. cbn in Hpos, Hb1, Ht1, Hv. subst b1 t1.
    apply bind_inv in H as (f & w2 & Hload & H).
    apply atomic_load_inv in Hload as [-> ->].
    destruct (nonzero (flag_at E _)).
    { (* stop seen right after the token *)
      revert H. run_prims.
      assert ((sl - 1 <? SEM_VALUE_MAX) = true) as -> by (apply Z.ltb_lt; lia).
      intros H. simplify_eq. left. wsimpl.
      replace (sl - 1 + 1) with sl by lia. split_and!; [done..|].
      exists [Acquire SLOTS; Release SLOTS]. split; [constructor|].
      by rewrite <- app_assoc. }
    apply bind_inv in H as (r & w3 & Hlock & H).
    unfold sync_lock, field_of in Hlock.
    apply mutex_lock_inv in Hlock as [(-> & Hm & ->)|[Hr ->]].
    + cbn [Z.eqb nonzero negb] in H. cbn in Hm. subst mt.
      apply bind_inv in H as (f & w4 & Hload & H).
      apply atomic_load_inv in Hload as [-> ->].
      destruct (nonzero (flag_at E _)).
      { (* stop seen under the lock *)
        revert H. run_prims.
        assert ((sl - 1 <? SEM_VALUE_MAX) = true) as ->
          by (apply Z.ltb_lt; lia).
        intros H. simplify_eq. left. wsimpl.
        replace (sl - 1 + 1) with sl by lia. split_and!; [done..|].
        exists [Acquire SLOTS; Lock; Unlock; Release SLOTS].
        split; [constructor|]. by rewrite <- !app_assoc. }
      apply put_commit_cases in H; [|done|cbn; lia..].
      revert H. wsimpl.
      intros [(-> & Hf & Hb' & Ht')|(-> & q' & Hp & Hb' & Ht')];
        unfold put_outcome; wsimpl; rewrite Hb', Ht'.
      * do 3 right. left. replace (sl - 1 + 1) with sl by lia.
        split_and!; try done. by rewrite <- !app_assoc.
      * do 4 right. split_and!; try done. exists q'.
        split_and!; try done. by rewrite <- !app_assoc.
    + (* the lock failed *)
      assert (nonzero r = true) as Hnz by (unfold nonzero; by destruct r).
      rewrite Hnz in H. revert H. run_prims.
      assert ((sl - 1 <? SEM_VALUE_MAX) = true) as -> by (apply Z.ltb_lt; lia).
      intros H. simplify_eq. do 2 right. left. wsimpl.
      replace (sl - 1 + 1) with sl by lia. split_and!; try done.
      by rewrite <- app_assoc.
  - (* timed out: poll again *)
    cbn [Z.eqb] in H.
    eapply put_outcome_untouched; [exact Hu|].
    apply IH; [|done]. destruct Hu as [Hb _]. unfold sems_valid.
    by rewrite Hb.
  - (* the wait failed *)
    assert ((r =? 1) = false) as Hn1 by (destruct Hr as [-> | ->]; done).
    assert (nonzero r = true) as Hnz by (destruct Hr as [-> | ->]; done).
    rewrite Hn1, Hnz in H. apply ret_inv in H as [-> ->]. right. left. split; [done|].
    exact Hu.
Qed.

(** Every way out of the polling loop of [buffer_get_interruptible]. *)
Lemma get_loop_cases (o : msg_t) (poll_ms : Z) : forall fuel w r w',
  sems_valid w ->
  get_loop E retry fuel ADDR (Some o) poll_ms w = Some (r, w') ->
  get_outcome (Some o) w r w'.
Proof.
  induction fuel as [|fuel IH]; intros w r w' Hv H; [done|].
  cbn [get_loop] in H.
  apply bind_inv in H as (f & w0 & Hload & H).
  apply atomic_load_inv in Hload as [-> ->].
  destruct (flag_at E (now w) =? 0).
  2:{ apply ret_inv in H as [-> ->]. left.
      split_and!; [done..|]. exists []. split; [constructor|].
      by rewrite app_nil_r. }
  apply bind_inv in H as (rw & w1 & Hwait & H).
  unfold sync_timedwait_items, field_of in Hwait.
  apply sem_timedwait_retry_inv in Hwait
    as [[[-> Ht]|[[-> [Hu _]]|[Hr Hu]]] _].
  - (* an item token was taken *)
    cbn [Z.eqb nonzero negb] in H.
    destruct Ht as (Hpos & Hb1 & Ht1).
    destruct w as [[q0 [mt it sl]] n e tr dl].
    destruct w1 as [b1 n1 e1 t1 d1].
    unfold sems_valid in Hv. cbn in Hpos, Hb1, Ht1, Hv. subst b1 t1.
    apply bind_inv in H as (f & w2 & Hload & H).
    apply atomic_load_inv in Hload as [-> ->].
    destruct (nonzero (flag_at E _)).
    { revert H. run_prims.
      assert ((it - 1 <? SEM_VALUE_MAX) = true) as ->
        by (apply Z.ltb_lt; lia).
      intros H. simplify_eq. left. wsimpl.
      replace (it - 1 + 1) with it by lia. split_and!; [done..|].
      exists [Acquire ITEMS; Release ITEMS]. split; [constructor|].
      by rewrite <- app_assoc. }
    apply bind_inv in H as (rl & w3 & Hlock & H).
    unfold sync_lock, field_of in Hlock.
    apply mutex_lock_inv in Hlock as [(-> & Hm & ->)|[Hr ->]].
    + cbn [Z.eqb nonzero negb] in H. cbn in Hm. subst mt.
      apply bind_inv in H as (f & w4 & Hload & H).
      apply atomic_load_inv in Hload as [-> ->].
      destruct (nonzero (flag_at E _)).
      { revert H. run_prims.
        assert ((it - 1 <? SEM_VALUE_MAX) = true) as ->
          by (apply Z.ltb_lt; lia).
        intros H. simplify_eq. left. wsimpl.
        replace (it - 1 + 1) with it by lia. split_and!; [done..|].
        exists [Acquire ITEMS; Lock; Unlock; Release ITEMS].
        split; [constructor|]. by rewrite <- !app_assoc. }
      apply get_commit_cases in H; [|done|cbn; lia..].
      revert H. wsimpl.
      intros [(Hr & Ho & Hf & Hb' & Ht')|(Hr & q' & Hp & Hb' & Ht')];
        unfold get_outcome; wsimpl; rewrite Hb', Ht'.
      * do 3 right. left. replace (it - 1 + 1) with it by lia.
        split_and!; try done. by rewrite <- !app_assoc.
      * do 4 right. split_and!; try done. exists q'.
        split_and!; try done. by rewrite <- !app_assoc.
    + assert (nonzero rl = true) as Hnz by (unfold nonzero; by destruct rl).
      rewrite Hnz in H. revert H. run_prims.
      assert ((it - 1 <? SEM_VALUE_MAX) = true) as ->
        by (apply Z.ltb_lt; lia).
      intros H. simplify_eq. do 2 right. left. wsimpl.
      replace (it - 1 + 1) with it by lia. split_and!; try done.
      by rewrite <- app_assoc.
  - cbn [Z.eqb] in H.
    eapply get_outcome_untouched; [exact Hu|].
    apply IH; [|done]. destruct Hu as [Hb _]. unfold sems_valid.
    by rewrite Hb.
  - assert ((rw =? 1) = false) as Hn1 by (destruct Hr as [-> | ->]; done).
    assert (nonzero rw = true) as Hnz by (destruct Hr as [-> | ->]; done).
    rewrite Hn1, Hnz in H. apply ret_inv in H as [-> ->]. right. left.
    split_and!; [done..|]. exact Hu.
Qed.

(** Every way out of [buffer_put] and of [buffer_get]. *)
Lemma buffer_put_cases (m : msg_t) w rc w' :
  sems_valid w ->
  buffer_put E retry ADDR (Some m) w = Some (rc, w') ->
  put_outcome (Some m) w rc w'.
Proof.
  intros Hv H. cbn [buffer_put] in H.
  apply bind_inv in H as (r & w1 & Hwait & H).
  unfold sync_wait_slots, field_of, sem_wait_retry in Hwait.
  apply sem_wait_loop_inv in Hwait as [[-> Ht]|[-> Hu]].
  - cbn [Z.eqb nonzero negb] in H.
    destruct Ht as (Hpos & Hb1 & Ht1).
    destruct w as [[q0 [mt it sl]] n e tr dl].
    destruct w1 as [b1 n1 e1 t1 d1].
    unfold sems_valid in Hv. cbn in Hpos, Hb1, Ht1, Hv. subst b1 t1.
    apply bind_inv in H as (rl & w3 & Hlock & H).
    unfold sync_lock, field_of in Hlock.
    apply mutex_lock_inv in Hlock as [(-> & Hm & ->)|[Hr ->]].
    + cbn [Z.eqb nonzero negb] in H. cbn in Hm. subst mt.
      apply put_commit_cases in H; [|done|cbn; lia..].
      revert H. wsimpl.
      intros [(-> & Hf & Hb' & Ht')|(-> & q' & Hp & Hb' & Ht')];
        unfold put_outcome; wsimpl; rewrite Hb', Ht'.
      * do 3 right. left. replace (sl - 1 + 1) with sl by lia.
        split_and!; try done. by rewrite <- !app_assoc.
      * do 4 right. split_and!; try done. exists q'.
        split_and!; try done. by rewrite <- !app_assoc.
    + assert (nonzero rl = true) as Hnz by (unfold nonzero; by destruct rl).
      rewrite Hnz in H. revert H. run_prims.
      assert ((sl - 1 <? SEM_VALUE_MAX) = true) as ->
        by (apply Z.ltb_lt; lia).
      intros H. simplify_eq. do 2 right. left. wsimpl.
      replace (sl - 1 + 1) with sl by lia. split_and!; try done.
      by rewrite <- app_assoc.
  - cbn [Z.eqb nonzero negb] in H. apply ret_inv in H as [-> ->].
    right. left. by split.
Qed.

Lemma buffer_get_cases (o : msg_t) w r w' :
  sems_valid w ->
  buffer_get E retry ADDR (Some o) w = Some (r, w') ->
  get_outcome (Some o) w r w'.
Proof.
  intros Hv H. cbn [buffer_get] in H.
  apply bind_inv in H as (rw & w1 & Hwait & H).
  unfold sync_wait_items, field_of, sem_wait_retry in Hwait.
  apply sem_wait_loop_inv in Hwait as [[-> Ht]|[-> Hu]].
  - cbn [Z.eqb nonzero negb] in H.
    destruct Ht as (Hpos & Hb1 & Ht1).
    destruct w as [[q0 [mt it sl]] n e tr dl].
    destruct w1 as [b1 n1 e1 t1 d1].
    unfold sems_valid in Hv. cbn in Hpos, Hb1, Ht1, Hv. subst b1 t1.
    apply bind_inv in H as (rl & w3 & Hlock & H).
    unfold sync_lock, field_of in Hlock.
    apply mutex_lock_inv in Hlock as [(-> & Hm & ->)|[Hr ->]].
    + cbn [Z.eqb nonzero negb] in H. cbn in Hm. subst mt.
      apply get_commit_cases in H; [|done|cbn; lia..].
      revert H. wsimpl.
      intros [(Hr & Ho & Hf & Hb' & Ht')|(Hr & q' & Hp & Hb' & Ht')];
        unfold get_outcome; wsimpl; rewrite Hb', Ht'.
      * do 3 right. left. replace (it - 1 + 1) with it by lia.
        split_and!; try done. by rewrite <- !app_assoc.
      * do 4 right. split_and!; try done. exists q'.
        split_and!; try done. by rewrite <- !app_assoc.
    + assert (nonzero rl = true) as Hnz by (unfold nonzero; by destruct rl).
      rewrite Hnz in H. revert H. run_prims.
      assert ((it - 1 <? SEM_VALUE_MAX) = true) as ->
        by (apply Z.ltb_lt; lia).
      intros H. simplify_eq. do 2 right. left. wsimpl.
      replace (it - 1 + 1) with it by lia. split_and!; try done.
      by rewrite <- app_assoc.
  - cbn [Z.eqb nonzero negb] in H. apply ret_inv in H as [-> ->].
    right. left. by split_and!.
Qed.

Lemma buffer_inv_sems_valid w : buffer_inv w -> sems_valid w.
Proof.
  intros (Hwf & [Hsum Hit] & _). rewrite (length_held _ Hwf) in Hit.
  destruct Hwf as (_ & Hc & Hcap & _).
  unfold sems_valid, SEM_VALUE_MAX. unfold INT_MAX in Hcap. lia.
Qed.

(** The design invariant survives every return of a put, and a put that
    succeeds has the effects of the discipline, in its order. *)
Lemma put_outcome_inv (m : msg_t) w rc w' :
  buffer_inv w -> put_outcome (Some m) w rc w' ->
  buffer_inv w' /\ rc <> -4 /\
  (rc = 0 ->
   trace w' = trace w ++ [Acquire SLOTS; Lock; Push; Unlock; Release ITEMS]).
Proof.
  intros Hinv Hout. pose proof Hinv as (Hwf & [Hsum Hit] & Hm).
  pose proof (length_held _ Hwf) as Hlen.
  assert (forall w2, buffer w2 = buffer w -> buffer_inv w2) as Hsame.
  { intros w2 Hb. unfold buffer_inv, coupled. by rewrite Hb. }
  destruct Hout as [(-> & Hb & _)|[(-> & Hb & _)|[(-> & Hb & _)|
                   [(-> & Hb & Hpos & Hf & _)|(-> & Hpos & q' & Hp & Hb & Ht)]]]];
    try (split_and!; [by apply Hsame|lia|lia]).
  - exfalso. apply Hf.
    destruct (queue_push_ok (q (buffer w)) m Hwf ltac:(lia))
      as (b & q1 & _ & -> & _). done.
  - split_and!; [|lia|done].
    destruct (queue_push_ok (q (buffer w)) m Hwf ltac:(lia))
      as (b & q1 & _ & Hp1 & Hq1 & Hheld & Hwf1).
    rewrite Hp1 in Hp. simplify_eq.
    unfold buffer_inv, coupled. rewrite Hb. cbn [q s mtx items slots].
    split_and!; try done.
    + cbn [capacity]. lia.
    + rewrite Hheld, length_app. simpl. lia.
Qed.

Lemma get_outcome_inv (o : msg_t) w r w' :
  buffer_inv w -> get_outcome (Some o) w r w' ->
  buffer_inv w' /\ fst r <> -4 /\
  (fst r = 0 ->
   trace w' = trace w ++ [Acquire ITEMS; Lock; Pop; Unlock; Release SLOTS]).
Proof.
  intros Hinv Hout. pose proof Hinv as (Hwf & [Hsum Hit] & Hm).
  pose proof (length_held _ Hwf) as Hlen.
  assert (forall w2, buffer w2 = buffer w -> buffer_inv w2) as Hsame.
  { intros w2 Hb. unfold buffer_inv, coupled. by rewrite Hb. }
  destruct Hout as [(Hr & _ & Hb & _)|[(Hr & _ & Hb & _)|[(Hr & _ & Hb & _)|
                   [(Hr & _ & Hb & Hpos & Hf & _)|(Hr & Hpos & q' & Hp & Hb & Ht)]]]];
    try (split_and!; [by apply Hsame|lia|lia]).
  - exfalso. apply Hf.
    destruct (queue_pop_ok (q (buffer w)) o Hwf ltac:(lia))
      as (q1 & m1 & -> & _). done.
  - split_and!; [|lia|done].
    destruct (queue_pop_ok (q (buffer w)) o Hwf ltac:(lia))
      as (q1 & m1 & Hp1 & Hm1 & Hi & Hheld & _ & Hwf1 & Hc1 & Hcap1 & _).
    rewrite Hp1 in Hp. simplify_eq.
    unfold buffer_inv, coupled. rewrite Hb. cbn [q s mtx items slots].
    split_and!; try done.
    + lia.
    + rewrite (length_held _ Hwf1). lia.
Qed.

Lemma put_keeps_null w rc w' :
  buffer_inv w -> ret (-1) w = Some (rc, w') -> put_keeps w rc w'.
Proof.
  intros Hinv H. apply ret_inv in H as [-> ->]. by split_and!.
Qed.

Lemma get_keeps_null (out : option msg_t) w r w' :
  buffer_inv w -> ret (-1, out) w = Some (r, w') -> get_keeps w r w'.
Proof.
  intros Hinv H. apply ret_inv in H as [-> ->]. by split_and!.
Qed.

Lemma buffer_put_keeps (b : ptr) m w rc w' :
  buffer_inv w -> buffer_put E retry b m w = Some (rc, w') ->
  put_keeps w rc w'.
Proof.
  intros Hinv H. destruct b, m as [m0|]; try by apply put_keeps_null.
  apply (put_outcome_inv m0); [done|].
  by apply buffer_put_cases; [apply buffer_inv_sems_valid|].
Qed.

Lemma buffer_get_keeps (b : ptr) (out : option msg_t) w r w' :
  buffer_inv w -> buffer_get E retry b out w = Some (r, w') ->
  get_keeps w r w'.
Proof.
  intros Hinv H. destruct b, out as [o|]; try by eapply get_keeps_null.
  apply (get_outcome_inv o); [done|].
  by apply buffer_get_cases; [apply buffer_inv_sems_valid|].
Qed.



(** A stopped call: the buffer is as before and the effects cancel. *)
Lemma put_stopped fuel (b stop : ptr) m poll w w' :
  sems_valid w ->
  buffer_put_interruptible E retry fuel b m stop poll w = Some (1, w') ->
  buffer w' = buffer w /\
  exists t, stop_trace SLOTS t /\ trace w' = trace w ++ t.
Proof.
  intros Hv H.
  destruct b, m as [m0|], stop;
    try (apply ret_inv in H as [? _]; discriminate).
  apply put_loop_cases in H; [|done].
  destruct H as [(_ & Hb & Ht)|[(? & _)|[(? & _)|[(? & _)|(? & _)]]]];
    try discriminate.
  by split.
Qed.

Lemma get_stopped fuel (b stop : ptr) (out out' : option msg_t) poll w w' :
  sems_valid w ->
  buffer_get_interruptible E retry fuel b out stop poll w
    = Some ((1, out'), w') ->
  buffer w' = buffer w /\ out' = out /\
  exists t, stop_trace ITEMS t /\ trace w' = trace w ++ t.
Proof.
  intros Hv H.
  destruct b, out as [o|], stop;
    try (apply ret_inv in H as [? _]; discriminate).
  apply get_loop_cases in H; [|done].
  destruct H as [(_ & Ho & Hb & Ht)|[(? & _)|[(? & _)|[(? & _)|(? & _)]]]];
    try discriminate.
  by split_and!.
Qed.

(** *** What a call run from rest leaves behind *)





(** *** The calls do return *)

(** With a free slot and neither the wait nor the lock cut short,
    [buffer_put] returns 0; [buffer_get] likewise with a held message. *)
Lemma buffer_put_returns (m : msg_t) w :
  buffer_inv w -> 0 < slots (s (buffer w)) ->
  fault_at E (now w) = None -> fault_at E (S (now w)) = None ->
  exists w', buffer_put E retry ADDR (Some m) w = Some (0, w').
Proof.
  intros Hinv Hpos Hf0 Hf1.
  pose proof (buffer_inv_sems_valid w Hinv) as (Hi & Hs & Hsum).
  destruct Hinv as (Hwf & [Hcp Hit] & Hm).
  rewrite (length_held _ Hwf) in Hit.
  destruct (queue_push_ok (q (buffer w)) m Hwf ltac:(lia))
    as (b & q' & _ & Hpush & _).
  destruct w as [[q0 [mt it sl]] n e tr dl].
  cbn -[queue_push queue_pop SEM_VALUE_MAX Z.ltb Z.add Z.sub] in *. subst mt.
  unfold buffer_put, field_of, sync_wait_slots, sem_wait_retry.
  cbn [sem_wait_loop]. unfold bind, sem_wait, get_errno, sync_lock,
    pthread_mutex_lock, on_queue_push.
  cbn -[queue_push SEM_VALUE_MAX Z.ltb Z.add Z.sub]. rewrite Hf0.
  pose proof Hpos as Hpos'. apply Z.ltb_lt in Hpos' as ->.
  cbn -[queue_push SEM_VALUE_MAX Z.ltb Z.add Z.sub]. rewrite Hf1.
  cbn -[queue_push SEM_VALUE_MAX Z.ltb Z.add Z.sub]. rewrite Hpush.
  cbn [Z.eqb]. norm_world.
  run_prims. assert ((it <? SEM_VALUE_MAX) = true) as ->
    by (apply Z.ltb_lt; lia).
  by eexists.
Qed.

Lemma buffer_get_returns (o : msg_t) w :
  buffer_inv w -> 0 < items (s (buffer w)) ->
  fault_at E (now w) = None -> fault_at E (S (now w)) = None ->
  exists r w', buffer_get E retry ADDR (Some o) w = Some (r, w') /\ fst r = 0.
Proof.
  intros Hinv Hpos Hf0 Hf1.
  pose proof (buffer_inv_sems_valid w Hinv) as (Hi & Hs & Hsum).
  destruct Hinv as (Hwf & [Hcp Hit] & Hm).
  rewrite (length_held _ Hwf) in Hit.
  destruct (queue_pop_ok (q (buffer w)) o Hwf ltac:(lia))
    as (q' & m' & Hpop & _).
  destruct w as [[q0 [mt it sl]] n e tr dl].
  cbn -[queue_push queue_pop SEM_VALUE_MAX Z.ltb Z.add Z.sub] in *. subst mt.
  unfold buffer_get, field_of, sync_wait_items, sem_wait_retry.
  cbn [sem_wait_loop]. unfold bind, sem_wait, get_errno, sync_lock,
    pthread_mutex_lock, on_queue_pop.
  cbn -[queue_pop SEM_VALUE_MAX Z.ltb Z.add Z.sub]. rewrite Hf0.
  pose proof Hpos as Hpos'. apply Z.ltb_lt in Hpos' as ->.
  cbn -[queue_pop SEM_VALUE_MAX Z.ltb Z.add Z.sub]. rewrite Hf1.
  cbn -[queue_pop SEM_VALUE_MAX Z.ltb Z.add Z.sub]. rewrite Hpop.
  cbn [Z.eqb]. norm_world.
  run_prims. assert ((sl <? SEM_VALUE_MAX) = true) as ->
    by (apply Z.ltb_lt; lia).
  by eexists _, _.
Qed.

(** With the stop flag up at entry an interruptible call returns 1 at once. *)
Lemma put_stopped_at_entry_returns fuel (m : msg_t) (poll_ms : Z) w :
  flag_at E (now w) <> 0 ->
  buffer_put_interruptible E retry (S fuel) ADDR (Some m) ADDR poll_ms w
  = Some (1, tick w).
Proof.
  intros Hf. unfold buffer_put_interruptible. cbn [put_loop].
  unfold bind, atomic_load. apply Z.eqb_neq in Hf. by rewrite Hf.
Qed.

Lemma get_stopped_at_entry_returns fuel (o : msg_t) (poll_ms : Z) w :
  flag_at E (now w) <> 0 ->
  buffer_get_interruptible E retry (S fuel) ADDR (Some o) ADDR poll_ms w
  = Some ((1, Some o), tick w).
Proof.
  intros Hf. unfold buffer_get_interruptible. cbn [get_loop].
  unfold bind, atomic_load. apply Z.eqb_neq in Hf. by rewrite Hf.
Qed.

(** [buffer_init] always returns: -2 as soon as the queue cannot be built,
    before any synchronisation object is touched; -3 when the queue was
    built and torn down again; 0 with a buffer at rest. *)
Lemma buffer_init_cases (cap : Z) w :
  exists rc w',
    buffer_init E ADDR cap w = Some (rc, w') /\
    ((rc = -2 /\
      fst (queue_init (Some (q (buffer w))) cap (alloc_at E (now w))) <> 0 /\
      s (buffer w') = s (buffer w) /\ trace w' = trace w) \/
     (rc = -3 /\
      fst (queue_init (Some (q (buffer w))) cap (alloc_at E (now w))) = 0 /\
      q (buffer w') = Q None 0 0 0) \/
     (rc = 0 /\
      fst (queue_init (Some (q (buffer w))) cap (alloc_at E (now w))) = 0 /\
      0 < cap <= INT_MAX /\
      buffer w' = Buffer (Q (Some (replicate (Z.to_nat cap) msg_zero)) cap 0 1)
                         (Sync false 0 cap))).
Proof.
  destruct w as [[q0 [mt it sl]] n e tr dl].
  unfold buffer_init, on_queue_init, queue_init, calloc, bind.
  cbn [buffer q now].
  destruct (cap <=? 0) eqn:Hcap.
  { eexists _, _. split; [reflexivity|]. left. by split_and!. }
  apply Z.leb_gt in Hcap.
  destruct (alloc_at E n).
  2:{ eexists _, _. split; [reflexivity|]. left. by split_and!. }
  cbn [nonzero Z.eqb negb].
  unfold sync_init, field_of, bind, pthread_mutex_init, sem_init.
  destruct (cap <=? 0) eqn:Hcap'; [apply Z.leb_le in Hcap'; lia|].
  cbn -[Z.ltb SEM_VALUE_MAX replicate].
  destruct (fault_at E (S n)).
  { eexists _, _. split; [reflexivity|]. right. left. by split_and!. }
  cbn -[Z.ltb SEM_VALUE_MAX replicate].
  change (SEM_VALUE_MAX <? 0) with false. cbv iota.
  destruct (fault_at E (S (S n))).
  { eexists _, _. split; [reflexivity|]. right. left. by split_and!. }
  cbn -[Z.ltb SEM_VALUE_MAX replicate].
  destruct (fault_at E (S (S (S n)))).
  { eexists _, _. split; [reflexivity|]. right. left. by split_and!. }
  destruct (SEM_VALUE_MAX <? cap) eqn:Hmax.
  { eexists _, _. split; [reflexivity|]. right. left. by split_and!. }
  apply Z.ltb_ge in Hmax.
  eexists _, _. split; [reflexivity|]. right. right.
  split_and!; done.
Qed.

Lemma fresh_buffer_inv (cap : Z) w :
  0 < cap <= INT_MAX ->
  buffer w = Buffer (Q (Some (replicate (Z.to_nat cap) msg_zero)) cap 0 1)
                    (Sync false 0 cap) ->
  buffer_inv w.
Proof.
  intros Hcap Hb. unfold buffer_inv, coupled, wf_queue. rewrite Hb.
  cbn [q s buf capacity count next_seq mtx items slots held].
  split_and!; try done; try lia.
  eexists. split; [reflexivity|]. rewrite length_replicate. lia.
Qed.

End BufferFacts.

(** ** Calls in progress *)

Section ThreadFacts.
Import Queue Machine Sync Buffer Threads.

Variable E : env.
Variable retry : nat.

Implicit Types (w : world) (t : thread) (ts : list thread).














(** *** A call on its own is a run of one thread *)









(** *** A run of one thread to its return is a call *)














End ThreadFacts.

Section BufferClaims.
Import Queue Machine Sync Buffer Threads.

Lemma w_ready_inv : buffer_inv w_ready.
Proof.
  unfold buffer_inv, coupled, wf_queue, w_ready, INT_MAX, ULONG_MAX.
  cbn. split_and!; try done; try lia. by eexists.
Qed.

Lemma w_ready_sems_valid : sems_valid w_ready.
Proof. unfold sems_valid, w_ready, SEM_VALUE_MAX. cbn. lia. Qed.






(** C7.  On a buffer at rest neither [buffer_put] nor [buffer_get] ever
    returns -4: once a slot token has been taken the queue has room and
    [queue_push] succeeds, once an item token has been taken the queue
    holds a message and [queue_pop] succeeds. *)
Theorem internal_inconsistency_unreachable
    (E : env) (retry : nat) (b : ptr) (m out : option msg_t) (w : world) :
  buffer_inv w ->
  (forall rc w', buffer_put E retry b m w = Some (rc, w') -> rc <> -4) /\
  (forall r w', buffer_get E retry b out w = Some (r, w') -> fst r <> -4).
Proof.
  intros Hinv. split.
  - intros rc w' H. by destruct (buffer_put_keeps E retry b m w rc w' Hinv H)
      as (_ & ? & _).
  - intros r w' H. by destruct (buffer_get_keeps E retry b out w r w' Hinv H)
      as (_ & ? & _).
Qed.

Lemma internal_inconsistency_unreachable_witness :
  buffer_inv w_ready /\
  (forall rc w',
     buffer_put E_quiet 0 ADDR (Some (Msg 7 3 1 0)) w_ready = Some (rc, w') ->
     rc <> -4).
Proof.
  split; [exact w_ready_inv|].
  exact (proj1 (internal_inconsistency_unreachable E_quiet 0 ADDR
                  (Some (Msg 7 3 1 0)) None w_ready w_ready_inv)).
Defined.

(** The branch is there: with the counters apart from the queue (a slot
    token on offer while the queue is full) [buffer_put] does return -4, and
    gives the token back. *)
Example inconsistency_seen_when_counters_diverge :
  (fun r => (fst r, s (buffer (snd r)), trace (snd r)))
    <$> buffer_put E_quiet 0 ADDR (Some (Msg 7 3 1 0)) w_diverged
  = Some (-4, Sync false 1 1,
          [Acquire SLOTS; Lock; Unlock; Release SLOTS]).
Proof. vm_compute. reflexivity. Qed.

(** C3.  When [buffer_put_interruptible] or [buffer_get_interruptible]
    returns 1, the buffer (queue contents, items, slots, mutex) is exactly
    as the call found it, and the call's effects are none at all, or a token
    taken and given back, or a token taken, the lock taken and released, and
    the token given back: every token taken is returned and the queue is
    never touched.  With the flag up at entry the call does return 1, at
    once. *)
Theorem stopped_call_leaves_buffer_as_found
    (E : env) (retry fuel : nat) (b stop : ptr) (m out out' : option msg_t)
    (poll_ms : Z) (w w' : world) :
  sems_valid w ->
  (buffer_put_interruptible E retry fuel b m stop poll_ms w = Some (1, w') ->
   buffer w' = buffer w /\
   exists t, stop_trace SLOTS t /\ trace w' = trace w ++ t) /\
  (buffer_get_interruptible E retry fuel b out stop poll_ms w
     = Some ((1, out'), w') ->
   buffer w' = buffer w /\ out' = out /\
   exists t, stop_trace ITEMS t /\ trace w' = trace w ++ t) /\
  (flag_at E (now w) <> 0 ->
   (forall m0,
      buffer_put_interruptible E retry (S fuel) ADDR (Some m0) ADDR poll_ms w
      = Some (1, tick w)) /\
   (forall o,
      buffer_get_interruptible E retry (S fuel) ADDR (Some o) ADDR poll_ms w
      = Some ((1, Some o), tick w))).
Proof.
  intros Hv. split_and!.
  - by apply put_stopped.
  - by apply get_stopped.
  - intros Hf. split; intros.
    + by apply put_stopped_at_entry_returns.
    + by apply get_stopped_at_entry_returns.
Qed.

(** The three places the flag can be seen, on a put into [w_ready]: at
    entry, after the slot token, after the lock. *)
Example put_stopped_at_entry :
  (fun r => (fst r, buffer (snd r), trace (snd r)))
    <$> buffer_put_interruptible (E_stop_from 0) 0 1 ADDR
          (Some (Msg 7 3 1 0)) ADDR 200 w_ready
  = Some (1, buffer w_ready, []).
Proof. vm_compute. reflexivity. Qed.

Example put_stopped_after_token :
  (fun r => (fst r, buffer (snd r), trace (snd r)))
    <$> buffer_put_interruptible (E_stop_from 3) 0 1 ADDR
          (Some (Msg 7 3 1 0)) ADDR 200 w_ready
  = Some (1, buffer w_ready, [Acquire SLOTS; Release SLOTS]).
Proof. vm_compute. reflexivity. Qed.

Example put_stopped_after_lock :
  (fun r => (fst r, buffer (snd r), trace (snd r)))
    <$> buffer_put_interruptible (E_stop_from 5) 0 1 ADDR
          (Some (Msg 7 3 1 0)) ADDR 200 w_ready
  = Some (1, buffer w_ready, [Acquire SLOTS; Lock; Unlock; Release SLOTS]).
Proof. vm_compute. reflexivity. Qed.

(** An empty buffer: the get polls until the flag is raised. *)
Example get_stopped_while_polling :
  (fun r => (fst r, buffer (snd r), trace (snd r)))
    <$> buffer_get_interruptible (E_stop_from 7) 0 4 ADDR
          (Some msg_zero) ADDR 200 w_ready
  = Some ((1, Some msg_zero), buffer w_ready, []).
Proof. vm_compute. reflexivity. Qed.

Lemma stopped_call_leaves_buffer_as_found_witness :
  sems_valid w_ready /\
  exists w',
    buffer_put_interruptible (E_stop_from 3) 0 1 ADDR (Some (Msg 7 3 1 0))
                             ADDR 200 w_ready = Some (1, w') /\
    buffer w' = buffer w_ready /\
    exists t, stop_trace SLOTS t /\ trace w' = trace w_ready ++ t.
Proof.
  split; [exact w_ready_sems_valid|].
  destruct (buffer_put_interruptible (E_stop_from 3) 0 1 ADDR
              (Some (Msg 7 3 1 0)) ADDR 200 w_ready)
    as [[rc w']|] eqn:Hrun; [|vm_compute in Hrun; discriminate].
  assert (rc = 1) as -> by (vm_compute in Hrun; by simplify_eq).
  exists w'. split; [reflexivity|].
  exact (proj1 (stopped_call_leaves_buffer_as_found (E_stop_from 3) 0 1
                  ADDR ADDR (Some (Msg 7 3 1 0)) None None 200 w_ready w'
                  w_ready_sems_valid) Hrun).
Defined.

(** C8.  [queue_init] returns -1 when the queue pointer is NULL or the
    capacity is not positive, -2 when the allocator returns NULL, and
    otherwise 0 with the given capacity, zero-filled storage of that many
    slots, count 0 and next_seq 1.  [buffer_init] always returns; on a
    buffer pointer it returns -2 exactly when [queue_init] failed, before
    any synchronisation object has been touched, and its other results are
    0 and -3; on a NULL pointer it returns -1. *)
Theorem construction_failures_surface :
  (forall (p : option queue_t) (cap : Z) (ok : bool),
     p = None \/ cap <= 0 -> fst (queue_init p cap ok) = -1) /\
  (forall (q0 : queue_t) (cap : Z),
     0 < cap ->
     queue_init (Some q0) cap false
     = (-2, Some (Q None (capacity q0) (count q0) (next_seq q0)))) /\
  (forall (q0 : queue_t) (cap : Z),
     0 < cap ->
     exists b,
       queue_init (Some q0) cap true = (0, Some (Q (Some b) cap 0 1)) /\
       Z.of_nat (length b) = cap /\
       held (Q (Some b) cap 0 1) = []) /\
  (forall (E : env) (cap : Z) (w : world),
     exists rc w',
       buffer_init E ADDR cap w = Some (rc, w') /\
       (rc = 0 \/ rc = -2 \/ rc = -3) /\
       (rc = -2 <->
        fst (queue_init (Some (q (buffer w))) cap (alloc_at E (now w))) <> 0)
       /\
       (rc = -2 -> s (buffer w') = s (buffer w) /\ trace w' = trace w)) /\
  (forall (E : env) (cap : Z) (w : world),
     buffer_init E NULL cap w = Some (-1, w)).
Proof.
  split_and!.
  - intros p cap ok [-> | Hcap]; [done|].
    destruct p as [q0|]; [|done]. unfold queue_init.
    apply Z.leb_le in Hcap. by rewrite Hcap.
  - intros q0 cap Hcap. unfold queue_init.
    apply Z.leb_gt in Hcap. by rewrite Hcap.
  - intros q0 cap Hcap. unfold queue_init, calloc.
    pose proof Hcap as Hcap'. apply Z.leb_gt in Hcap'. rewrite Hcap'.
    eexists. split; [reflexivity|]. split; [|done].
    rewrite length_replicate. lia.
  - intros E cap w.
    destruct (buffer_init_cases E cap w) as (rc & w' & Hrun & Hcases).
    exists rc, w'. split; [done|].
    destruct Hcases as [(-> & Hf & Hs & Ht)|[(-> & Hf & _)|(-> & Hf & _)]].
    + split_and!; [by right; left|done|done].
    + split_and!; [by right; right|split; [done|by rewrite Hf]|done].
    + split_and!; [by left|split; [done|by rewrite Hf]|done].
  - done.
Qed.

Lemma construction_failures_surface_witness :
  0 < 2 /\ (Some (Q None 0 0 0) = None \/ -3 <= 0) /\
  fst (queue_init (Some (Q None 0 0 0)) (-3) true) = -1 /\
  queue_init (Some (Q None 5 6 7)) 2 false = (-2, Some (Q None 5 6 7)) /\
  exists b,
    queue_init (Some (Q None 0 0 0)) 2 true = (0, Some (Q (Some b) 2 0 1)) /\
    Z.of_nat (length b) = 2 /\ held (Q (Some b) 2 0 1) = [].
Proof.
  destruct construction_failures_surface as (H1 & H2 & H3 & _).
  assert (0 < 2) as Hpos by lia.
  assert (Some (Q None 0 0 0) = None \/ -3 <= 0) as Harg by (right; lia).
  split; [exact Hpos|]. split; [exact Harg|].
  split; [exact (H1 (Some (Q None 0 0 0)) (-3) true Harg)|].
  split; [exact (H2 (Q None 5 6 7) 2 Hpos)|].
  exact (H3 (Q None 0 0 0) 2 Hpos).
Defined.

(** Construction end to end: [buffer_init] builds [w_ready]'s buffer; with
    no memory it returns -2; with capacity 0 it returns -2 as well. *)
Example buffer_init_builds_w_ready :
  (fun r => (fst r, buffer (snd r))) <$> buffer_init E_quiet ADDR 2 w_blank
  = Some (0, buffer w_ready).
Proof. vm_compute. reflexivity. Qed.

Example buffer_init_without_memory :
  fst <$> buffer_init E_no_memory ADDR 2 w_blank = Some (-2).
Proof. vm_compute. reflexivity. Qed.

Example buffer_init_capacity_zero :
  fst <$> buffer_init E_quiet ADDR 0 w_blank = Some (-2).
Proof. vm_compute. reflexivity. Qed.

End BufferClaims.

(** * Further properties of the code *)

(** ** queue.c: how the operations compose *)

Section QueueExtras.
Import Queue.

Implicit Types (q : queue_t) (m o : msg_t).

(** The removal that follows the insertion of a message more urgent than
    all held ones. *)
Lemma pop_after_urgent_push q q1 m o :
  wf_queue q -> count q < capacity q ->
  Forall (fun x => priority x < priority m) (held q) ->
  queue_push (Some q) (Some m) = (0, Some q1) ->
  exists q2,
    queue_pop (Some q1) (Some o)
      = (0, Some q2, Some (with_seq m (next_seq q))) /\
    held q2 = held q /\ count q2 = count q.
Proof.
  intros Hwf Hroom Hlow Hpush0.
  destruct (queue_push_ok q m Hwf Hroom)
    as (b & q1' & Hb & Hpush & Hq1 & Hheld1 & Hwf1).
  assert (q1' = q1) as Heq by congruence.
  rewrite Heq in Hpush, Hheld1, Hwf1.
  assert (count q1 = count q + 1) as Hc1 by (by rewrite <- Heq, Hq1).
  pose proof (length_held q Hwf) as Hlen.
  destruct (queue_pop_ok q1 o Hwf1 ltac:(destruct Hwf as (_ & ? & _); lia))
    as (q2 & m' & Hpop & Hm' & Hi & Hheld2 & Hbest & _ & Hc2 & _).
  set (idx := Z.to_nat (best_index_to_pop q1)) in *.
  rewrite Hheld1 in Hm', Hi, Hheld2, Hbest.
  assert (idx = length (held q)) as Hidx.
  { destruct (decide (idx < length (held q))%nat) as [Hlt|Hge].
    - rewrite lookup_app_l in Hm' by done.
      apply list_elem_of_lookup_2 in Hm'.
      rewrite Forall_forall in Hlow. specialize (Hlow m' Hm').
      apply Forall_app in Hbest as [_ Hlast].
      apply Forall_inv in Hlast. unfold no_worse in Hlast.
      simpl in Hlast. lia.
    - rewrite length_app in Hi. simpl in Hi. lia. }
  rewrite Hidx in Hm', Hheld2.
  rewrite list_lookup_middle in Hm' by done. injection Hm' as <-.
  exists q2. split; [done|]. split; [|lia].
  rewrite Hheld2. rewrite delete_take_drop.
  rewrite take_app_length.
  rewrite drop_app_ge by lia.
  replace (S (length (held q)) - length (held q))%nat with 1%nat by lia.
  simpl. by rewrite app_nil_r.
Qed.

(** X1.  Inserting a message whose priority is strictly greater than that
    of every held message and removing at once hands that very message
    back, stamped with the sequence number current at the insertion, and
    leaves the held messages as they were. *)
Theorem push_then_pop_returns_urgent q m o :
  wf_queue q -> count q < capacity q ->
  Forall (fun x => priority x < priority m) (held q) ->
  exists q1 q2,
    queue_push (Some q) (Some m) = (0, Some q1) /\
    queue_pop (Some q1) (Some o)
      = (0, Some q2, Some (with_seq m (next_seq q))) /\
    held q2 = held q /\ count q2 = count q.
Proof.
  intros Hwf Hroom Hlow.
  destruct (queue_push_ok q m Hwf Hroom) as (b & q1 & _ & Hpush & _).
  destruct (pop_after_urgent_push q q1 m o Hwf Hroom Hlow Hpush)
    as (q2 & Hpop & Hheld & Hc).
  by exists q1, q2.
Qed.

Lemma push_then_pop_returns_urgent_witness :
  wf_queue q_three /\ count q_three < capacity q_three /\
  Forall (fun x => priority x < priority (Msg 5 9 4 0)) (held q_three) /\
  exists q1 q2,
    queue_push (Some q_three) (Some (Msg 5 9 4 0)) = (0, Some q1) /\
    queue_pop (Some q1) (Some msg_zero) = (0, Some q2, Some (Msg 5 9 4 4)) /\
    held q2 = held q_three /\ count q2 = count q_three.
Proof.
  assert (count q_three < capacity q_three) as Hroom by (simpl; lia).
  assert (Forall (fun x => priority x < priority (Msg 5 9 4 0))
                 (held q_three)) as Hlow.
  { unfold held, q_three. simpl. repeat constructor; simpl; lia. }
  split; [exact q_three_wf|]. split; [exact Hroom|]. split; [exact Hlow|].
  exact (push_then_pop_returns_urgent q_three (Msg 5 9 4 0) msg_zero
           q_three_wf Hroom Hlow).
Defined.

(** X2.  A late arrival does not overtake.  On a queue whose held sequence
    numbers are distinct and below [next_seq], a message inserted when some
    held message has at least its priority does not change what the next
    removal hands out: the removal after the insertion returns the same
    message as a removal without it would have, and the new message stays
    behind, last. *)
Theorem late_arrival_does_not_overtake q m o :
  wf_queue q -> count q < capacity q ->
  Forall (fun x => seq x < next_seq q) (held q) ->
  NoDup (seq <$> held q) ->
  Exists (fun x => priority m <= priority x) (held q) ->
  exists qa out q1 qb,
    queue_pop (Some q) (Some o) = (0, Some qa, Some out) /\
    queue_push (Some q) (Some m) = (0, Some q1) /\
    queue_pop (Some q1) (Some o) = (0, Some qb, Some out) /\
    held qb = held qa ++ [with_seq m (next_seq q)].
Proof.
  intros Hwf Hroom Hseq Hnd Hex.
  pose proof (length_held q Hwf) as Hlen.
  assert (count q <> 0) as Hne.
  { apply Exists_exists in Hex as (x & Hx & _).
    destruct (held q); [by apply elem_of_nil in Hx|simpl in Hlen; lia]. }
  destruct (queue_pop_ok q o Hwf Hne)
    as (qa & out & Hpopa & Hout & Hia & Hhelda & Hbesta & _).
  destruct (queue_push_ok q m Hwf Hroom)
    as (b & q1 & Hb & Hpush & Hq1 & Hheld1 & Hwf1).
  assert (count q1 = count q + 1) as Hc1 by (by subst q1).
  destruct (queue_pop_ok q1 o Hwf1 ltac:(destruct Hwf as (_ & ? & _); lia))
    as (qb & m' & Hpopb & Hm' & Hib & Hheldb & Hbestb & _).
  set (ia := Z.to_nat (best_index_to_pop q)) in *.
  set (ib := Z.to_nat (best_index_to_pop q1)) in *.
  set (tmp := with_seq m (next_seq q)) in *.
  rewrite Hheld1 in Hm', Hib, Hheldb, Hbestb.
  rewrite Forall_forall in Hseq, Hbesta, Hbestb.
  pose proof (Hseq out (list_elem_of_lookup_2 _ _ _ Hout)) as Hso.
  (* the removal without the insertion is no worse than the new message *)
  assert (priority m <= priority out) as Hpo.
  { apply Exists_exists in Hex as (x & Hx & Hpx).
    destruct (Hbesta x Hx) as [Hle _]. lia. }
  (* so the removal after the insertion does not pick the new message *)
  assert (ib < length (held q))%nat as Hlt.
  { destruct (decide (ib < length (held q))%nat) as [|Hge]; [done|].
    exfalso. rewrite length_app in Hib. simpl in Hib.
    assert (ib = length (held q)) as Hib' by lia.
    rewrite Hib', list_lookup_middle in Hm' by done. injection Hm' as <-.
    assert (out ∈ held q ++ [tmp]) as Hin
      by (apply elem_of_app; left; by eapply list_elem_of_lookup_2).
    destruct (Hbestb out Hin) as [Hle Htie]. unfold tmp in *.
    simpl in *. lia. }
  rewrite lookup_app_l in Hm' by done.
  (* both are best among the held ones: same priority, same number *)
  assert (seq m' = seq out) as Hsame.
  { destruct (Hbesta m' (list_elem_of_lookup_2 _ _ _ Hm')) as [H1 H2].
    assert (out ∈ held q ++ [tmp]) as Hin
      by (apply elem_of_app; left; by eapply list_elem_of_lookup_2).
    destruct (Hbestb out Hin) as [H3 H4]. lia. }
  assert (ib = ia) as Hi.
  { eapply NoDup_lookup; [exact Hnd|..].
    - rewrite list_lookup_fmap, Hm'. simpl. by rewrite Hsame.
    - by rewrite list_lookup_fmap, Hout. }
  rewrite Hi in Hm', Hheldb. rewrite Hout in Hm'. injection Hm' as <-.
  exists qa, out, q1, qb. split_and!; try done.
  rewrite Hheldb, Hhelda, !delete_take_drop.
  rewrite take_app_le, drop_app_le by lia. by rewrite app_assoc.
Qed.

Lemma late_arrival_does_not_overtake_witness :
  wf_queue q_three /\ count q_three < capacity q_three /\
  exists qa out q1 qb,
    queue_pop (Some q_three) (Some msg_zero) = (0, Some qa, Some out) /\
    queue_push (Some q_three) (Some (Msg 5 7 4 0)) = (0, Some q1) /\
    queue_pop (Some q1) (Some msg_zero) = (0, Some qb, Some out) /\
    held qb = held qa ++ [with_seq (Msg 5 7 4 0) (next_seq q_three)].
Proof.
  assert (count q_three < capacity q_three) as Hroom by (simpl; lia).
  split; [exact q_three_wf|]. split; [exact Hroom|].
  apply (late_arrival_does_not_overtake q_three (Msg 5 7 4 0) msg_zero
           q_three_wf Hroom).
  - unfold held, q_three. simpl. repeat constructor; simpl; lia.
  - unfold held, q_three. simpl. apply (bool_decide_unpack _).
    vm_compute. exact I.
  - unfold held, q_three. simpl. right. left. simpl. lia.
Defined.

(** X3.  [queue_push] and [queue_pop] return 0, -1 or -2 and nothing else;
    whenever the result is not 0 the queue, and for [queue_pop] the caller's
    cell, are exactly as before; and -1 is returned exactly when a pointer
    argument or the storage pointer is NULL, which is checked before
    fullness or emptiness. *)
Theorem queue_calls_fail_cleanly
    (p : option queue_t) (m out : option msg_t) :
  let r := queue_push p m in
  let r' := queue_pop p out in
  (fst r = 0 \/ fst r = -1 \/ fst r = -2) /\
  (fst r <> 0 -> snd r = p) /\
  (fst r = -1 <->
   p = None \/ m = None \/ exists q, p = Some q /\ buf q = None) /\
  (fst (fst r') = 0 \/ fst (fst r') = -1 \/ fst (fst r') = -2) /\
  (fst (fst r') <> 0 -> snd (fst r') = p /\ snd r' = out) /\
  (fst (fst r') = -1 <->
   p = None \/ out = None \/ exists q, p = Some q /\ buf q = None).
Proof.
  cbv zeta. split_and!.
  - unfold queue_push. destruct p as [q|], m as [m0|]; simpl; auto.
    destruct (buf q); simpl; auto. destruct (count q >=? capacity q); auto.
  - apply queue_push_fail_unchanged.
  - unfold queue_push. destruct p as [q|], m as [m0|]; simpl;
      try (split; [auto|done]).
    destruct (buf q) as [b|] eqn:Hb; simpl.
    + destruct (count q >=? capacity q); simpl; split; try done;
        intros [?|[?|(q' & ? & ?)]]; simplify_eq.
    + split; [|done]. intros _. right. right. by exists q.
  - unfold queue_pop. destruct p as [q|], out as [o|]; simpl; auto.
    destruct (buf q); simpl; auto. destruct (count q =? 0); auto.
  - apply queue_pop_fail_unchanged.
  - unfold queue_pop. destruct p as [q|], out as [o|]; simpl;
      try (split; [auto|done]).
    destruct (buf q) as [b|] eqn:Hb; simpl.
    + destruct (count q =? 0); simpl; split; try done;
        intros [?|[?|(q' & ? & ?)]]; simplify_eq.
    + split; [|done]. intros _. right. right. by exists q.
Qed.

(** X4.  After [queue_destroy] the storage is gone and the counters are
    zero: every insertion and removal is refused with -1 and changes
    nothing, the queue reports itself both empty and full, and destroying
    again changes nothing.  A later [queue_init] with a positive capacity
    gives the same result whatever the fields held before. *)
Theorem destroyed_queue_rejects_calls q q' m o (cap : Z) :
  let d := queue_destroy (Some q) in
  queue_push d (Some m) = (-1, d) /\
  queue_pop d (Some o) = (-1, d, Some o) /\
  queue_is_empty d = true /\ queue_is_full d = true /\
  queue_destroy d = d /\
  (0 < cap -> queue_init d cap true = queue_init (Some q') cap true).
Proof.
  cbv zeta. split_and!; try done.
  intros Hcap. unfold queue_init. simpl.
  apply Z.leb_gt in Hcap. by rewrite Hcap.
Qed.

Lemma destroyed_queue_rejects_calls_witness :
  0 < 2 /\
  queue_init (queue_destroy (Some q_three)) 2 true
  = queue_init (Some q_one_of_two) 2 true.
Proof.
  assert (0 < 2) as H by lia. split; [exact H|].
  destruct (destroyed_queue_rejects_calls q_three q_one_of_two msg_zero
              msg_zero 2) as (_ & _ & _ & _ & _ & Hinit).
  exact (Hinit H).
Defined.

(** X5.  Every call of [queue_push] and [queue_pop] on a well-formed queue,
    whatever its result, leaves a well-formed queue with the same capacity
    and storage of the same size. *)
Theorem queue_calls_keep_wf q (m out : option msg_t) :
  wf_queue q ->
  (exists q', snd (queue_push (Some q) m) = Some q' /\
     wf_queue q' /\ capacity q' = capacity q /\
     length <$> buf q' = length <$> buf q) /\
  (exists q', snd (fst (queue_pop (Some q) out)) = Some q' /\
     wf_queue q' /\ capacity q' = capacity q /\
     length <$> buf q' = length <$> buf q).
Proof.
  intros Hwf. pose proof Hwf as ((b & Hb & Hl) & Hc & Hcap & Hseq). split.
  - destruct (decide (fst (queue_push (Some q) m) = 0)) as [H0|Hne].
    + destruct m as [m0|]; [|done].
      destruct (Z.eq_dec (count q) (capacity q)) as [Hfull|Hroom].
      { rewrite queue_push_full in H0
          by (auto using wf_queue_has_buf; lia). done. }
      destruct (queue_push_ok q m0 Hwf ltac:(lia))
        as (b' & q' & Hb' & Hpush & Hq' & _ & Hwf').
      rewrite Hpush. exists q'. split; [done|]. split; [done|].
      subst q'. simpl. split; [done|]. rewrite Hb'. simpl.
      by rewrite length_insert.
    + rewrite queue_push_fail_unchanged by done. by exists q.
  - destruct (decide (fst (fst (queue_pop (Some q) out)) = 0)) as [H0|Hne].
    + destruct out as [o|]; [|done].
      destruct (Z.eq_dec (count q) 0) as [Hempty|Hsome].
      { rewrite queue_pop_empty in H0 by auto using wf_queue_has_buf.
        done. }
      destruct (queue_pop_ok q o Hwf Hsome)
        as (q' & m' & Hpop & _ & _ & _ & _ & Hwf' & _ & Hcap' & _).
      rewrite Hpop. exists q'. split; [done|]. split; [done|].
      split; [done|].
      destruct Hwf' as ((b' & Hb' & Hl') & _). rewrite Hb', Hb. simpl.
      f_equal. lia.
    + destruct (queue_pop_fail_unchanged (Some q) out Hne) as [-> _].
      by exists q.
Qed.

Lemma queue_calls_keep_wf_witness :
  wf_queue q_three /\
  exists q', snd (queue_push (Some q_three) (Some (Msg 5 7 4 0))) = Some q' /\
     wf_queue q' /\ capacity q' = capacity q_three /\
     length <$> buf q' = length <$> buf q_three.
Proof.
  split; [exact q_three_wf|].
  exact (proj1 (queue_calls_keep_wf q_three (Some (Msg 5 7 4 0)) None
                  q_three_wf)).
Defined.

End QueueExtras.

(** ** sync.c: deadlines, initialisation, interrupted waits *)

Section SyncExtras.
Import Queue Machine Sync Buffer.

Implicit Types (w : world) (i : sem_id) (ts : timespec).

Lemma normalized_to_ns_inj ts1 ts2 :
  normalized ts1 -> normalized ts2 -> to_ns ts1 = to_ns ts2 -> ts1 = ts2.
Proof.
  destruct ts1 as [s1 n1], ts2 as [s2 n2]. unfold normalized, to_ns. simpl.
  intros H1 H2 Heq. assert (s1 = s2) by lia. subst. f_equal. lia.
Qed.

(** X6.  Deadlines add up: advancing a normalized time by [a] and then by
    [b] milliseconds, both non-negative, gives the same [timespec] as
    advancing it once by [a + b]; advancing by 0 changes nothing. *)
Theorem add_ms_to_timespec_adds_up ts (a b : Z) :
  normalized ts -> 0 <= a -> 0 <= b ->
  add_ms_to_timespec (add_ms_to_timespec ts a) b
  = add_ms_to_timespec ts (a + b) /\
  add_ms_to_timespec ts 0 = ts.
Proof.
  intros Hn Ha Hb. split.
  - apply normalized_to_ns_inj.
    + by repeat apply add_ms_normalized.
    + apply add_ms_normalized; [done|lia].
    + rewrite !add_ms_exact. lia.
  - apply normalized_to_ns_inj; [by apply add_ms_normalized|done|].
    rewrite add_ms_exact. lia.
Qed.

Lemma add_ms_to_timespec_adds_up_witness :
  normalized (Timespec 10 950000000) /\ 0 <= 200 /\ 0 <= 1900 /\
  add_ms_to_timespec (add_ms_to_timespec (Timespec 10 950000000) 200) 1900
  = add_ms_to_timespec (Timespec 10 950000000) (200 + 1900).
Proof.
  assert (normalized (Timespec 10 950000000)) as Hn
    by (unfold normalized; simpl; lia).
  assert (0 <= 200) as Ha by lia. assert (0 <= 1900) as Hb by lia.
  split; [exact Hn|]. split; [exact Ha|]. split; [exact Hb|].
  exact (proj1 (add_ms_to_timespec_adds_up (Timespec 10 950000000) 200 1900
                  Hn Ha Hb)).
Defined.

(** X7.  With a negative timeout the deadline is still the reading moved by
    exactly that many milliseconds, but it is normalized only if the
    reading's nanoseconds cover the millisecond remainder: the code carries
    into the seconds, it never borrows from them. *)
Theorem add_ms_to_timespec_never_borrows ts (ms : Z) :
  normalized ts ->
  to_ns (add_ms_to_timespec ts ms) = to_ns ts + ms * 1000000 /\
  (normalized (add_ms_to_timespec ts ms) <->
   0 <= tv_nsec ts + Z.rem ms 1000 * 1000000).
Proof.
  intros Hn. split; [apply add_ms_exact|].
  unfold add_ms_to_timespec, normalized in *.
  assert (-1000 < Z.rem ms 1000 < 1000) as Hr.
  { pose proof (Z.rem_bound_abs ms 1000 ltac:(lia)). lia. }
  destruct (_ >=? _) eqn:Hge; rewrite Z.geb_leb in Hge; simpl.
  - apply Z.leb_le in Hge. lia.
  - apply Z.leb_gt in Hge. lia.
Qed.

Lemma add_ms_to_timespec_never_borrows_witness :
  normalized (Timespec 5 0) /\
  to_ns (add_ms_to_timespec (Timespec 5 0) (-1)) = 4999000000 /\
  ~ normalized (add_ms_to_timespec (Timespec 5 0) (-1)).
Proof.
  assert (normalized (Timespec 5 0)) as Hn by (unfold normalized; simpl; lia).
  destruct (add_ms_to_timespec_never_borrows (Timespec 5 0) (-1) Hn)
    as [Hex Hiff].
  split; [exact Hn|]. split; [exact Hex|].
  intros H. apply Hiff in H. vm_compute in H. by apply H.
Defined.

(** X8.  [sync_init] always returns, with 0, -1, -2, -3 or -4.  It returns
    -1 exactly when the pointer is NULL or the capacity is not positive,
    and then touches nothing; it returns 0 only for a positive capacity,
    with the mutex free, [items] at 0 and [slots] at the capacity; and in no
    case does it touch the queue. *)
Theorem sync_init_outcomes (E : env) (y : ptr) (cap : Z) w :
  exists rc w',
    sync_init E y cap w = Some (rc, w') /\
    (rc = 0 \/ rc = -1 \/ rc = -2 \/ rc = -3 \/ rc = -4) /\
    (rc = -1 <-> y = NULL \/ cap <= 0) /\
    (rc = -1 -> w' = w) /\
    (rc = 0 -> 0 < cap /\ s (buffer w') = Sync false 0 cap) /\
    q (buffer w') = q (buffer w) /\ trace w' = trace w.
Proof.
  destruct w as [[q0 [mt it sl]] n e tr dl].
  unfold sync_init. destruct y.
  { eexists _, _. split; [reflexivity|]. split_and!; naive_solver lia. }
  destruct (cap <=? 0) eqn:Hcap.
  { apply Z.leb_le in Hcap. eexists _, _. split; [reflexivity|].
    split_and!; naive_solver lia. }
  apply Z.leb_gt in Hcap.
  unfold bind, pthread_mutex_init, sem_init, pthread_mutex_destroy,
    sem_destroy, ret.
  cbn -[Z.ltb SEM_VALUE_MAX].
  destruct (fault_at E n).
  { eexists _, _. split; [reflexivity|]. split_and!; naive_solver lia. }
  cbn -[Z.ltb SEM_VALUE_MAX].
  destruct (fault_at E (S n)).
  { eexists _, _. split; [reflexivity|]. split_and!; naive_solver lia. }
  change (SEM_VALUE_MAX <? 0) with false. cbn -[Z.ltb SEM_VALUE_MAX].
  destruct (fault_at E (S (S n))).
  { eexists _, _. split; [reflexivity|]. split_and!; naive_solver lia. }
  destruct (SEM_VALUE_MAX <? cap).
  { eexists _, _. split; [reflexivity|]. split_and!; naive_solver lia. }
  eexists _, _. split; [reflexivity|]. split_and!; naive_solver lia.
Qed.

Lemma sem_wait_loop_errno i (E : env) : forall fuel w rc w',
  sem_wait_loop E fuel i w = Some (rc, w') ->
  rc = -1 -> errno w' <> EINTR.
Proof.
  induction fuel as [|fuel IH]; intros w rc w' H Hrc; [done|].
  cbn [sem_wait_loop] in H.
  apply bind_inv in H as (rc1 & w1 & H1 & H).
  apply bind_inv in H as (e & w2 & H2 & H).
  unfold get_errno in H2. simplify_eq.
  destruct ((rc1 =? -1) && (errno w2 =? EINTR)) eqn:Htest.
  - by eapply IH.
  - apply ret_inv in H as [Hr ->]. rewrite <- Hr in Htest.
    simpl in Htest. by apply Z.eqb_neq in Htest.
Qed.

Lemma sem_wait_loop_absorbs i (E : env) : forall (k fuel : nat) w,
  (k < fuel)%nat ->
  (forall j : nat, (j < k)%nat -> fault_at E (now w + j) = Some Interrupted) ->
  fault_at E (now w + k) = None ->
  0 < sem_value i (s (buffer w)) ->
  exists w',
    sem_wait_loop E fuel i w = Some (0, w') /\
    took i w w' /\ now w' = (now w + S k)%nat.
Proof.
  induction k as [|k IH]; intros fuel [b n e tr dl] Hk Hint Hok Hpos;
    (destruct fuel as [|fuel]; [lia|]); cbn [sem_wait_loop];
    unfold bind at 1; unfold sem_wait; cbn [now buffer] in *.
  - rewrite Nat.add_0_r in Hok. rewrite Hok.
    pose proof Hpos as Hpos'. apply Z.ltb_lt in Hpos' as ->.
    unfold bind, get_errno. cbn [Z.eqb andb]. unfold ret.
    eexists. split; [reflexivity|]. split; [by split|].
    cbn. lia.
  - pose proof (Hint 0%nat ltac:(lia)) as H0.
    rewrite Nat.add_0_r in H0. rewrite H0.
    unfold bind, get_errno. cbn [errno with_errno fault_errno tick].
    change ((-1 =? -1) && (EINTR =? EINTR)) with true. cbv iota.
    destruct (IH fuel (World b (S n) EINTR tr dl))
      as (w' & Hrun & Htook & Hnow); cbn [now buffer].
    + lia.
    + intros j Hj.
      replace (S n + j)%nat with (n + S j)%nat by lia. apply Hint. lia.
    + by replace (S n + k)%nat with (n + S k)%nat by lia.
    + done.
    + exists w'. split; [exact Hrun|]. split; [exact Htook|].
      rewrite Hnow. cbn. lia.
Qed.

(** X9.  Interrupted waits are retried, not reported.  [sync_wait_items] and
    [sync_wait_slots] return 0 with exactly one token taken, or -1 with
    nothing taken and an error that is not EINTR.  When a token is there, a
    wait that is interrupted [k] times and then left alone returns 0 all the
    same, after [k + 1] attempts. *)
Theorem blocking_wait_absorbs_signals
    (E : env) (retry : nat) (i : sem_id) (k : nat) w :
  let wait :=
    match i with
    | ITEMS => sync_wait_items E retry ADDR
    | SLOTS => sync_wait_slots E retry ADDR
    end in
  (forall rc w', wait w = Some (rc, w') ->
     (rc = 0 /\ took i w w') \/
     (rc = -1 /\ untouched w w' /\ errno w' <> EINTR)) /\
  ((k <= retry)%nat ->
   (forall j : nat, (j < k)%nat -> fault_at E (now w + j) = Some Interrupted) ->
   fault_at E (now w + k) = None ->
   0 < sem_value i (s (buffer w)) ->
   exists w', wait w = Some (0, w') /\ took i w w' /\
              now w' = (now w + S k)%nat).
Proof.
  intros wait.
  assert (wait = sem_wait_loop E (S retry) i) as -> by (by destruct i).
  split.
  - intros rc w' H. pose proof (sem_wait_loop_errno _ _ _ _ _ _ H) as He.
    apply sem_wait_loop_inv in H as [[-> Ht]|[-> Hu]]; [by left|].
    right. split_and!; try done. by apply He.
  - intros Hk Hint Hok Hpos. apply sem_wait_loop_absorbs; try done. lia.
Qed.

Lemma blocking_wait_absorbs_signals_witness :
  exists w',
    sync_wait_slots
      (Env (fun _ => 0) (fun _ => Some clock_reading)
           (fun t => if (t <? 2)%nat then Some Interrupted else None)
           (fun _ => true) (fun _ => true)) 2 ADDR w_ready = Some (0, w') /\
    now w' = 3%nat.
Proof.
  set (E := Env (fun _ => 0) (fun _ => Some clock_reading)
                (fun t => if (t <? 2)%nat then Some Interrupted else None)
                (fun _ => true) (fun _ => true)).
  destruct (proj2 (blocking_wait_absorbs_signals E 2 SLOTS 2 w_ready))
    as (w' & Hrun & _ & Hnow).
  - lia.
  - intros j Hj. destruct j as [|[|j]]; [done|done|lia].
  - done.
  - cbn. lia.
  - exists w'. by split.
Defined.

End SyncExtras.

(** ** buffer.c: counting, construction, full and empty buffers *)

Section BufferExtras.
Import Queue Machine Sync Buffer.

Variable E : env.
Variable retry : nat.

Implicit Types (w : world) (i : sem_id) (rc : Z).

(** X10.  On a buffer at rest [buffer_count] always returns and leaves the
    buffer as it found it.  If the lock cannot be taken the result is -2;
    otherwise it is the number of held messages, which is also the value of
    [items] and lies between 0 and the capacity, read between taking and
    releasing the lock.  The result -3 does not occur. *)
Theorem buffer_count_reads_held_count w :
  buffer_inv w ->
  exists rc w',
    buffer_count E ADDR w = Some (rc, w') /\
    buffer w' = buffer w /\
    ((fault_at E (now w) <> None /\ rc = -2 /\ trace w' = trace w) \/
     (fault_at E (now w) = None /\
      rc = Z.of_nat (length (held (q (buffer w)))) /\
      rc = items (s (buffer w)) /\
      0 <= rc <= capacity (q (buffer w)) /\
      trace w' = trace w ++ [Lock; Unlock])).
Proof.
  intros (Hwf & [Hsum Hit] & Hm).
  pose proof (length_held _ Hwf) as Hlen.
  destruct Hwf as (_ & Hc & _).
  destruct w as [[q0 [mt it sl]] n e tr dl]. cbn in *. subst mt.
  unfold buffer_count, field_of, bind, sync_lock, pthread_mutex_lock.
  cbn [now buffer s mtx].
  destruct (fault_at E n) eqn:Hf.
  - eexists _, _. split; [reflexivity|]. split; [done|]. left. by split_and!.
  - unfold sync_unlock, pthread_mutex_unlock, nonzero, ret, bind, record,
      with_sync, set_mtx.
    cbn. eexists _, _. split; [reflexivity|]. split; [done|]. right.
    split_and!; try done; try lia. by rewrite <- (assoc_L (++)).
Qed.

(** One poll of the interruptible put when no slot token is there: it ends
    stopped or failed, or goes round again, and touches nothing. *)
Lemma no_token_put_poll (fuel' : nat) (m : msg_t) (poll_ms : Z) w rc w' :
  slots (s (buffer w)) <= 0 ->
  (forall w0 rc0 w0',
     slots (s (buffer w0)) <= 0 ->
     put_loop E retry fuel' ADDR (Some m) poll_ms w0 = Some (rc0, w0') ->
     (rc0 = 1 \/ rc0 = -2) /\ untouched w0 w0') ->
  put_loop E retry (S fuel') ADDR (Some m) poll_ms w = Some (rc, w') ->
  (rc = 1 \/ rc = -2) /\ untouched w w'.
Proof.
  intros Hnone IH H. cbn [put_loop] in H.
  apply bind_inv in H as (f & w0 & Hload & H).
  apply atomic_load_inv in Hload as [-> ->].
  destruct (flag_at E (now w) =? 0).
  2:{ apply ret_inv in H as [-> ->]. split; [by left|]. by split. }
  apply bind_inv in H as (r & w1 & Hwait & H).
  unfold sync_timedwait_slots, field_of in Hwait.
  apply sem_timedwait_retry_inv in Hwait
    as [[[-> (Hpos & _)]|[[-> [Hu _]]|[Hr Hu]]] _].
  - cbn in Hpos. lia.
  - cbn [Z.eqb] in H. apply IH in H as [Hrc Hu'].
    + split; [exact Hrc|]. eapply untouched_trans; [exact Hu|exact Hu'].
    + destruct Hu as [Hb _]. rewrite Hb. exact Hnone.
  - assert ((r =? 1) = false) as Hn1 by (destruct Hr as [-> | ->]; done).
    assert (nonzero r = true) as Hnz by (destruct Hr as [-> | ->]; done).
    rewrite Hn1, Hnz in H. apply ret_inv in H as [-> ->].
    split; [by right|exact Hu].
Qed.

Lemma no_token_get_poll (fuel' : nat) (o : msg_t) (poll_ms : Z) w r w' :
  items (s (buffer w)) <= 0 ->
  (forall w0 r0 w0',
     items (s (buffer w0)) <= 0 ->
     get_loop E retry fuel' ADDR (Some o) poll_ms w0 = Some (r0, w0') ->
     (r0 = (1, Some o) \/ r0 = (-2, Some o)) /\ untouched w0 w0') ->
  get_loop E retry (S fuel') ADDR (Some o) poll_ms w = Some (r, w') ->
  (r = (1, Some o) \/ r = (-2, Some o)) /\ untouched w w'.
Proof.
  intros Hnone IH H. cbn [get_loop] in H.
  apply bind_inv in H as (f & w0 & Hload & H).
  apply atomic_load_inv in Hload as [-> ->].
  destruct (flag_at E (now w) =? 0).
  2:{ apply ret_inv in H as [-> ->]. split; [by left|]. by split. }
  apply bind_inv in H as (rc & w1 & Hwait & H).
  unfold sync_timedwait_items, field_of in Hwait.
  apply sem_timedwait_retry_inv in Hwait
    as [[[-> (Hpos & _)]|[[-> [Hu _]]|[Hr Hu]]] _].
  - cbn in Hpos. lia.
  - cbn [Z.eqb] in H. apply IH in H as [Hrc Hu'].
    + split; [exact Hrc|]. eapply untouched_trans; [exact Hu|exact Hu'].
    + destruct Hu as [Hb _]. rewrite Hb. exact Hnone.
  - assert ((rc =? 1) = false) as Hn1 by (destruct Hr as [-> | ->]; done).
    assert (nonzero rc = true) as Hnz by (destruct Hr as [-> | ->]; done).
    rewrite Hn1, Hnz in H. apply ret_inv in H as [-> ->].
    split; [by right|exact Hu].
Qed.

(** X11.  [buffer_init] on a buffer pointer always returns.  A result of 0
    leaves a buffer at rest: the queue is well formed and empty with the
    requested capacity, [items] is 0, [slots] is the capacity and the mutex is
    free.  A result of -3 has rolled the queue back: its storage is released
    and its fields are zeroed, so that later queue calls on it are refused
    with -1.  [buffer_destroy] always returns and leaves the queue in that
    same released state, whatever it held. *)
Theorem buffer_init_ready_or_rolled_back (cap : Z) w :
  (exists rc w',
     buffer_init E ADDR cap w = Some (rc, w') /\
     (rc = 0 ->
      buffer_inv w' /\ held (q (buffer w')) = [] /\
      capacity (q (buffer w')) = cap /\
      items (s (buffer w')) = 0 /\ slots (s (buffer w')) = cap) /\
     (rc = -3 ->
      q (buffer w') = Q None 0 0 0 /\
      forall m o,
        fst (queue_push (Some (q (buffer w'))) (Some m)) = -1 /\
        fst (fst (queue_pop (Some (q (buffer w'))) (Some o))) = -1)) /\
  (exists w',
     buffer_destroy ADDR w = Some (tt, w') /\
     q (buffer w') = Q None 0 0 0 /\
     s (buffer w') = s (buffer w) /\ trace w' = trace w).
Proof.
  split.
  - destruct (buffer_init_cases E cap w) as (rc & w' & Hrun & Hcases).
    exists rc, w'. split; [exact Hrun|].
    destruct Hcases as [(-> & _)|[(-> & _ & Hq)|(-> & _ & Hcap & Hb)]].
    + by split.
    + split; [done|]. intros _. split; [exact Hq|]. by rewrite Hq.
    + split; [|done]. intros _.
      split; [by eapply fresh_buffer_inv|]. by rewrite Hb.
  - destruct w as [[q0 y] n e tr dl]. eexists. split; [reflexivity|]. done.
Qed.

(** X12.  A buffer with no slot token is never written and one with no item
    token is never read.  [buffer_put] on a full buffer can only return -2,
    and the interruptible put only 1 or -2, in both cases with the buffer
    and its record of effects exactly as found; without a fault the plain
    put does not return at all.  The same holds of the two gets on an empty
    buffer, which also leave the caller's message alone. *)
Theorem full_or_empty_buffer_is_left_alone
    (fuel : nat) (m o : msg_t) (poll_ms : Z) w :
  (slots (s (buffer w)) <= 0 ->
   (forall rc w',
      buffer_put E retry ADDR (Some m) w = Some (rc, w') ->
      rc = -2 /\ untouched w w') /\
   (forall rc w',
      buffer_put_interruptible E retry fuel ADDR (Some m) ADDR poll_ms w
        = Some (rc, w') ->
      (rc = 1 \/ rc = -2) /\ untouched w w') /\
   (fault_at E (now w) = None ->
    buffer_put E retry ADDR (Some m) w = None)) /\
  (items (s (buffer w)) <= 0 ->
   (forall r w',
      buffer_get E retry ADDR (Some o) w = Some (r, w') ->
      r = (-2, Some o) /\ untouched w w') /\
   (forall r w',
      buffer_get_interruptible E retry fuel ADDR (Some o) ADDR poll_ms w
        = Some (r, w') ->
      (r = (1, Some o) \/ r = (-2, Some o)) /\ untouched w w') /\
   (fault_at E (now w) = None ->
    buffer_get E retry ADDR (Some o) w = None)).
Proof.
  split; intros Hnone; split_and!.
  - intros rc w' H. unfold buffer_put, sync_wait_slots, field_of in H.
    apply bind_inv in H as (r & w1 & Hwait & H).
    apply sem_wait_loop_inv in Hwait as [[-> (Hpos & _)]|[-> Hu]].
    + cbn in Hpos. lia.
    + apply ret_inv in H as [-> ->]. by split.
  - unfold buffer_put_interruptible. revert w Hnone.
    induction fuel as [|fuel' IH]; intros w Hnone rc w' H; [done|].
    eapply no_token_put_poll; eauto.
  - intros Hf. unfold buffer_put, sync_wait_slots, field_of, sem_wait_retry.
    cbn [sem_wait_loop]. unfold bind at 1. unfold bind at 1.
    unfold sem_wait. rewrite Hf.
    assert ((0 <? sem_value SLOTS (s (buffer w))) = false) as ->
      by (apply Z.ltb_ge; cbn; lia).
    done.
  - intros r w' H. unfold buffer_get, sync_wait_items, field_of in H.
    apply bind_inv in H as (rc & w1 & Hwait & H).
    apply sem_wait_loop_inv in Hwait as [[-> (Hpos & _)]|[-> Hu]].
    + cbn in Hpos. lia.
    + apply ret_inv in H as [-> ->]. by split.
  - unfold buffer_get_interruptible. revert w Hnone.
    induction fuel as [|fuel' IH]; intros w Hnone r w' H; [done|].
    eapply no_token_get_poll; eauto.
  - intros Hf. unfold buffer_get, sync_wait_items, field_of, sem_wait_retry.
    cbn [sem_wait_loop]. unfold bind at 1. unfold bind at 1.
    unfold sem_wait. rewrite Hf.
    assert ((0 <? sem_value ITEMS (s (buffer w))) = false) as ->
      by (apply Z.ltb_ge; cbn; lia).
    done.
Qed.

(** X13.  A message put into a buffer at rest that holds nothing as urgent
    comes back from the very next get, stamped with the sequence number
    that was current at the put.  Afterwards the held messages and the two
    semaphores are as before, and the ten effects of the two calls are on
    record in the order of the discipline. *)
Theorem buffer_put_then_get_hands_back (m o : msg_t) w :
  buffer_inv w -> 0 < slots (s (buffer w)) ->
  (forall t, fault_at E t = None) ->
  Forall (fun x => priority x < priority m) (held (q (buffer w))) ->
  exists w1 w2,
    buffer_put E retry ADDR (Some m) w = Some (0, w1) /\
    buffer_get E retry ADDR (Some o) w1
      = Some ((0, Some (with_seq m (next_seq (q (buffer w))))), w2) /\
    held (q (buffer w2)) = held (q (buffer w)) /\
    s (buffer w2) = s (buffer w) /\
    trace w2 =
      trace w ++ [Acquire SLOTS; Lock; Push; Unlock; Release ITEMS;
                  Acquire ITEMS; Lock; Pop; Unlock; Release SLOTS].
Proof.
  intros Hinv Hpos Hquiet Hlow.
  pose proof (buffer_inv_sems_valid w Hinv) as Hv.
  destruct (buffer_put_returns E retry m w Hinv Hpos (Hquiet _) (Hquiet _))
    as (w1 & Hput).
  pose proof (buffer_put_keeps E retry ADDR (Some m) w 0 w1 Hinv Hput)
    as (Hinv1 & _).
  destruct (buffer_put_cases E retry m w 0 w1 Hv Hput)
    as [(? & _)|[(? & _)|[(? & _)|[(? & _)|(_ & _ & q1 & Hpush & Hb1 & Ht1)]]]];
    try done.
  assert (0 < items (s (buffer w1))) as Hpos1.
  { rewrite Hb1. cbn. destruct Hv. lia. }
  destruct (buffer_get_returns E retry o w1 Hinv1 Hpos1 (Hquiet _) (Hquiet _))
    as ([rc out'] & w2 & Hget & Hrc).
  cbn in Hrc. subst rc.
  destruct (buffer_get_cases E retry o w1 (0, out') w2
              (buffer_inv_sems_valid w1 Hinv1) Hget)
    as [(? & _)|[(? & _)|[(? & _)|[(? & _)|(_ & _ & q2 & Hpop & Hb2 & Ht2)]]]];
    try done.
  destruct Hinv as (Hwf & [Hsum Hit] & Hm).
  rewrite (length_held _ Hwf) in Hit.
  destruct (pop_after_urgent_push (q (buffer w)) q1 m o Hwf ltac:(lia) Hlow
              Hpush) as (q2' & Hpop' & Hheld & _).
  rewrite Hb1 in Hpop. cbn [q snd] in Hpop. rewrite Hpop' in Hpop.
  injection Hpop as -> <-.
  exists w1, w2. split; [exact Hput|]. split; [exact Hget|].
  rewrite Hb2, Ht2, Ht1, Hb1. cbn [q s items slots].
  split; [exact Hheld|]. split.
  - destruct (s (buffer w)) as [mt it sl]. cbn in *. subst mt.
    f_equal; lia.
  - by rewrite <- (assoc_L (++)).
Qed.

(** Every attempt of a timed wait takes time. *)
Lemma sem_timedwait_loop_now i (ts : timespec) : forall fuel w rc w',
  sem_timedwait_loop E fuel i ts w = Some (rc, w') -> (now w < now w')%nat.
Proof.
  induction fuel as [|fuel IH]; intros w rc w' H; [done|].
  cbn [sem_timedwait_loop] in H.
  apply bind_inv in H as (rc1 & w1 & H1 & H).
  apply bind_inv in H as (e & w2 & H2 & H).
  unfold get_errno in H2. simplify_eq.
  assert (now w2 = S (now w)) as Hn.
  { unfold sem_timedwait in H1. destruct w as [b n e tr dl].
    cbn in H1. repeat case_match; by simplify_eq. }
  destruct ((rc1 =? -1) && (errno w2 =? EINTR)).
  - apply IH in H. lia.
  - apply ret_inv in H as [_ ->]. lia.
Qed.

Lemma sem_timedwait_retry_now (ts0 : timespec) i (ms : Z) w rc w' :
  sem_timedwait_retry E retry ts0 i ms w = Some (rc, w') ->
  (now w < now w')%nat.
Proof.
  unfold sem_timedwait_retry. intros H.
  apply bind_inv in H as ([c t] & w1 & Hc & H).
  assert (now w1 = S (now w)) as Hn.
  { unfold clock_gettime in Hc. destruct w as [b n e tr dl]. cbn in Hc.
    repeat case_match; by simplify_eq. }
  cbn [fst snd] in H. destruct (nonzero c).
  { apply ret_inv in H as [_ ->]. lia. }
  apply bind_inv in H as (rc1 & w2 & Hl & H).
  apply sem_timedwait_loop_now in Hl.
  destruct (rc1 =? 0).
  { apply ret_inv in H as [_ ->]. lia. }
  apply bind_inv in H as (e & w3 & He & H).
  unfold get_errno in He. simplify_eq.
  destruct (errno w3 =? ETIMEDOUT); apply ret_inv in H as [_ ->]; lia.
Qed.

(** With the mutex free, what follows a successful timed wait in the
    interruptible put runs to its end. *)
Lemma put_after_token_returns (m : option msg_t) w :
  mtx (s (buffer w)) = false ->
  exists rc w',
    (f <- atomic_load E ;;
     if nonzero f then sync_post_slots ADDR ;;; ret 1
     else
       r <- sync_lock E ADDR ;;
       if nonzero r then sync_post_slots ADDR ;;; ret (-3)
       else
         f <- atomic_load E ;;
         if nonzero f then
           sync_unlock ADDR ;;; sync_post_slots ADDR ;;; ret 1
         else
           rc <- on_queue_push m ;;
           sync_unlock ADDR ;;;
           if nonzero rc then sync_post_slots ADDR ;;; ret (-4)
           else sync_post_items ADDR ;;; ret 0) w = Some (rc, w').
Proof.
  intros Hm. destruct w as [[q0 [mt it sl]] n e tr dl]. cbn in Hm. subst mt.
  unfold bind, atomic_load, sync_post_slots, sync_post_items, sem_post,
    sync_lock, pthread_mutex_lock, sync_unlock, pthread_mutex_unlock,
    on_queue_push, ret.
  cbn -[queue_push SEM_VALUE_MAX Z.ltb Z.add Z.sub].
  repeat (case_match; cbn -[queue_push SEM_VALUE_MAX Z.ltb Z.add Z.sub];
          simplify_eq; try by eexists _, _).
Qed.

Lemma get_after_token_returns (out : option msg_t) w :
  mtx (s (buffer w)) = false ->
  exists r w',
    (f <- atomic_load E ;;
     if nonzero f then sync_post_items ADDR ;;; ret (1, out)
     else
       r <- sync_lock E ADDR ;;
       if nonzero r then sync_post_items ADDR ;;; ret (-3, out)
       else
         f <- atomic_load E ;;
         if nonzero f then
           sync_unlock ADDR ;;; sync_post_items ADDR ;;; ret (1, out)
         else
           p <- on_queue_pop out ;;
           sync_unlock ADDR ;;;
           if nonzero (fst p) then sync_post_items ADDR ;;; ret (-4, snd p)
           else sync_post_slots ADDR ;;; ret (0, snd p)) w = Some (r, w').
Proof.
  intros Hm. destruct w as [[q0 [mt it sl]] n e tr dl]. cbn in Hm. subst mt.
  unfold bind, atomic_load, sync_post_slots, sync_post_items, sem_post,
    sync_lock, pthread_mutex_lock, sync_unlock, pthread_mutex_unlock,
    on_queue_pop, ret.
  cbn -[queue_pop SEM_VALUE_MAX Z.ltb Z.add Z.sub].
  repeat (case_match; cbn -[queue_pop SEM_VALUE_MAX Z.ltb Z.add Z.sub];
          simplify_eq; try by eexists _, _).
Qed.

Lemma took_keeps_mutex i w w' :
  took i w w' -> mtx (s (buffer w')) = mtx (s (buffer w)).
Proof. intros (_ & -> & _). by destruct i. Qed.

Lemma put_loop_returns (T : nat) (m : msg_t) (poll_ms : Z) :
  (forall t, exists k : nat,
     (k <= retry)%nat /\ fault_at E (t + k) <> Some Interrupted) ->
  (forall t, (T <= t)%nat -> flag_at E t <> 0) ->
  forall fuel w,
    mtx (s (buffer w)) = false -> (T <= now w + fuel)%nat ->
    exists rc w',
      put_loop E retry (S fuel) ADDR (Some m) poll_ms w = Some (rc, w').
Proof.
  intros Hsig Hstop. induction fuel as [|fuel IH]; intros w Hm Hfuel;
    cbn [put_loop]; unfold bind at 1; unfold atomic_load at 1;
    (destruct (flag_at E (now w) =? 0) eqn:Hflag; [|by eexists _, _]);
    apply Z.eqb_eq in Hflag.
  { by destruct (Hstop (now w) ltac:(lia)). }
  destruct (sem_timedwait_retry_returns E retry ts_junk SLOTS poll_ms (tick w)
              (Hsig _)) as (r & w1 & Hwait).
  unfold bind at 1. unfold sync_timedwait_slots, field_of. rewrite Hwait.
  pose proof (sem_timedwait_retry_now _ _ _ _ _ _ Hwait) as Hnow.
  apply sem_timedwait_retry_inv in Hwait as [Hcases _].
  assert (mtx (s (buffer w1)) = false) as Hm1.
  { destruct Hcases as [[_ Ht]|[[_ [[Hb _] _]]|[_ [Hb _]]]].
    - by rewrite (took_keeps_mutex _ _ _ Ht).
    - by rewrite Hb.
    - by rewrite Hb. }
  destruct (r =? 1).
  { apply IH; [exact Hm1|]. destruct w; cbn in *; lia. }
  destruct (nonzero r); [by eexists _, _|].
  by apply put_after_token_returns.
Qed.

Lemma get_loop_returns (T : nat) (o : msg_t) (poll_ms : Z) :
  (forall t, exists k : nat,
     (k <= retry)%nat /\ fault_at E (t + k) <> Some Interrupted) ->
  (forall t, (T <= t)%nat -> flag_at E t <> 0) ->
  forall fuel w,
    mtx (s (buffer w)) = false -> (T <= now w + fuel)%nat ->
    exists r w',
      get_loop E retry (S fuel) ADDR (Some o) poll_ms w = Some (r, w').
Proof.
  intros Hsig Hstop. induction fuel as [|fuel IH]; intros w Hm Hfuel;
    cbn [get_loop]; unfold bind at 1; unfold atomic_load at 1;
    (destruct (flag_at E (now w) =? 0) eqn:Hflag; [|by eexists _, _]);
    apply Z.eqb_eq in Hflag.
  { by destruct (Hstop (now w) ltac:(lia)). }
  destruct (sem_timedwait_retry_returns E retry ts_junk ITEMS poll_ms (tick w)
              (Hsig _)) as (r & w1 & Hwait).
  unfold bind at 1. unfold sync_timedwait_items, field_of. rewrite Hwait.
  pose proof (sem_timedwait_retry_now _ _ _ _ _ _ Hwait) as Hnow.
  apply sem_timedwait_retry_inv in Hwait as [Hcases _].
  assert (mtx (s (buffer w1)) = false) as Hm1.
  { destruct Hcases as [[_ Ht]|[[_ [[Hb _] _]]|[_ [Hb _]]]].
    - by rewrite (took_keeps_mutex _ _ _ Ht).
    - by rewrite Hb.
    - by rewrite Hb. }
  destruct (r =? 1).
  { apply IH; [exact Hm1|]. destruct w; cbn in *; lia. }
  destruct (nonzero r); [by eexists _, _|].
  by apply get_after_token_returns.
Qed.

(** X14.  Shutdown is prompt.  Let the stop flag be up from moment [T] on,
    let no wait be interrupted more than [retry] times in a row, and let the
    mutex be free.  Then [buffer_put_interruptible] and
    [buffer_get_interruptible] return, whatever the buffer holds and even
    when no token ever arrives: one poll more than there are moments left
    until [T] is enough.  A call that starts at [T] or later returns 1 at
    once, with nothing touched. *)
Theorem interruptible_calls_return_once_stopped
    (T fuel : nat) (m o : msg_t) (poll_ms : Z) w :
  mtx (s (buffer w)) = false ->
  (forall t, exists k : nat,
     (k <= retry)%nat /\ fault_at E (t + k) <> Some Interrupted) ->
  (forall t, (T <= t)%nat -> flag_at E t <> 0) ->
  (T <= now w + fuel)%nat ->
  (exists rc w',
     buffer_put_interruptible E retry (S fuel) ADDR (Some m) ADDR poll_ms w
       = Some (rc, w')) /\
  (exists r w',
     buffer_get_interruptible E retry (S fuel) ADDR (Some o) ADDR poll_ms w
       = Some (r, w')) /\
  ((T <= now w)%nat ->
   buffer_put_interruptible E retry (S fuel) ADDR (Some m) ADDR poll_ms w
     = Some (1, tick w) /\
   buffer_get_interruptible E retry (S fuel) ADDR (Some o) ADDR poll_ms w
     = Some ((1, Some o), tick w)).
Proof.
  intros Hm Hsig Hstop Hfuel. split_and!.
  - by apply (put_loop_returns T).
  - by apply (get_loop_returns T).
  - intros Hge. split.
    + by apply put_stopped_at_entry_returns, Hstop.
    + by apply get_stopped_at_entry_returns, Hstop.
Qed.

End BufferExtras.

Section BufferExtrasWitnesses.
Import Queue Machine Sync Buffer.

Lemma buffer_count_reads_held_count_witness :
  buffer_inv w_ready /\
  exists w', buffer_count E_quiet ADDR w_ready = Some (0, w') /\
             buffer w' = buffer w_ready.
Proof.
  split; [exact w_ready_inv|].
  destruct (buffer_count_reads_held_count E_quiet w_ready w_ready_inv)
    as (rc & w' & Hrun & Hb & [(Hf & _)|(_ & Hrc & _)]); [done|].
  exists w'. split; [|exact Hb]. rewrite Hrun. by rewrite Hrc.
Defined.

Lemma buffer_put_then_get_hands_back_witness :
  exists w1 w2,
    buffer_put E_quiet 0 ADDR (Some (Msg 7 3 1 0)) w_ready = Some (0, w1) /\
    buffer_get E_quiet 0 ADDR (Some msg_zero) w1
      = Some ((0, Some (Msg 7 3 1 1)), w2) /\
    held (q (buffer w2)) = [] /\ s (buffer w2) = Sync false 0 2.
Proof.
  assert (Forall (fun x => priority x < priority (Msg 7 3 1 0))
                 (held (q (buffer w_ready)))) as Hlow by constructor.
  assert (0 < slots (s (buffer w_ready))) as Hpos by (cbn; lia).
  assert (forall t, fault_at E_quiet t = None) as Hquiet by done.
  destruct (buffer_put_then_get_hands_back E_quiet 0 (Msg 7 3 1 0)
              msg_zero w_ready w_ready_inv Hpos Hquiet Hlow)
    as (w1 & w2 & H1 & H2 & H3 & H4 & _).
  by exists w1, w2.
Defined.

Lemma interruptible_calls_return_once_stopped_witness :
  exists rc w',
    buffer_put_interruptible (E_stop_from 3) 0 4 ADDR (Some (Msg 7 3 1 0))
      ADDR 200 w_ready = Some (rc, w').
Proof.
  assert (mtx (s (buffer w_ready)) = false) as Hm by reflexivity.
  assert (forall t : nat, exists k : nat,
            (k <= 0)%nat /\
            fault_at (E_stop_from 3) (t + k) <> Some Interrupted) as Hsig.
  { intros t. exists 0%nat. split; [lia|done]. }
  assert (forall t : nat,
            (3 <= t)%nat -> flag_at (E_stop_from 3) t <> 0) as Hstop.
  { intros t Ht. unfold E_stop_from. cbn [flag_at].
    destruct (Nat.ltb_spec t 3); [lia|done]. }
  assert (3 <= now w_ready + 3)%nat as Hfuel by (cbn; lia).
  exact (proj1 (interruptible_calls_return_once_stopped (E_stop_from 3) 0 3 3
                  (Msg 7 3 1 0) msg_zero 200 w_ready Hm Hsig Hstop Hfuel)).
Defined.

End BufferExtrasWitnesses.

(** ** util.c: random numbers, the millisecond clock, interruptible sleep *)

Section UtilExtras.
Import Machine Util.

Lemma uint_small z : 0 <= z <= UINT_MAX -> uint z = z.
Proof. intros H. unfold uint. apply Z.mod_small. unfold UINT_MAX in *. lia. Qed.

Lemma uint_range z : 0 <= uint z <= UINT_MAX.
Proof.
  unfold uint, UINT_MAX.
  pose proof (Z.mod_pos_bound z (4294967295 + 1) ltac:(lia)). lia.
Qed.

Lemma lxor_fits a b :
  0 <= a <= UINT_MAX -> 0 <= b <= UINT_MAX -> 0 <= Z.lxor a b <= UINT_MAX.
Proof.
  intros Ha Hb.
  assert (0 <= Z.lxor a b) as Hnn by (apply Z.lxor_nonneg; lia).
  split; [exact Hnn|].
  destruct (decide (Z.lxor a b = 0)) as [->|Hne]; [done|].
  assert (forall x, 0 <= x <= UINT_MAX -> Z.log2 x < 32) as Hlog.
  { intros x Hx. destruct (decide (x = 0)) as [->|Hx0]; [done|].
    apply Z.log2_lt_pow2; [lia|]. unfold UINT_MAX in Hx. lia. }
  pose proof (Z.log2_lxor a b ltac:(lia) ltac:(lia)) as Hmax.
  pose proof (Hlog a Ha). pose proof (Hlog b Hb).
  assert (Z.lxor a b < 2 ^ 32) as Hlt by (apply Z.log2_lt_pow2; lia).
  unfold UINT_MAX. lia.
Qed.

(** [x ^= x << k] keeps a non-zero word non-zero: [2^k - 1] is odd. *)
Lemma xor_shift_left_nonzero (k x : Z) :
  0 <= k -> Z.gcd (UINT_MAX + 1) (2 ^ k - 1) = 1 ->
  0 < x <= UINT_MAX ->
  0 < Z.lxor x (uint (Z.shiftl x k)) <= UINT_MAX.
Proof.
  intros Hk Hgcd Hx.
  pose proof (uint_range (Z.shiftl x k)) as Hr.
  pose proof (lxor_fits x (uint (Z.shiftl x k)) ltac:(lia) Hr) as Hfit.
  split; [|lia].
  destruct (decide (Z.lxor x (uint (Z.shiftl x k)) = 0)) as [H0|]; [|lia].
  exfalso. apply Z.lxor_eq in H0.
  unfold uint in H0. rewrite Z.shiftl_mul_pow2 in H0 by done.
  pose proof (Z.div_mod (x * 2 ^ k) (UINT_MAX + 1) ltac:(done)) as Hdm.
  rewrite <- H0 in Hdm.
  assert ((UINT_MAX + 1 | (2 ^ k - 1) * x)) as Hdiv.
  { exists (x * 2 ^ k / (UINT_MAX + 1)). lia. }
  apply Z.gauss in Hdiv; [|exact Hgcd].
  apply Z.divide_pos_le in Hdiv; lia.
Qed.

(** [x ^= x >> 17] keeps a non-zero word non-zero. *)
Lemma xor_shift_right_nonzero (x : Z) :
  0 < x <= UINT_MAX -> 0 < Z.lxor x (Z.shiftr x 17) <= UINT_MAX.
Proof.
  intros Hx.
  assert (0 <= Z.shiftr x 17 < x) as Hs.
  { rewrite Z.shiftr_div_pow2 by done. split.
    - apply Z.div_pos; lia.
    - apply Z.div_lt; lia. }
  pose proof (lxor_fits x (Z.shiftr x 17) ltac:(lia) ltac:(lia)) as Hfit.
  split; [|lia].
  destruct (decide (Z.lxor x (Z.shiftr x 17) = 0)) as [H0|]; [|lia].
  apply Z.lxor_eq in H0. lia.
Qed.

Lemma xrng_fits seed :
  0 <= seed <= UINT_MAX ->
  0 < fst (xrng seed) <= UINT_MAX /\ snd (xrng seed) = fst (xrng seed).
Proof.
  intros Hs. unfold xrng. cbv zeta. cbn [fst snd]. split; [|done].
  set (x0 := if seed =? 0 then 2463534242 else seed).
  assert (0 < x0 <= UINT_MAX) as H0.
  { unfold x0. destruct (Z.eqb_spec seed 0); [done|lia]. }
  pose proof (xor_shift_left_nonzero 13 x0 ltac:(done) eq_refl H0) as H1.
  pose proof (xor_shift_right_nonzero _ H1) as H2.
  exact (xor_shift_left_nonzero 5 _ ltac:(done) eq_refl H2).
Qed.

(** X15.  [xrng] never hands out 0 and never stores 0: on every seed that
    an [unsigned int] can hold its result lies between 1 and 2^32 - 1 and
    is the new seed, so that the replacement of a zero seed can only happen
    on a first call.  A zero seed gives what the seed 2463534242 gives. *)
Theorem xrng_never_yields_zero (seed : Z) :
  0 <= seed <= UINT_MAX ->
  1 <= fst (xrng seed) <= UINT_MAX /\
  snd (xrng seed) = fst (xrng seed) /\
  ((snd (xrng seed) =? 0) = false) /\
  xrng 0 = xrng 2463534242.
Proof.
  intros Hs. destruct (xrng_fits seed Hs) as [Hr Hsnd].
  split; [lia|]. split; [exact Hsnd|]. split; [|reflexivity].
  apply Z.eqb_neq. lia.
Qed.

Lemma xrng_never_yields_zero_witness :
  0 <= 0 <= UINT_MAX /\ fst (xrng 0) = 723471715.
Proof.
  assert (0 <= 0 <= UINT_MAX) as Hs by (unfold UINT_MAX; lia).
  split; [exact Hs|].
  pose proof (xrng_never_yields_zero 0 Hs) as (_ & _ & _ & ->).
  reflexivity.
Defined.

Lemma lxor_swap (a b c d : Z) :
  Z.lxor (Z.lxor a b) (Z.lxor c d) = Z.lxor (Z.lxor a c) (Z.lxor b d).
Proof.
  apply Z.bits_inj'. intros n _. rewrite !Z.lxor_spec.
  by destruct (Z.testbit a n), (Z.testbit b n), (Z.testbit c n),
       (Z.testbit d n).
Qed.

Lemma uint_lxor (a b : Z) : uint (Z.lxor a b) = Z.lxor (uint a) (uint b).
Proof.
  unfold uint. change (UINT_MAX + 1) with (2 ^ 32).
  rewrite <- !Z.land_ones by done.
  apply Z.bits_inj'. intros n _.
  rewrite !Z.lxor_spec, !Z.land_spec, !Z.lxor_spec.
  by destruct (Z.testbit a n), (Z.testbit b n), (Z.testbit (Z.ones 32) n).
Qed.

(** The three steps of [xrng] lose nothing: each is linear over [lxor], and
    sends only 0 to 0. *)
Lemma xor_shift_left_injective (k a b : Z) :
  0 <= k -> Z.gcd (UINT_MAX + 1) (2 ^ k - 1) = 1 ->
  0 <= a <= UINT_MAX -> 0 <= b <= UINT_MAX ->
  Z.lxor a (uint (Z.shiftl a k)) = Z.lxor b (uint (Z.shiftl b k)) -> a = b.
Proof.
  intros Hk Hgcd Ha Hb H. apply Z.lxor_eq.
  pose proof (lxor_fits a b Ha Hb) as Hd.
  destruct (decide (Z.lxor a b = 0)) as [|Hne]; [done|exfalso].
  pose proof (xor_shift_left_nonzero k (Z.lxor a b) Hk Hgcd ltac:(lia)) as Hnz.
  rewrite Z.shiftl_lxor, uint_lxor, <- lxor_swap, H in Hnz.
  rewrite Z.lxor_nilpotent in Hnz. lia.
Qed.

Lemma xor_shift_right_injective (a b : Z) :
  0 <= a <= UINT_MAX -> 0 <= b <= UINT_MAX ->
  Z.lxor a (Z.shiftr a 17) = Z.lxor b (Z.shiftr b 17) -> a = b.
Proof.
  intros Ha Hb H. apply Z.lxor_eq.
  pose proof (lxor_fits a b Ha Hb) as Hd.
  destruct (decide (Z.lxor a b = 0)) as [|Hne]; [done|exfalso].
  pose proof (xor_shift_right_nonzero (Z.lxor a b) ltac:(lia)) as Hnz.
  rewrite Z.shiftr_lxor, <- lxor_swap, H in Hnz.
  rewrite Z.lxor_nilpotent in Hnz. lia.
Qed.

(** X26.  [xrng] is one-to-one on the seeds it keeps: two non-zero seeds
    that an [unsigned int] can hold give the same number, or leave the same
    seed behind, only if they are the same seed.  So the numbers of two
    workers that start from different non-zero seeds differ at every step;
    the one collision of the generator is the zero seed, which is read as
    2463534242. *)
Theorem xrng_is_one_to_one (s1 s2 : Z) :
  0 < s1 <= UINT_MAX -> 0 < s2 <= UINT_MAX ->
  (fst (xrng s1) = fst (xrng s2) -> s1 = s2) /\
  (snd (xrng s1) = snd (xrng s2) -> s1 = s2) /\
  (s1 <> s2 ->
   forall n : nat,
     Nat.iter n (fun s => snd (xrng s)) s1
     <> Nat.iter n (fun s => snd (xrng s)) s2).
Proof.
  intros H1 H2.
  assert (forall a b, 0 < a <= UINT_MAX -> 0 < b <= UINT_MAX ->
            fst (xrng a) = fst (xrng b) -> a = b) as Hinj.
  { intros a b Ha Hb. unfold xrng. cbv zeta. cbn [fst].
    destruct (Z.eqb_spec a 0); [lia|]. destruct (Z.eqb_spec b 0); [lia|].
    pose proof (xor_shift_left_nonzero 13 a ltac:(done) eq_refl Ha) as Ha1.
    pose proof (xor_shift_left_nonzero 13 b ltac:(done) eq_refl Hb) as Hb1.
    pose proof (xor_shift_right_nonzero _ Ha1) as Ha2.
    pose proof (xor_shift_right_nonzero _ Hb1) as Hb2.
    intros H.
    apply (xor_shift_left_injective 5) in H; [|done|done|lia|lia].
    apply xor_shift_right_injective in H; [|lia|lia].
    apply (xor_shift_left_injective 13) in H; [done|done|done|lia|lia]. }
  split; [by apply Hinj|]. split; [by apply Hinj|].
  assert (forall a (m : nat), 0 < a <= UINT_MAX ->
            0 < Nat.iter m (fun s => snd (xrng s)) a <= UINT_MAX) as Hfit.
  { intros a m Ha. induction m as [|m IHm]; [done|].
    exact (proj1 (xrng_fits (Nat.iter m (fun s => snd (xrng s)) a)
                    ltac:(lia))). }
  intros Hne n. induction n as [|n IH]; [done|].
  intros Heq. apply IH.
  apply Hinj; [by apply Hfit|by apply Hfit|exact Heq].
Qed.

Lemma xrng_is_one_to_one_witness :
  Nat.iter 3 (fun s => snd (xrng s)) 1
  <> Nat.iter 3 (fun s => snd (xrng s)) 2.
Proof.
  exact (proj2 (proj2 (xrng_is_one_to_one 1 2
                         ltac:(unfold UINT_MAX; lia)
                         ltac:(unfold UINT_MAX; lia)))
           ltac:(lia) 3%nat).
Defined.

(** What [rand_in_range] returns on bounds given in order. *)
Lemma rand_in_range_ordered (seed a b : Z) :
  a <= b -> b - a < INT_MAX ->
  rand_in_range seed a b
  = Some (a + fst (xrng seed) mod (b - a + 1), snd (xrng seed)) /\
  rand_in_range seed b a = rand_in_range seed a b.
Proof.
  intros Hab Hlt. unfold rand_in_range.
  destruct (Z.ltb_spec b a) as [|_]; [lia|].
  destruct (Z.ltb_spec a b) as [_|Hge].
  - destruct (Z.ltb_spec INT_MAX (b - a + 1)) as [|_]; [lia|].
    destruct (xrng seed) as [r s']. cbn [fst snd].
    rewrite uint_small; [done|]. unfold UINT_MAX, INT_MAX in *. lia.
  - assert (b = a) as -> by lia.
    destruct (Z.ltb_spec INT_MAX (a - a + 1)) as [|_]; [lia|].
    destruct (xrng seed) as [r s']. cbn [fst snd].
    rewrite uint_small; [done|]. unfold UINT_MAX. lia.
Qed.

(** X16.  [rand_in_range] stays in range.  For a seed an [unsigned int]
    can hold and bounds less than INT_MAX apart, the result lies between
    the smaller and the larger bound, both included, whichever way round
    they are given; the two orders give the same result; equal bounds give
    that bound; and the seed moves on by exactly one step of [xrng]. *)
Theorem rand_in_range_stays_in_range (seed lo hi : Z) :
  0 <= seed <= UINT_MAX -> Z.abs (hi - lo) < INT_MAX ->
  exists v,
    rand_in_range seed lo hi = Some (v, snd (xrng seed)) /\
    Z.min lo hi <= v <= Z.max lo hi /\
    rand_in_range seed hi lo = rand_in_range seed lo hi /\
    (lo = hi -> v = lo).
Proof.
  intros Hs Hd. destruct (xrng_fits seed Hs) as [Hr Hsnd].
  destruct (Z.le_gt_cases lo hi) as [Hle|Hgt].
  - destruct (rand_in_range_ordered seed lo hi Hle ltac:(lia))
      as [Hrun Hsym].
    pose proof (Z.mod_pos_bound (fst (xrng seed)) (hi - lo + 1) ltac:(lia)).
    eexists. split; [exact Hrun|]. split; [lia|]. split; [exact Hsym|].
    intros ->. replace (hi - hi + 1) with 1 by lia. rewrite Z.mod_1_r. lia.
  - destruct (rand_in_range_ordered seed hi lo ltac:(lia) ltac:(lia))
      as [Hrun Hsym].
    pose proof (Z.mod_pos_bound (fst (xrng seed)) (lo - hi + 1) ltac:(lia)).
    eexists. split; [by rewrite Hsym|]. split; [lia|].
    split; [by rewrite Hsym|]. lia.
Qed.

Lemma rand_in_range_stays_in_range_witness :
  exists v, rand_in_range 0 9 0 = Some (v, snd (xrng 0)) /\ 0 <= v <= 9.
Proof.
  destruct (rand_in_range_stays_in_range 0 9 0
              ltac:(unfold UINT_MAX; lia) ltac:(unfold INT_MAX; lia))
    as (v & Hrun & Hv & _).
  exists v. split; [exact Hrun|]. lia.
Defined.

(** X17.  [now_ms_monotonic] counts whole milliseconds.  For a clock
    reading with non-negative seconds and nanoseconds in range whose
    milliseconds fit 64 bits the
    result is the reading in nanoseconds divided by a million, rounded
    down; so a later reading never gives a smaller result, and the
    difference of two results, as the workers compute it, is less than one
    millisecond away from the time between the readings. *)
Theorem now_ms_monotonic_counts_whole_ms (t1 t2 : timespec) :
  normalized t1 -> normalized t2 ->
  0 <= tv_sec t1 -> 0 <= tv_sec t2 ->
  tv_sec t1 * 1000 + 999 <= UINT64_MAX ->
  tv_sec t2 * 1000 + 999 <= UINT64_MAX ->
  now_ms_monotonic t1 = to_ns t1 / 1000000 /\
  (to_ns t1 <= to_ns t2 ->
   now_ms_monotonic t1 <= now_ms_monotonic t2 /\
   let elapsed := uint64 (now_ms_monotonic t2 - now_ms_monotonic t1) in
   to_ns t2 - to_ns t1 - 1000000 < elapsed * 1000000
     < to_ns t2 - to_ns t1 + 1000000).
Proof.
  assert (forall t, normalized t -> 0 <= tv_sec t ->
            tv_sec t * 1000 + 999 <= UINT64_MAX ->
            now_ms_monotonic t = to_ns t / 1000000 /\
            0 <= now_ms_monotonic t <= UINT64_MAX) as Hone.
  { intros [sec ns] Hn Hsec Hfit. unfold normalized in Hn. cbn in *.
    unfold now_ms_monotonic, to_ns, uint64. cbn [tv_sec tv_nsec].
    assert (0 <= ns / 1000000 <= 999) as Hq.
    { split; [apply Z.div_pos; lia|].
      apply Z.lt_succ_r, Z.div_lt_upper_bound; lia. }
    unfold UINT64_MAX in *.
    rewrite (Z.mod_small sec) by lia.
    rewrite (Z.mod_small (sec * 1000)) by lia.
    rewrite (Z.mod_small ns) by lia.
    rewrite (Z.mod_small (sec * 1000 + ns / 1000000)) by lia.
    replace (sec * 1000000000 + ns) with (sec * 1000 * 1000000 + ns) by lia.
    rewrite Z.div_add_l by lia. split; [done|lia]. }
  intros Hn1 Hn2 Hs1 Hs2 Hf1 Hf2.
  destruct (Hone t1 Hn1 Hs1 Hf1) as [H1 Hr1].
  destruct (Hone t2 Hn2 Hs2 Hf2) as [H2 Hr2].
  split; [exact H1|]. intros Hle.
  assert (now_ms_monotonic t1 <= now_ms_monotonic t2) as Hmono.
  { rewrite H1, H2. apply Z.div_le_mono; lia. }
  split; [exact Hmono|]. cbv zeta.
  unfold uint64 at 1 2. rewrite Z.mod_small by (unfold UINT64_MAX in *; lia).
  rewrite H1, H2.
  pose proof (Z.div_mod (to_ns t1) 1000000 ltac:(lia)).
  pose proof (Z.div_mod (to_ns t2) 1000000 ltac:(lia)).
  pose proof (Z.mod_pos_bound (to_ns t1) 1000000 ltac:(lia)).
  pose proof (Z.mod_pos_bound (to_ns t2) 1000000 ltac:(lia)).
  lia.
Qed.

Lemma now_ms_monotonic_counts_whole_ms_witness :
  now_ms_monotonic (Timespec 12 345678901) = 12345 /\
  now_ms_monotonic (Timespec 12 345678901)
    <= now_ms_monotonic (Timespec 13 1).
Proof.
  assert (normalized (Timespec 12 345678901)) as Hn1
    by (unfold normalized; cbn; lia).
  assert (normalized (Timespec 13 1)) as Hn2 by (unfold normalized; cbn; lia).
  destruct (now_ms_monotonic_counts_whole_ms (Timespec 12 345678901)
              (Timespec 13 1) Hn1 Hn2
              ltac:(cbn; lia) ltac:(cbn; lia)
              ltac:(unfold UINT64_MAX; cbn; lia)
              ltac:(unfold UINT64_MAX; cbn; lia)) as [H1 H2].
  split; [by rewrite H1|]. apply H2. unfold to_ns. cbn. lia.
Defined.

(** A sleep that is not cut short by signals for ever comes to its end, and
    records nothing of its own. *)
Lemma nanosleep_loop_returns (E : sleep_env) : forall fuel (ts : timespec) c,
  (exists k : nat, (k < fuel)%nat /\
     forall rem, cut_at E (clk c + k) <> Some (EINTR, rem)) ->
  exists c', nanosleep_loop E fuel ts c = Some c' /\ slept c' = slept c.
Proof.
  induction fuel as [|fuel IH]; intros ts c (k & Hk & Hcut); [lia|].
  cbn [nanosleep_loop]. unfold nanosleep.
  destruct (cut_at E (clk c)) as [[e rem]|] eqn:Hc; cbn [err andb Z.eqb].
  - change (-1 =? -1) with true. cbn [andb].
    destruct (Z.eqb_spec e EINTR) as [->|Hne]; [|by eexists].
    destruct k as [|k].
    { rewrite Nat.add_0_r in Hcut. by destruct (Hcut rem). }
    destruct (IH rem (Sleeper (S (clk c)) EINTR (slept c))) as (c' & -> & Hs).
    { exists k. split; [lia|]. intros r. cbn [clk].
      replace (S (clk c) + k)%nat with (clk c + S k)%nat by lia.
      apply Hcut. }
    by exists c'.
  - by eexists.
Qed.

Lemma sleep_ms_returns (E : sleep_env) (retry : nat) (ms : Z) c :
  (forall t, exists k : nat, (k <= retry)%nat /\
     forall rem, cut_at E (t + k) <> Some (EINTR, rem)) ->
  exists c',
    sleep_ms E retry ms c = Some c' /\
    slept c' = slept c ++ (if 0 <? ms then [ms] else []).
Proof.
  intros Hsig. unfold sleep_ms.
  destruct (Z.leb_spec ms 0) as [Hle|Hgt].
  - exists c. split; [done|].
    destruct (Z.ltb_spec 0 ms); [lia|]. by rewrite app_nil_r.
  - destruct (Z.ltb_spec 0 ms); [|lia].
    destruct (Hsig (clk c)) as (k & Hk & Hcut).
    destruct (nanosleep_loop_returns E (S retry)
                (Timespec (Z.quot ms 1000) (Z.rem ms 1000 * 1000000))
                (Sleeper (clk c) (err c) (slept c ++ [ms])))
      as (c' & Hrun & Hs).
    { exists k. split; [lia|]. exact Hcut. }
    by exists c'.
Qed.

Lemma sleep_loop_chunks (E : sleep_env) (retry : nat) (poll_ms : Z) :
  0 < poll_ms ->
  (forall t, exists k : nat, (k <= retry)%nat /\
     forall rem, cut_at E (t + k) <> Some (EINTR, rem)) ->
  forall fuel (remaining : Z) c,
    remaining <= Z.of_nat fuel ->
    exists c' chunks,
      sleep_loop E retry fuel remaining poll_ms c = Some c' /\
      slept c' = slept c ++ chunks /\
      Forall (fun x => 0 < x <= poll_ms) chunks /\
      total chunks <= Z.max 0 remaining /\
      ((forall t, stop_at E t = 0) -> total chunks = Z.max 0 remaining) /\
      (stop_at E (clk c) <> 0 -> chunks = []).
Proof.
  intros Hpoll Hsig. induction fuel as [|fuel IH]; intros remaining c Hfuel.
  - exists c, []. cbn [sleep_loop].
    destruct (Z.ltb_spec 0 remaining); [lia|].
    rewrite app_nil_r. split_and!; try done; cbn; lia.
  - cbn [sleep_loop]. destruct (Z.ltb_spec 0 remaining) as [Hpos|Hle].
    2:{ exists c, []. rewrite app_nil_r. split_and!; try done; cbn; lia. }
    destruct (Z.eqb_spec (stop_at E (clk c)) 0) as [Hgo|Hstop].
    2:{ exists (pass c), []. cbn [pass slept]. rewrite app_nil_r.
        split_and!; try done; [cbn; lia|].
        intros Hall. by destruct Hstop. }
    set (chunk := if remaining <? poll_ms then remaining else poll_ms).
    assert (0 < chunk <= poll_ms /\ chunk <= remaining) as Hchunk.
    { unfold chunk. destruct (Z.ltb_spec remaining poll_ms); lia. }
    destruct (sleep_ms_returns E retry chunk (pass c) Hsig)
      as (c1 & -> & Hs1).
    destruct (Z.ltb_spec 0 chunk); [|lia]. cbn [pass slept] in Hs1.
    destruct (IH (remaining - chunk) c1 ltac:(lia))
      as (c' & chunks & -> & Hs & Hall & Hsum & Hfull & _).
    exists c', (chunk :: chunks). split; [done|].
    split; [by rewrite Hs, Hs1, <- (assoc_L (++))|].
    split; [constructor; [lia|exact Hall]|].
    cbn [total foldr]. fold (total chunks).
    split; [lia|]. split; [|done].
    intros Hquiet. rewrite (Hfull Hquiet). lia.
Qed.

(** The three ways [sleep_interruptible_ms] goes about its sleep: not at
    all, in one piece, or in polls. *)
Lemma sleep_interruptible_ms_cases
    (E : sleep_env) (retry : nat) (stop_flag : ptr) (total_ms poll_ms : Z) c :
  (forall t, exists k : nat, (k <= retry)%nat /\
     forall rem, cut_at E (t + k) <> Some (EINTR, rem)) ->
  exists c' chunks,
    sleep_interruptible_ms E retry stop_flag total_ms poll_ms c = Some c' /\
    slept c' = slept c ++ chunks /\
    ((total_ms <= 0 /\ chunks = []) \/
     (0 < total_ms /\ (stop_flag = NULL \/ poll_ms <= 0) /\
      chunks = [total_ms]) \/
     (0 < total_ms /\ stop_flag = ADDR /\ 0 < poll_ms /\
      Forall (fun x => 0 < x <= poll_ms) chunks /\
      total chunks <= total_ms /\
      ((forall t, stop_at E t = 0) -> total chunks = total_ms) /\
      (stop_at E (clk c) <> 0 -> chunks = []))).
Proof.
  intros Hsig. unfold sleep_interruptible_ms.
  destruct (Z.leb_spec total_ms 0) as [Hle|Hpos].
  { exists c, []. rewrite app_nil_r. split_and!; try done. by left. }
  assert (exists c',
            sleep_ms E retry total_ms c = Some c' /\
            slept c' = slept c ++ [total_ms]) as (c1 & Hone & Hs1).
  { destruct (sleep_ms_returns E retry total_ms c Hsig) as (c' & Hr & Hs).
    destruct (Z.ltb_spec 0 total_ms); [|lia]. by exists c'. }
  destruct stop_flag.
  { exists c1, [total_ms]. split_and!; try done. right. left. by auto. }
  destruct (Z.leb_spec poll_ms 0) as [Hnp|Hpoll].
  { exists c1, [total_ms]. split_and!; try done. right. left. by auto. }
  destruct (sleep_loop_chunks E retry poll_ms Hpoll Hsig (Z.to_nat total_ms)
              total_ms c ltac:(lia))
    as (c' & chunks & Hrun & Hs & Hall & Hsum & Hfull & Hup).
  exists c', chunks. split_and!; try done. right. right.
  split_and!; try done; [lia|]. intros Hquiet. rewrite (Hfull Hquiet). lia.
Qed.

(** X18.  [sleep_interruptible_ms] sleeps in chunks and never oversleeps.
    As long as no single sleep is cut short by signals more than [retry]
    times in a row the call returns.  The lengths it asks [sleep_ms] for are
    all positive and add up to at most [total_ms]; they add up to exactly
    [total_ms] (nothing when that is not positive) when there is no flag to
    poll, when [poll_ms] is not positive, or when the flag stays down.  With
    a flag and a positive [poll_ms] no chunk is longer than [poll_ms], and a
    flag that is up at entry means no sleep at all. *)
Theorem sleep_interruptible_ms_sleeps_in_chunks
    (E : sleep_env) (retry : nat) (stop_flag : ptr) (total_ms poll_ms : Z) c :
  (forall t, exists k : nat, (k <= retry)%nat /\
     forall rem, cut_at E (t + k) <> Some (EINTR, rem)) ->
  exists c' chunks,
    sleep_interruptible_ms E retry stop_flag total_ms poll_ms c = Some c' /\
    slept c' = slept c ++ chunks /\
    Forall (fun x => 0 < x) chunks /\
    total chunks <= Z.max 0 total_ms /\
    (stop_flag = NULL \/ poll_ms <= 0 \/ (forall t, stop_at E t = 0) ->
     total chunks = Z.max 0 total_ms) /\
    (stop_flag = ADDR -> 0 < poll_ms ->
     Forall (fun x => x <= poll_ms) chunks /\
     (stop_at E (clk c) <> 0 -> chunks = [])).
Proof.
  intros Hsig.
  destruct (sleep_interruptible_ms_cases E retry stop_flag total_ms poll_ms
              c Hsig) as (c' & chunks & Hrun & Hs & Hcases).
  exists c', chunks. split; [exact Hrun|]. split; [exact Hs|].
  destruct Hcases as [[Hle ->]|[(Hpos & Hone & ->)
                     |(Hpos & -> & Hpoll & Hall & Hsum & Hfull & Hup)]].
  - split; [constructor|]. cbn. split; [lia|]. split; [lia|].
    intros _ _. by split.
  - split; [by repeat constructor|]. cbn. split; [lia|]. split; [lia|].
    intros -> Hp. destruct Hone as [?|?]; [done|lia].
  - split.
    { eapply Forall_impl; [exact Hall|]. intros x Hx. cbn in Hx. lia. }
    split; [lia|]. split.
    { intros [?|[?|Hquiet]]; [done|lia|]. rewrite (Hfull Hquiet). lia. }
    intros _ _. split; [|exact Hup].
    eapply Forall_impl; [exact Hall|]. intros x Hx. cbn in Hx. lia.
Qed.

Lemma sleep_interruptible_ms_sleeps_in_chunks_witness :
  exists c',
    sleep_interruptible_ms S_quiet 0 ADDR 500 200 c_start = Some c' /\
    slept c' = [200; 200; 100].
Proof.
  assert (forall t : nat, exists k : nat, (k <= 0)%nat /\
            forall rem, cut_at S_quiet (t + k) <> Some (EINTR, rem)) as Hsig.
  { intros t. exists 0%nat. split; [lia|done]. }
  destruct (sleep_interruptible_ms_sleeps_in_chunks S_quiet 0 ADDR 500 200
              c_start Hsig) as (c' & chunks & Hrun & Hs & _).
  exists c'. split; [exact Hrun|].
  vm_compute in Hrun. by simplify_eq.
Defined.

End UtilExtras.

(** ** cli.c: reading the command line *)

Section CliExtras.
Import Ascii Cli.

Variable strtol : String.string -> Z * String.string.

Lemma parse_int_cases (a : option String.string) (out : Z) :
  (fst (parse_int strtol a 0) <> 0 /\
   forall out', parse_int strtol a out' = (-1, out')) \/
  (exists v, INT_MIN <= v <= INT_MAX /\
             forall out', parse_int strtol a out' = (0, v)).
Proof.
  unfold parse_int. destruct a as [[|c str]|]; [by left|..|by left].
  destruct (strtol _) as [v [|c' rest]]; [|by left].
  destruct (Z.ltb_spec v INT_MIN); [by left|].
  destruct (Z.ltb_spec INT_MAX v); [by left|].
  right. exists v. split; [lia|done].
Qed.

(** The loop over accepted options is a fold: each field ends up with the
    value of the last occurrence of its option. *)
Lemma getopt_loop_accepted (gs : list getopt_t) :
  Forall (fun g => accepted strtol g = true) gs ->
  forall out,
    getopt_loop strtol gs out =
    (0, Params (value_after strtol "p" (producers out) gs)
               (value_after strtol "c" (consumers out) gs)
               (value_after strtol "q" (q_capacity out) gs)
               (value_after strtol "t" (timeout_sec out) gs)
               (verbose out || asks_verbose gs)).
Proof.
  induction 1 as [|[o a] gs Hacc _ IH]; intros [P C Q T V].
  { cbn. by rewrite orb_false_r. }
  unfold accepted, takes_argument in Hacc. cbn [opt optarg] in Hacc.
  cbn [getopt_loop opt optarg producers consumers q_capacity timeout_sec
       verbose].
  unfold value_after, asks_verbose. cbn [foldl existsb opt optarg].
  fold (value_after strtol). fold (asks_verbose gs).
  destruct (parse_int_cases a 0) as [[Hbad _]|(v & _ & Hok)].
  - destruct (Ascii.eqb_spec o "v") as [->|_].
    + cbn. rewrite IH. cbn. by rewrite orb_true_r.
    + apply Z.eqb_neq in Hbad. rewrite Hbad in Hacc.
      by destruct (_ || _) in Hacc.
  - destruct (Ascii.eqb_spec o "p") as [->|_];
      [|destruct (Ascii.eqb_spec o "c") as [->|_];
        [|destruct (Ascii.eqb_spec o "q") as [->|_];
          [|destruct (Ascii.eqb_spec o "t") as [->|_];
            [|destruct (Ascii.eqb_spec o "v") as [->|_]; [|done]]]]];
      cbn [Ascii.eqb Bool.eqb]; rewrite ?Hok; cbn [fst snd Z.eqb negb];
      rewrite IH; cbn; by rewrite ?orb_false_l, ?orb_true_r.
Qed.

Lemma value_after_fits (c : ascii) (gs : list getopt_t) : forall acc,
  INT_MIN <= acc <= INT_MAX ->
  INT_MIN <= value_after strtol c acc gs <= INT_MAX.
Proof.
  induction gs as [|[o a] gs IH]; intros acc Hacc; [done|].
  unfold value_after. cbn [foldl opt optarg]. fold (value_after strtol c).
  apply IH. destruct (Ascii.eqb o c); [|done].
  destruct (parse_int_cases a acc) as [[_ ->]|(v & Hv & ->)]; done.
Qed.

Lemma value_after_absent (c : ascii) (gs : list getopt_t) (acc : Z) :
  Forall (fun g => opt g <> c) gs -> value_after strtol c acc gs = acc.
Proof.
  induction 1 as [|[o a] gs Hne _ IH]; [done|].
  unfold value_after. cbn [foldl opt optarg]. fold (value_after strtol c).
  cbn in Hne. by destruct (Ascii.eqb_spec o c).
Qed.

(** An option that is not accepted ends the loop, with -2 when its number
    cannot be read and with -3 when it is not an option of the program. *)
Lemma getopt_loop_rejected (good : list getopt_t) (bad : getopt_t)
    (rest : list getopt_t) :
  Forall (fun g => accepted strtol g = true) good ->
  accepted strtol bad = false ->
  forall out,
    getopt_loop strtol (good ++ bad :: rest) out =
    (if takes_argument bad then -2 else -3,
     snd (getopt_loop strtol good out)).
Proof.
  intros Hgood Hbad.
  induction Hgood as [|[o a] gs Hacc _ IH]; intros out.
  - destruct bad as [o a]. unfold accepted, takes_argument in *.
    cbn [app getopt_loop opt optarg snd] in *.
    destruct (Ascii.eqb_spec o "v") as [->|_]; [done|].
    destruct (parse_int_cases a 0) as [[_ Hfail]|(v & _ & Hok)].
    + rewrite !Hfail. cbn [Z.eqb negb].
      by repeat (destruct (Ascii.eqb o _); cbn [orb]; try done).
    + rewrite Hok in Hbad. cbn [fst Z.eqb] in Hbad.
      by repeat (destruct (Ascii.eqb o _); cbn [orb] in *; try done).
  - unfold accepted, takes_argument in Hacc. cbn [opt optarg] in Hacc.
    cbn [app getopt_loop opt optarg].
    destruct (parse_int_cases a 0) as [[Hne _]|(v & _ & Hok)].
    + destruct (Ascii.eqb_spec o "v") as [->|_].
      * cbn [Ascii.eqb Bool.eqb andb]. cbv iota. apply IH.
      * apply Z.eqb_neq in Hne. rewrite Hne in Hacc.
        by destruct (_ || _) in Hacc.
    + rewrite !Hok. cbn [fst snd Z.eqb negb].
      by repeat (destruct (Ascii.eqb o _); try apply IH).
Qed.

Lemma first_rejected (gs : list getopt_t) :
  Forall (fun g => accepted strtol g = true) gs \/
  exists good bad rest,
    gs = good ++ bad :: rest /\
    Forall (fun g => accepted strtol g = true) good /\
    accepted strtol bad = false.
Proof.
  induction gs as [|g gs IH]; [by left|].
  destruct (accepted strtol g) eqn:Hg.
  - destruct IH as [Hall|(good & bad & rest & -> & Hgood & Hbad)].
    + left. by constructor.
    + right. exists (g :: good), bad, rest. split; [done|].
      split; [by constructor|done].
  - right. by exists [], g, gs.
Qed.

(** What [parse_args] makes of a command line whose options are all
    accepted. *)
Lemma parse_args_accepted (gs : list getopt_t) (out0 : run_params_t) :
  Forall (fun g => accepted strtol g = true) gs ->
  let P := last_value strtol "p" gs in
  let C := last_value strtol "c" gs in
  let Q := last_value strtol "q" gs in
  let T := last_value strtol "t" gs in
  parse_args strtol gs (Some out0) =
  (if (P =? 0) || (C =? 0) || (Q =? 0) || (T =? 0) then -4
   else if (P <? 1) || (MAX_PRODUCERS <? P) then -5
   else if (C <? 1) || (MAX_CONSUMERS <? C) then -6
   else if (Q <? 1) || (MAX_QUEUE_CAPACITY <? Q) then -7
   else if T <? 1 then -8 else 0,
   Some (Params P C Q T (asks_verbose gs))).
Proof.
  intros Hall P C Q T. unfold parse_args.
  rewrite (getopt_loop_accepted gs Hall).
  cbn [producers consumers q_capacity timeout_sec verbose negb Z.eqb
       DEFAULT_VERBOSE orb].
  fold (last_value strtol "p" gs) (last_value strtol "c" gs)
       (last_value strtol "q" gs) (last_value strtol "t" gs).
  fold P C Q T.
  by repeat (destruct (_ || _) || destruct (_ <? _)).
Qed.

(** The checks that follow the loop, one after the other. *)
Lemma range_checks_cases (P C Q T : Z) :
  let rc :=
    if (P =? 0) || (C =? 0) || (Q =? 0) || (T =? 0) then -4
    else if (P <? 1) || (MAX_PRODUCERS <? P) then -5
    else if (C <? 1) || (MAX_CONSUMERS <? C) then -6
    else if (Q <? 1) || (MAX_QUEUE_CAPACITY <? Q) then -7
    else if T <? 1 then -8 else 0 in
  (rc = -4 /\ (P = 0 \/ C = 0 \/ Q = 0 \/ T = 0)) \/
  (P <> 0 /\ C <> 0 /\ Q <> 0 /\ T <> 0 /\
   ((rc = -5 /\ (P < 0 \/ MAX_PRODUCERS < P)) \/
    (1 <= P <= MAX_PRODUCERS /\
     ((rc = -6 /\ (C < 0 \/ MAX_CONSUMERS < C)) \/
      (1 <= C <= MAX_CONSUMERS /\
       ((rc = -7 /\ (Q < 0 \/ MAX_QUEUE_CAPACITY < Q)) \/
        (1 <= Q <= MAX_QUEUE_CAPACITY /\
         ((rc = -8 /\ T < 0) \/ (rc = 0 /\ 1 <= T))))))))).
Proof.
  cbv zeta. unfold MAX_PRODUCERS, MAX_CONSUMERS, MAX_QUEUE_CAPACITY.
  destruct ((P =? 0) || (C =? 0) || (Q =? 0) || (T =? 0)) eqn:Hz.
  { left. split; [done|]. rewrite !orb_true_iff, !Z.eqb_eq in Hz. tauto. }
  rewrite !orb_false_iff, !Z.eqb_neq in Hz. destruct Hz as [[[? ?] ?] ?].
  right. split_and!; try done.
  destruct ((P <? 1) || (10 <? P)) eqn:HP.
  { left. split; [done|]. rewrite orb_true_iff, !Z.ltb_lt in HP. lia. }
  rewrite orb_false_iff, !Z.ltb_ge in HP. right. split; [lia|].
  destruct ((C <? 1) || (3 <? C)) eqn:HC.
  { left. split; [done|]. rewrite orb_true_iff, !Z.ltb_lt in HC. lia. }
  rewrite orb_false_iff, !Z.ltb_ge in HC. right. split; [lia|].
  destruct ((Q <? 1) || (20 <? Q)) eqn:HQ.
  { left. split; [done|]. rewrite orb_true_iff, !Z.ltb_lt in HQ. lia. }
  rewrite orb_false_iff, !Z.ltb_ge in HQ. right. split; [lia|].
  destruct (Z.ltb_spec T 1); [left|right]; split; (done || lia).
Qed.

(** X19.  [parse_args] accepts valid runs and nothing else.  The result
    does not depend on what [*out] held before the call.  It is 0 exactly
    when every option is one of the program's and carries a number that can
    be read, and the last number given for each of -p, -c, -q and -t is in
    range: producers 1..10, consumers 1..3, queue capacity 1..20, timeout
    at least 1.  On success [*out] holds these last numbers, all of them
    values of [int], and [verbose] is set exactly when -v was given. *)
Theorem parse_args_accepts_only_valid_runs
    (gs : list getopt_t) (out0 : run_params_t) :
  exists p,
    snd (parse_args strtol gs (Some out0)) = Some p /\
    (forall out1,
       parse_args strtol gs (Some out1) = parse_args strtol gs (Some out0)) /\
    (fst (parse_args strtol gs (Some out0)) = 0 <->
     Forall (fun g => accepted strtol g = true) gs /\
     1 <= last_value strtol "p" gs <= MAX_PRODUCERS /\
     1 <= last_value strtol "c" gs <= MAX_CONSUMERS /\
     1 <= last_value strtol "q" gs <= MAX_QUEUE_CAPACITY /\
     1 <= last_value strtol "t" gs) /\
    (fst (parse_args strtol gs (Some out0)) = 0 ->
     p = Params (last_value strtol "p" gs) (last_value strtol "c" gs)
                (last_value strtol "q" gs) (last_value strtol "t" gs)
                (asks_verbose gs) /\
     timeout_sec p <= INT_MAX).
Proof.
  destruct (first_rejected gs) as [Hall|(good & bad & rest & -> & Hg & Hb)].
  - pose proof (parse_args_accepted gs out0 Hall) as Hrun. cbv zeta in Hrun.
    rewrite Hrun. cbn [fst snd]. eexists. split; [reflexivity|].
    split; [done|].
    pose proof (value_after_fits "t" gs 0 ltac:(done)) as Hfit.
    fold (last_value strtol "t" gs) in Hfit.
    split; [|intros _; split; [done|cbn; lia]].
    pose proof (range_checks_cases (last_value strtol "p" gs)
                  (last_value strtol "c" gs) (last_value strtol "q" gs)
                  (last_value strtol "t" gs)) as Hchk.
    cbv zeta in Hchk.
    destruct Hchk as [[-> Hz]|(? & ? & ? & ? & [[-> ?]|(? & [[-> ?]|(? &
                      [[-> ?]|(? & [[-> ?]|[-> ?]])])])])].
    all: split; [intros Hrc|intros (_ & ? & ? & ? & ?)].
    all: try discriminate Hrc.
    all: try (split; [exact Hall|]).
    all: try lia.
  - unfold parse_args. rewrite (getopt_loop_rejected good bad rest Hg Hb).
    destruct (takes_argument bad); cbn [negb Z.eqb fst snd];
      (eexists; split; [reflexivity|]; split; [done|]; split; [|done];
       split; [done|]);
      intros (Hall & _); apply Forall_app in Hall as [_ Hall];
      apply Forall_inv in Hall; congruence.
Qed.

(** X20.  The first offending option decides.  When the options before it
    are accepted, an option that is not ends the call at once: the result
    is -2 if it is one of -p, -c, -q, -t with a number that cannot be read
    and -3 if it is anything else, whatever follows it on the command line
    and whether or not the values read so far are complete or in range; and
    [*out] holds what the options before it have set. *)
Theorem parse_args_stops_at_first_offence
    (good : list getopt_t) (bad : getopt_t) (rest : list getopt_t)
    (out0 : run_params_t) :
  Forall (fun g => accepted strtol g = true) good ->
  accepted strtol bad = false ->
  parse_args strtol (good ++ bad :: rest) (Some out0) =
  (if takes_argument bad then -2 else -3,
   Some (Params (last_value strtol "p" good) (last_value strtol "c" good)
                (last_value strtol "q" good) (last_value strtol "t" good)
                (asks_verbose good))).
Proof.
  intros Hg Hb. unfold parse_args.
  rewrite (getopt_loop_rejected good bad rest Hg Hb).
  rewrite (getopt_loop_accepted good Hg). cbn [snd].
  by destruct (takes_argument bad).
Qed.

(** X21.  A zero reads as a missing option.  On a command line whose
    options are all accepted, the result is -4 exactly when the last number
    given for one of -p, -c, -q, -t is 0, which is also what an option that
    was not given leaves behind.  The results -5, -6, -7 then stand for a
    negative or too large number of producers, consumers or queue slots,
    in this order of precedence, and -8 for a negative timeout. *)
Theorem parse_args_zero_reads_as_missing
    (gs : list getopt_t) (out0 : run_params_t) :
  Forall (fun g => accepted strtol g = true) gs ->
  let rc := fst (parse_args strtol gs (Some out0)) in
  let P := last_value strtol "p" gs in
  let C := last_value strtol "c" gs in
  let Q := last_value strtol "q" gs in
  let T := last_value strtol "t" gs in
  (rc = -4 <-> P = 0 \/ C = 0 \/ Q = 0 \/ T = 0) /\
  (rc = -5 <-> ~ (P = 0 \/ C = 0 \/ Q = 0 \/ T = 0) /\
               (P < 0 \/ MAX_PRODUCERS < P)) /\
  (rc = -6 -> 1 <= P <= MAX_PRODUCERS /\ (C < 0 \/ MAX_CONSUMERS < C)) /\
  (rc = -7 -> 1 <= P <= MAX_PRODUCERS /\ 1 <= C <= MAX_CONSUMERS /\
              (Q < 0 \/ MAX_QUEUE_CAPACITY < Q)) /\
  (rc = -8 -> 1 <= P <= MAX_PRODUCERS /\ 1 <= C <= MAX_CONSUMERS /\
              1 <= Q <= MAX_QUEUE_CAPACITY /\ T < 0) /\
  (forall c, Forall (fun g => opt g <> c) gs -> last_value strtol c gs = 0).
Proof.
  intros Hall rc P C Q T.
  pose proof (parse_args_accepted gs out0 Hall) as Hrun. cbv zeta in Hrun.
  fold P C Q T in Hrun. unfold rc. rewrite Hrun. cbn [fst].
  assert (forall c, Forall (fun g => opt g <> c) gs ->
                    last_value strtol c gs = 0) as Habs.
  { intros c Hc. by apply value_after_absent. }
  pose proof (range_checks_cases P C Q T) as Hchk. cbv zeta in Hchk.
  clearbody P C Q T. clear Hrun.
  destruct Hchk as [[-> Hz]|(? & ? & ? & ? & [[-> ?]|(? & [[-> ?]|(? &
                    [[-> ?]|(? & [[-> ?]|[-> ?]])])])])].
  all: unfold MAX_PRODUCERS, MAX_CONSUMERS, MAX_QUEUE_CAPACITY in *.
  all: split_and!; try exact Habs.
  all: try (intros Hrc; discriminate Hrc).
  all: try (split; [intros Hrc; try discriminate Hrc|intros Hc]).
  all: try (exfalso; lia); try tauto.
  all: try (intros _; split_and!; lia).
  all: try (split; [tauto|lia]).
Qed.

End CliExtras.

Section CliExtrasWitnesses.
Import Ascii Cli.

Lemma usage_example_accepted :
  Forall (fun g => accepted strtol_digits g = true) usage_example.
Proof. repeat constructor. Qed.

Lemma parse_args_stops_at_first_offence_witness :
  parse_args strtol_digits
    (usage_example ++ Getopt "x" None :: [Getopt "p" None])
    (Some (Params 0 0 0 0 false))
  = (-3, Some (Params 5 3 10 20 true)).
Proof.
  exact (parse_args_stops_at_first_offence strtol_digits usage_example
           (Getopt "x" None) [Getopt "p" None] (Params 0 0 0 0 false)
           usage_example_accepted eq_refl).
Defined.

Lemma parse_args_zero_reads_as_missing_witness :
  Forall (fun g => accepted strtol_digits g = true) (take 3 usage_example) /\
  fst (parse_args strtol_digits (take 3 usage_example)
         (Some (Params 0 0 0 0 false))) = -4.
Proof.
  assert (Forall (fun g => accepted strtol_digits g = true)
                 (take 3 usage_example)) as Hall by repeat constructor.
  split; [exact Hall|].
  apply (proj1 (parse_args_zero_reads_as_missing strtol_digits
                  (take 3 usage_example) (Params 0 0 0 0 false) Hall)).
  do 3 right. reflexivity.
Defined.

(** The example of the usage message is a valid run. *)
Example parse_args_usage_example :
  parse_args strtol_digits usage_example (Some (Params 7 7 7 7 false))
  = (0, Some (Params 5 3 10 20 true)).
Proof. reflexivity. Qed.

End CliExtrasWitnesses.

(** ** main.c: from the command line to the buffer *)

Section MainExtras.
Import Queue Machine Sync Buffer Cli.

(** What [parse_args] has checked when it returns 0. *)
Lemma parse_args_ok_ranges (strtol : String.string -> Z * String.string)
    (gs : list getopt_t) (out : option run_params_t) (p : run_params_t) :
  parse_args strtol gs out = (0, Some p) ->
  1 <= producers p <= MAX_PRODUCERS /\
  1 <= consumers p <= MAX_CONSUMERS /\
  1 <= q_capacity p <= MAX_QUEUE_CAPACITY /\
  1 <= timeout_sec p.
Proof.
  unfold parse_args. destruct out as [out0|]; [|done].
  destruct (getopt_loop strtol gs _) as [rc o].
  destruct (Z.eqb_spec rc 0) as [->|Hne]; cbn [negb];
    [|intros [= -> _]; done].
  destruct (_ || _); [done|].
  destruct (Z.ltb_spec (producers o) 1); [done|].
  destruct (Z.ltb_spec MAX_PRODUCERS (producers o)); [done|].
  destruct (Z.ltb_spec (consumers o) 1); [done|].
  destruct (Z.ltb_spec MAX_CONSUMERS (consumers o)); [done|].
  destruct (Z.ltb_spec (q_capacity o) 1); [done|].
  destruct (Z.ltb_spec MAX_QUEUE_CAPACITY (q_capacity o)); [done|].
  destruct (Z.ltb_spec (timeout_sec o) 1); [done|].
  cbn [orb]. intros [= <-]. lia.
Qed.

(** With memory and without faults [buffer_init] succeeds on every
    capacity a semaphore can hold. *)
Lemma buffer_init_quiet (E : env) (cap : Z) w :
  0 < cap <= SEM_VALUE_MAX ->
  alloc_at E (now w) = true ->
  (forall t, fault_at E t = None) ->
  exists w', buffer_init E ADDR cap w = Some (0, w').
Proof.
  intros Hcap Halloc Hquiet. destruct w as [[q0 [mt it sl]] n e tr dl].
  cbn [now] in Halloc.
  unfold buffer_init, on_queue_init, queue_init, calloc, bind.
  cbn [buffer q now]. rewrite Halloc.
  destruct (Z.leb_spec cap 0) as [|_]; [lia|].
  cbn [nonzero Z.eqb negb].
  unfold sync_init, field_of, bind, pthread_mutex_init, sem_init.
  destruct (Z.leb_spec cap 0) as [|_]; [lia|].
  assert ((SEM_VALUE_MAX <? cap) = false) as Hfit by (apply Z.ltb_ge; lia).
  do 4 (cbn -[Z.ltb SEM_VALUE_MAX replicate]; rewrite ?Hquiet, ?Hfit;
        try change (SEM_VALUE_MAX <? 0) with false; cbv iota).
  by eexists.
Qed.

(** X22.  A validated run gets its buffer.  [main] hands the queue
    capacity that [parse_args] has accepted to [buffer_init].  That call
    always returns; it returns -2 exactly when the allocator has no memory,
    never because of the capacity; a result of 0 leaves a buffer at rest
    with as many free slots as the command line asked for, between 1 and
    20; and with memory and without faults the result is 0. *)
Theorem validated_run_gets_its_buffer
    (strtol : String.string -> Z * String.string) (gs : list getopt_t)
    (out0 p : run_params_t) (E : env) w :
  parse_args strtol gs (Some out0) = (0, Some p) ->
  exists rc w',
    buffer_init E ADDR (q_capacity p) w = Some (rc, w') /\
    (rc = -2 <-> alloc_at E (now w) = false) /\
    (rc = 0 ->
     buffer_inv w' /\ held (q (buffer w')) = [] /\
     capacity (q (buffer w')) = q_capacity p /\
     slots (s (buffer w')) = q_capacity p /\
     1 <= slots (s (buffer w')) <= MAX_QUEUE_CAPACITY) /\
    (alloc_at E (now w) = true -> (forall t, fault_at E t = None) -> rc = 0).
Proof.
  intros Hparse.
  destruct (parse_args_ok_ranges _ _ _ _ Hparse) as (_ & _ & Hq & _).
  unfold MAX_QUEUE_CAPACITY in *.
  destruct (buffer_init_cases E (q_capacity p) w) as (rc & w' & Hrun & Hc).
  exists rc, w'. split; [exact Hrun|].
  assert (fst (queue_init (Some (q (buffer w))) (q_capacity p)
                 (alloc_at E (now w))) <> 0
          <-> alloc_at E (now w) = false) as Hq_init.
  { unfold queue_init, calloc.
    destruct (Z.leb_spec (q_capacity p) 0); [lia|].
    by destruct (alloc_at E (now w)). }
  split_and!.
  - destruct Hc as [(-> & Hf & _)|[(-> & Hf & _)|(-> & Hf & _)]].
    + split; [intros _; by apply Hq_init|done].
    + split; [done|]. intros Ha. apply Hq_init in Ha. by rewrite Hf in Ha.
    + split; [done|]. intros Ha. apply Hq_init in Ha. by rewrite Hf in Ha.
  - intros ->.
    destruct Hc as [(? & _)|[(? & _)|(_ & _ & Hcap & Hb)]]; try done.
    split; [by eapply fresh_buffer_inv|]. rewrite Hb. cbn. split_and!; try done; lia.
  - intros Ha Hquiet.
    destruct (buffer_init_quiet E (q_capacity p) w) as (w'' & Hrun');
      [unfold SEM_VALUE_MAX; lia|done|done|].
    congruence.
Qed.

End MainExtras.

Section MainExtrasWitnesses.
Import Queue Machine Sync Buffer Cli.

Lemma validated_run_gets_its_buffer_witness :
  exists w',
    buffer_init E_quiet ADDR 10 w_blank = Some (0, w') /\
    slots (s (buffer w')) = 10.
Proof.
  destruct (validated_run_gets_its_buffer strtol_digits usage_example
              (Params 0 0 0 0 false) (Params 5 3 10 20 true) E_quiet w_blank
              eq_refl) as (rc & w' & Hrun & _ & Hok & Hquiet).
  assert (rc = 0) as -> by (by apply Hquiet).
  exists w'. split; [exact Hrun|]. by apply Hok.
Defined.

End MainExtrasWitnesses.

(** ** workers.c and main.c: seeds, messages and waits *)

Section WorkerExtras.
Import Queue Machine Util Cli Workers Main.





(** X24.  What a producer puts into the buffer is well formed although it
    never assigns [m.seq].  On a seed an [unsigned int] can hold the message
    has a value between RAND_VALUE_MIN and RAND_VALUE_MAX, the producer's
    fixed priority and its id, and the seed that is left is not 0.  Whatever
    the unassigned [seq] field holds, [queue_push] returns the same result
    and the same queue: the field is overwritten with the queue's own
    sequence number before the message is stored. *)
Theorem producer_message_is_well_formed
    (seed prio id junk junk' : Z) (p : option queue_t) :
  0 <= seed <= UINT_MAX ->
  exists v seed',
    new_message seed prio id junk = Some (Msg v prio id junk, seed') /\
    RAND_VALUE_MIN <= v <= RAND_VALUE_MAX /\
    1 <= seed' <= UINT_MAX /\
    queue_push p (Some (Msg v prio id junk))
    = queue_push p (Some (Msg v prio id junk')).
Proof.
  intros Hs. unfold new_message.
  destruct (rand_in_range_ordered seed RAND_VALUE_MIN RAND_VALUE_MAX
              ltac:(done) eq_refl) as [-> _].
  destruct (xrng_fits seed Hs) as [Hr Hsnd].
  pose proof (Z.mod_pos_bound (fst (xrng seed))
                (RAND_VALUE_MAX - RAND_VALUE_MIN + 1) ltac:(done)) as Hv.
  eexists _, (snd (xrng seed)). split; [done|].
  split; [unfold RAND_VALUE_MIN, RAND_VALUE_MAX in *; lia|].
  split; [lia|].
  unfold queue_push. destruct p as [q0|]; [|done].
  destruct (buf q0); [|done]. by destruct (queue_is_full (Some q0)).
Qed.

Lemma producer_message_is_well_formed_witness :
  exists v seed',
    new_message 1 3 1 0 = Some (Msg v 3 1 0, seed') /\ 0 <= v <= 9.
Proof.
  destruct (producer_message_is_well_formed 1 3 1 0 77 (Some q_three)
              ltac:(unfold UINT_MAX; lia))
    as (v & seed' & Hrun & Hv & _).
  by exists v, seed'.
Defined.

(** X25.  The wait between two operations of a worker is bounded: with a
    maximum of [max_sec] seconds whose milliseconds fit [int], and sleeps
    that are not cut short by signals for ever, the wait returns having
    asked for at most [max_sec * 1000] milliseconds of sleep in all, in
    positive chunks, none longer than [poll_ms] when there is a flag to
    poll, and none at all when the flag is already up; the seed it leaves
    is not 0. *)
Theorem random_wait_is_bounded
    (E : sleep_env) (retry : nat) (seed max_sec : Z) (stop_flag : ptr)
    (poll_ms : Z) c :
  0 <= seed <= UINT_MAX ->
  0 <= max_sec -> max_sec * 1000 <= INT_MAX ->
  (forall t, exists k : nat, (k <= retry)%nat /\
     forall rem, cut_at E (t + k) <> Some (EINTR, rem)) ->
  exists c' seed' chunks,
    random_wait E retry seed 0 max_sec stop_flag poll_ms c
      = Some (c', seed') /\
    1 <= seed' <= UINT_MAX /\
    slept c' = slept c ++ chunks /\
    Forall (fun x => 0 < x) chunks /\
    total chunks <= max_sec * 1000 /\
    (stop_flag = ADDR -> 0 < poll_ms ->
     Forall (fun x => x <= poll_ms) chunks /\
     (stop_at E (clk c) <> 0 -> chunks = [])).
Proof.
  intros Hs Hmax Hfit Hsig. unfold random_wait.
  destruct (rand_in_range_ordered seed 0 max_sec Hmax
              ltac:(unfold INT_MAX in *; lia)) as [-> _].
  pose proof (Z.mod_pos_bound (fst (xrng seed)) (max_sec - 0 + 1)
                ltac:(lia)) as Hv.
  set (wait_s := 0 + fst (xrng seed) mod (max_sec - 0 + 1)) in *.
  destruct (xrng_fits seed Hs) as [Hr Hsnd].
  destruct (sleep_interruptible_ms_cases E retry stop_flag (wait_s * 1000)
              poll_ms c Hsig) as (c' & chunks & -> & Hsl & Hcases).
  exists c', (snd (xrng seed)), chunks.
  split; [done|]. split; [lia|]. split; [exact Hsl|].
  destruct Hcases as [[Hle ->]|[(Hpos & Hone & ->)
                     |(Hpos & -> & Hpoll & Hall & Hsum & _ & Hup)]].
  - split; [constructor|]. cbn. split; [lia|]. intros _ _. by split.
  - split; [by repeat constructor|]. cbn. split; [lia|].
    intros -> Hp. destruct Hone as [?|?]; [done|lia].
  - split.
    { eapply Forall_impl; [exact Hall|]. intros x Hx. cbn in Hx. lia. }
    split; [lia|]. intros _ _. split; [|exact Hup].
    eapply Forall_impl; [exact Hall|]. intros x Hx. cbn in Hx. lia.
Qed.

Lemma random_wait_is_bounded_witness :
  exists c' seed' chunks,
    random_wait S_quiet 0 1 0 PRODUCER_WAIT_MAX_SEC ADDR poll_ms c_start
      = Some (c', seed') /\
    slept c' = chunks /\ total chunks <= 2000.
Proof.
  assert (forall t : nat, exists k : nat, (k <= 0)%nat /\
            forall rem, cut_at S_quiet (t + k) <> Some (EINTR, rem)) as Hsig.
  { intros t. exists 0%nat. split; [lia|done]. }
  destruct (random_wait_is_bounded S_quiet 0 1 PRODUCER_WAIT_MAX_SEC ADDR
              poll_ms c_start ltac:(unfold UINT_MAX; lia)
              ltac:(unfold PRODUCER_WAIT_MAX_SEC; lia)
              ltac:(unfold PRODUCER_WAIT_MAX_SEC, INT_MAX; lia) Hsig)
    as (c' & seed' & chunks & Hrun & _ & Hsl & _ & Hsum & _).
  exists c', seed', chunks. split; [exact Hrun|]. split; [exact Hsl|].
  unfold PRODUCER_WAIT_MAX_SEC in Hsum. lia.
Defined.

End WorkerExtras.
